(** * med-notes-app: token parsing, debounced search, caches and the
    token input workflow

  A shallow embedding of
    - [parseTokensClient], [createDebouncedSearch], [getCachedDiseaseStats],
      [getDiseaseStats], [parseMedicalTokens], [addFeatureToDisease]
      (src/Backend/api.js),
    - [BackendService] (src/Backend/backendConfig.js),
    - [useTokenInputWorkflow] (src/hooks/useApi.js),
  followed by the properties of the specification stated on it.

  Part I holds the definitions, Part II the theorems. *)

From Stdlib Require Import NArith ZArith List Bool String Ascii Lia.
From Stdlib Require Import DecimalString DecimalN.
From stdpp Require Import base option list countable gmap fin_maps.
Import ListNotations.

Local Open Scope N_scope.

(** * Part I: definitions *)

(** ** JavaScript strings

  A JavaScript string is a sequence of UTF-16 code units.  The two
  directional glyphs are single code units of the Basic Multilingual Plane,
  so [endsWith] and [slice(0, -1)] act on exactly one element.  Code units
  are kept as unbounded [N]: nothing below depends on the 16-bit bound. *)
Module JS.

Definition code_unit := N.
Definition jsstring := list code_unit.

(** An ASCII literal as a JavaScript string. *)
Definition lit (s : string) : jsstring :=
  map (fun a => N.of_nat (nat_of_ascii a)) (list_ascii_of_string s).

Definition ch_plus : code_unit := 43.
Definition ch_minus : code_unit := 45.
Definition ch_lt : code_unit := 60.
Definition ch_eq : code_unit := 61.
Definition ch_gt : code_unit := 62.
(** U+2191 UPWARDS ARROW and U+2193 DOWNWARDS ARROW. *)
Definition ch_up : code_unit := 8593.
Definition ch_down : code_unit := 8595.

(** The class [\s] of a regular expression, which is also the set that
    [String.prototype.trim] strips: WhiteSpace and LineTerminator. *)
Definition is_space (c : code_unit) : bool :=
  ((9 <=? c) && (c <=? 13)) || (c =? 32) || (c =? 160) || (c =? 5760)
  || ((8192 <=? c) && (c <=? 8202)) || (c =? 8232) || (c =? 8233)
  || (c =? 8239) || (c =? 8287) || (c =? 12288) || (c =? 65279).

(** The characters [.] refuses without the [s] flag. *)
Definition is_line_terminator (c : code_unit) : bool :=
  (c =? 10) || (c =? 13) || (c =? 8232) || (c =? 8233).

(** [\d] *)
Definition is_digit (c : code_unit) : bool := (48 <=? c) && (c <=? 57).

Definition is_empty (s : jsstring) : bool :=
  match s with [] => true | _ :: _ => false end.

(** [s.startsWith(c)] and [s.endsWith(c)] for a one-unit string [c]. *)
Definition startsWith (s : jsstring) (c : code_unit) : bool :=
  match s with x :: _ => x =? c | [] => false end.

Definition endsWith (s : jsstring) (c : code_unit) : bool :=
  match rev s with x :: _ => x =? c | [] => false end.

(** [s.slice(1)] and [s.slice(0, -1)]. *)
Definition slice_from_1 (s : jsstring) : jsstring := tl s.
Definition slice_to_last (s : jsstring) : jsstring := removelast s.

(** [prefix] is a prefix of [s] ([s.startsWith(prefix)] for any string). *)
Fixpoint startsWithStr (s prefix : jsstring) : bool :=
  match prefix, s with
  | [], _ => true
  | p :: ps, x :: xs => (x =? p) && startsWithStr xs ps
  | _ :: _, [] => false
  end.

(** [s.trim()] *)
Fixpoint trimStart (s : jsstring) : jsstring :=
  match s with
  | c :: r => if is_space c then trimStart r else s
  | [] => []
  end.

Definition trimEnd (s : jsstring) : jsstring := rev (trimStart (rev s)).

Definition trim (s : jsstring) : jsstring := trimEnd (trimStart s).

(** [s.split(/\s+/)].  The first element of the result is the fragment
    under construction; a run of white space closes it once.  A string
    that starts (ends) with white space yields an empty first (last)
    fragment, and the empty string yields one empty fragment, as in
    JavaScript. *)
Fixpoint split_ws_from (in_run : bool) (s : jsstring) : list jsstring :=
  match s with
  | [] => [[]]
  | c :: r =>
      if is_space c then
        if in_run then split_ws_from true r else [] :: split_ws_from true r
      else
        match split_ws_from false r with
        | f :: fs => (c :: f) :: fs
        | [] => [[c]]
        end
  end.

Definition split_ws (s : jsstring) : list jsstring := split_ws_from false s.

(** A string without white space, as the fragments of [split] are. *)
Definition ws_free (s : jsstring) : Prop :=
  List.Forall (fun c => is_space c = false) s.

(** The values a token field takes: [null], a string, or a number. *)
Inductive jsval :=
| JNull
| JString (s : jsstring)
| JNumber (n : Z).

End JS.

(** ** The client-side tokenizer, [parseTokensClient] *)
Module Tokenizer.
Import JS.

Record token := {
  original : jsstring;
  cleanToken : jsstring;
  isPresent : bool;
  valueModifier : jsval;
  numericValue : jsval
}.

(** [([<>]=?)(\d+)$] matched at the start of [s]: the operator and the
    digit run.  [=?] is greedy, so the two-character operator is tried
    first; [\d+] followed by [$] takes the whole rest, which has to be a
    non-empty run of digits. *)
Definition all_digits (s : jsstring) : bool :=
  negb (is_empty s) && forallb is_digit s.

Definition match_op_digits (s : jsstring) : option (jsstring * jsstring) :=
  match s with
  | c :: r =>
      if (c =? ch_lt) || (c =? ch_gt) then
        match r with
        | e :: r' =>
            if (e =? ch_eq) && all_digits r' then Some ([c; e], r')
            else if all_digits r then Some ([c], r) else None
        | [] => None
        end
      else None
  | [] => None
  end.

(** The lazy group [(.+?)] after its first character: the rest of the
    pattern is tried before another character is taken.  The result holds
    the characters taken in addition to the first one. *)
Fixpoint lazy_word (s : jsstring) : option (jsstring * jsstring * jsstring) :=
  match match_op_digits s with
  | Some (op, ds) => Some ([], op, ds)
  | None =>
      match s with
      | c :: r =>
          if is_line_terminator c then None
          else match lazy_word r with
               | Some (w, op, ds) => Some (c :: w, op, ds)
               | None => None
               end
      | [] => None
      end
  end.

(** [s.match(/^(.+?)([<>]=?)(\d+)$/)]: the three groups, or [None] for
    [null]. *)
Definition comparison_match (s : jsstring)
  : option (jsstring * jsstring * jsstring) :=
  match s with
  | c :: r =>
      if is_line_terminator c then None
      else match lazy_word r with
           | Some (w, op, ds) => Some (c :: w, op, ds)
           | None => None
           end
  | [] => None
  end.

(** The [+]/[-] prefix: the presence flag and the remainder. *)
Definition strip_sign (tok : jsstring) : bool * jsstring :=
  if startsWith tok ch_plus then (true, slice_from_1 tok)
  else if startsWith tok ch_minus then (false, slice_from_1 tok)
  else (true, tok).

(** The directional suffix: the modifier so far and the remainder. *)
Definition strip_arrow (s : jsstring) : jsval * jsstring :=
  if endsWith s ch_up then (JString [ch_up], slice_to_last s)
  else if endsWith s ch_down then (JString [ch_down], slice_to_last s)
  else (JNull, s).

(** The body of the loop for one non-empty fragment.  The comparison match
    is applied to whatever the suffix step left, and its groups overwrite
    [cleanToken] and [valueModifier]; group 3 is stored as it is, a
    string. *)
Definition parse_fragment (tok : jsstring) : token :=
  let '(present, s1) := strip_sign tok in
  let '(vm, s2) := strip_arrow s1 in
  match comparison_match s2 with
  | Some (w, op, ds) =>
      {| original := tok; cleanToken := w; isPresent := present;
         valueModifier := JString op; numericValue := JString ds |}
  | None =>
      {| original := tok; cleanToken := s2; isPresent := present;
         valueModifier := vm; numericValue := JNull |}
  end.

(** [for (const token of tokens) { if (!token) continue; ... }] *)
Fixpoint parse_loop (tokens : list jsstring) : list token :=
  match tokens with
  | [] => []
  | t :: ts =>
      if is_empty t then parse_loop ts
      else parse_fragment t :: parse_loop ts
  end.

Definition parseTokensClient (inputString : jsstring) : list token :=
  parse_loop (split_ws (trim inputString)).

(** Tokenizing the clean text [c] alone gives one token, with the same clean
    text, no modifier and no numeric value. *)
Definition retokenizes_to_itself (c : jsstring) : Prop :=
  exists t', parseTokensClient c = [t'] /\ cleanToken t' = c
             /\ valueModifier t' = JNull /\ numericValue t' = JNull.

(** The three shapes of a token: no modifier, a directional glyph alone, a
    comparison operator together with a digit run. *)
Definition operators : list jsstring :=
  [[ch_lt]; [ch_lt; ch_eq]; [ch_gt]; [ch_gt; ch_eq]].

Definition is_operator (op : jsstring) : bool :=
  bool_decide (op ∈ operators).

Definition no_modifier (t : token) : bool :=
  match valueModifier t, numericValue t with
  | JNull, JNull => true
  | _, _ => false
  end.

Definition directional (t : token) : bool :=
  match valueModifier t, numericValue t with
  | JString g, JNull =>
      bool_decide (g = [ch_up]) || bool_decide (g = [ch_down])
  | _, _ => false
  end.

Definition comparison (t : token) : bool :=
  match valueModifier t, numericValue t with
  | JString op, JString ds => is_operator op && all_digits ds
  | _, _ => false
  end.

Definition exactly_one (bs : list bool) : bool :=
  Nat.eqb (List.length (List.filter (fun b => b) bs)) 1.

(** The fragments that are nothing but markers: a sign, a directional glyph,
    or a sign followed by a directional glyph. *)
Definition bare_markers : list jsstring :=
  [[ch_plus]; [ch_minus]; [ch_up]; [ch_down];
   [ch_plus; ch_up]; [ch_plus; ch_down];
   [ch_minus; ch_up]; [ch_minus; ch_down]].

(** A clean text on which the tokenizer finds nothing more to strip: not
    empty, no sign in front, no directional glyph at the end, and not of the
    form word, operator, digits. *)
Definition stable (c : jsstring) : bool :=
  negb (is_empty c)
  && negb (startsWith c ch_plus) && negb (startsWith c ch_minus)
  && negb (endsWith c ch_up) && negb (endsWith c ch_down)
  && match comparison_match c with Some _ => false | None => true end.

End Tokenizer.


(** ** [createDebouncedSearch]

    The closure variable [timeoutId], the timers of the event loop and the
    promises handed to the callers, as a machine driven by events.  A call
    gets the handle [setTimeout] returns as its identity: each call creates
    exactly one timer and one promise.  Timers never run before they are due;
    they may run late, so running one is an event of its own. *)
Module Debounce.

(** How the promise of a call ends: [resolve(result)] or [reject(error)]. *)
Inductive settled (R E : Type) :=
| Resolved (r : R)
| Rejected (e : E).
Arguments Resolved {R E} r.
Arguments Rejected {R E} e.

Record timer (A : Type) := {
  tid : nat;
  due : N;
  targs : A
}.
Arguments tid {A} t.
Arguments due {A} t.
Arguments targs {A} t.

Record state (A R E W : Type) := {
  now : N;
  timeoutId : option nat;
  timers : list (timer A);
  next_id : nat;
  lookup_world : W;
  reached : list (nat * A);
  inflight : list (nat * settled R E);
  delivered : list (nat * settled R E)
}.
Arguments now {A R E W} s.
Arguments timeoutId {A R E W} s.
Arguments timers {A R E W} s.
Arguments next_id {A R E W} s.
Arguments lookup_world {A R E W} s.
Arguments reached {A R E W} s.
Arguments inflight {A R E W} s.
Arguments delivered {A R E W} s.

Inductive event (A : Type) :=
| Call (a : A)
| Wait (dt : N)
| Fire (id : nat)
| Settle (id : nat).
Arguments Call {A} a.
Arguments Wait {A} dt.
Arguments Fire {A} id.
Arguments Settle {A} id.

(** [delay = 300] *)
Definition default_delay : N := 300.

(** [clearTimeout(timeoutId)]: nothing happens for [undefined] or for a
    handle whose timer is gone. *)
Definition clearTimeout {A} (h : option nat) (ts : list (timer A))
  : list (timer A) :=
  match h with
  | Some id => List.filter (fun t => negb (Nat.eqb (tid t) id)) ts
  | None => ts
  end.

Definition find_due {A} (id : nat) (t_now : N) (ts : list (timer A))
  : option (timer A) :=
  List.find (fun t => Nat.eqb (tid t) id && (due t <=? t_now)) ts.

Definition find_call {X} (id : nat) (l : list (nat * X)) : option (nat * X) :=
  List.find (fun p => Nat.eqb (fst p) id) l.

Definition drop_call {X} (id : nat) (l : list (nat * X)) : list (nat * X) :=
  List.filter (fun p => negb (Nat.eqb (fst p) id)) l.

(** The state right after [createDebouncedSearch(searchFunction, delay)]:
    [let timeoutId], nothing scheduled. *)
Definition createDebouncedSearch {A R E W} (w : W) : state A R E W :=
  {| now := 0; timeoutId := None; timers := []; next_id := O;
     lookup_world := w; reached := []; inflight := []; delivered := [] |}.

Definition step {A R E W}
  (searchFunction : A -> W -> settled R E * W) (delay : N)
  (s : state A R E W) (ev : event A) : state A R E W :=
  match ev with
  | Call a =>
      (* clearTimeout(timeoutId); timeoutId = setTimeout(..., delay) *)
      {| now := now s;
         timeoutId := Some (next_id s);
         timers := clearTimeout (timeoutId s) (timers s)
                   ++ [{| tid := next_id s; due := now s + delay;
                          targs := a |}];
         next_id := S (next_id s);
         lookup_world := lookup_world s;
         reached := reached s;
         inflight := inflight s;
         delivered := delivered s |}
  | Wait dt =>
      {| now := now s + dt;
         timeoutId := timeoutId s;
         timers := timers s;
         next_id := next_id s;
         lookup_world := lookup_world s;
         reached := reached s;
         inflight := inflight s;
         delivered := delivered s |}
  | Fire id =>
      (* the timer callback: searchFunction(...args) is called and awaited *)
      match find_due id (now s) (timers s) with
      | Some t =>
          let '(r, w') := searchFunction (targs t) (lookup_world s) in
          {| now := now s;
             timeoutId := timeoutId s;
             timers := List.filter (fun t' => negb (Nat.eqb (tid t') id))
                         (timers s);
             next_id := next_id s;
             lookup_world := w';
             reached := reached s ++ [(id, targs t)];
             inflight := inflight s ++ [(id, r)];
             delivered := delivered s |}
      | None => s
      end
  | Settle id =>
      (* the awaited promise settles: resolve(result) or reject(error) *)
      match find_call id (inflight s) with
      | Some p =>
          {| now := now s;
             timeoutId := timeoutId s;
             timers := timers s;
             next_id := next_id s;
             lookup_world := lookup_world s;
             reached := reached s;
             inflight := drop_call id (inflight s);
             delivered := delivered s ++ [p] |}
      | None => s
      end
  end.

Definition run {A R E W}
  (searchFunction : A -> W -> settled R E * W) (delay : N)
  (evs : list (event A)) (s : state A R E W) : state A R E W :=
  fold_left (step searchFunction delay) evs s.

(** The time that passes during a list of events. *)
Fixpoint elapsed {A} (evs : list (event A)) : N :=
  match evs with
  | [] => 0
  | Wait dt :: r => dt + elapsed r
  | _ :: r => elapsed r
  end.

(** The identities of the calls in a list of the machine. *)
Definition ids {X} (l : list (nat * X)) : list nat := map fst l.

Definition timer_ids {A} (ts : list (timer A)) : list nat := map tid ts.

(** At most one timer is active, the one [timeoutId] holds; handles are
    handed out in increasing order. *)
Definition inv {A R E W} (s : state A R E W) : Prop :=
  (forall t, In t (timers s) ->
             timeoutId s = Some (tid t) /\ (tid t < next_id s)%nat)
  /\ (forall i,
        In i (ids (reached s) ++ ids (inflight s) ++ ids (delivered s)) ->
        (i < next_id s)%nat).

(** The call [i] has been dropped: it is not scheduled and it has left no
    trace. *)
Definition dead {A R E W} (i : nat) (s : state A R E W) : Prop :=
  ~ In i (timer_ids (timers s)) /\ ~ In i (ids (reached s))
  /\ ~ In i (ids (inflight s)) /\ ~ In i (ids (delivered s))
  /\ (i < next_id s)%nat.

(** The call [i] is scheduled for [deadline] at the latest and has not run. *)
Definition waiting {A R E W} (i : nat) (deadline : N) (s : state A R E W)
  : Prop :=
  (forall t, In t (timers s) -> tid t = i -> due t = deadline)
  /\ ~ In i (ids (reached s)) /\ ~ In i (ids (inflight s))
  /\ ~ In i (ids (delivered s)) /\ (i < next_id s)%nat.

End Debounce.

(** ** The Supabase client and the wrappers of src/Backend/api.js

    The database is outside the repository.  A call to it is a transition of
    an abstract world that answers [{ data, error }] or throws. *)
Module Supabase.
Import JS.

(** An error object; [message] is what [addError?.message] reads. *)
Record js_error := { message : jsstring }.

Inductive rpc_outcome (D : Type) :=
| Response (data : option D) (error : option js_error)
| Thrown (e : js_error).
Arguments Response {D} data error.
Arguments Thrown {D} e.

(** The [{ data, error }] object every wrapper returns. *)
Record api_result (D : Type) := {
  res_data : option D;
  res_error : option js_error
}.
Arguments res_data {D} _.
Arguments res_error {D} _.

(** A row of [parse_medical_tokens], with the fields the components read. *)
Record parsed_token := {
  original_token : jsstring;
  canonical_feature_id : option jsstring;
  canonical_name : option jsstring;
  is_present : bool;
  value_modifier : option jsstring;
  numeric_value : jsval
}.

(** The [featureDetails] object sent with an upsert into [disease_feature]. *)
Record feature_details := {
  value_text : option jsstring;
  fd_is_present : bool;
  typicality : jsstring;
  weight : N
}.

Class Client := {
  world : Type;
  row : Type;
  rpc_search_features_advanced :
    jsstring -> N -> world -> rpc_outcome (list row) * world;
  rpc_get_disease_stats :
    jsstring -> world -> rpc_outcome (list row) * world;
  rpc_parse_medical_tokens :
    jsstring -> world -> rpc_outcome (list parsed_token) * world;
  upsert_disease_feature :
    jsstring -> jsstring -> feature_details -> world
    -> rpc_outcome row * world
}.

(** [try { const { data, error } = await ...; if (error) throw error;
           return { data: f(data), error: null } }
     catch (error) { return { data: null, error } }] *)
Definition wrap {D D'} (f : option D -> option D') (out : rpc_outcome D)
  : api_result D' :=
  match out with
  | Response d None => {| res_data := f d; res_error := None |}
  | Response _ (Some e) => {| res_data := None; res_error := Some e |}
  | Thrown e => {| res_data := None; res_error := Some e |}
  end.

(** [data?.[0] || null] *)
Definition first_row {D} (data : option (list D)) : option D :=
  match data with
  | Some (r :: _) => Some r
  | _ => None
  end.

(** A call did not succeed: it threw or answered with an error. *)
Definition rpc_failed {D} (out : rpc_outcome D) : bool :=
  match out with
  | Response _ None => false
  | _ => true
  end.

(** No entry of a cache holds an error. *)
Definition error_free {D} (m : gmap jsstring (api_result D)) : Prop :=
  forall k r, m !! k = Some r -> res_error r = None.

End Supabase.

Module Api.
Import JS Supabase.

Definition parseMedicalTokens `{Client} (tokenString : jsstring) (w : world)
  : api_result (list parsed_token) * world :=
  let '(out, w') := rpc_parse_medical_tokens tokenString w in
  (wrap (fun d => d) out, w').

Definition getDiseaseStats `{Client} (diseaseId : jsstring) (w : world)
  : api_result row * world :=
  let '(out, w') := rpc_get_disease_stats diseaseId w in
  (wrap first_row out, w').

Definition addFeatureToDisease `{Client}
  (diseaseId featureId : jsstring) (featureDetails : feature_details)
  (w : world) : api_result row * world :=
  let '(out, w') :=
    upsert_disease_feature diseaseId featureId featureDetails w in
  (wrap (fun d => d) out, w').

(** [quickPeekCache], a [Map] from disease id to result, together with the
    clock: no code of the module reads the clock or schedules anything for
    this cache. *)
Record quick_peek `{Client} := {
  quickPeekCache : gmap jsstring (api_result row);
  qp_clock : N
}.

Definition quick_peek_init `{Client} : quick_peek :=
  {| quickPeekCache := ∅; qp_clock := 0 |}.

Definition getCachedDiseaseStats `{Client} (diseaseId : jsstring)
  (q : quick_peek) (w : world) : api_result row * quick_peek * world :=
  match quickPeekCache q !! diseaseId with
  | Some cached => (cached, q, w)
  | None =>
      let '(result, w') := getDiseaseStats diseaseId w in
      match res_data result with
      | Some _ =>
          (result,
           {| quickPeekCache := <[diseaseId := result]> (quickPeekCache q);
              qp_clock := qp_clock q |},
           w')
      | None => (result, q, w')
      end
  end.

Definition clearQuickPeekCache `{Client} (q : quick_peek) : quick_peek :=
  {| quickPeekCache := ∅; qp_clock := qp_clock q |}.

Inductive qp_op :=
| QpGet (diseaseId : jsstring)
| QpElapse (dt : N)
| QpClear.

Definition qp_step `{Client} (st : quick_peek * world) (o : qp_op)
  : quick_peek * world :=
  let '(q, w) := st in
  match o with
  | QpGet diseaseId =>
      let '(_, q', w') := getCachedDiseaseStats diseaseId q w in (q', w')
  | QpElapse dt =>
      ({| quickPeekCache := quickPeekCache q; qp_clock := qp_clock q + dt |}, w)
  | QpClear => (clearQuickPeekCache q, w)
  end.

Definition qp_run `{Client} (ops : list qp_op) (st : quick_peek * world)
  : quick_peek * world :=
  fold_left qp_step ops st.

Definition is_qp_clear (o : qp_op) : bool :=
  match o with QpClear => true | _ => false end.

End Api.

(** ** [BackendService] of src/Backend/backendConfig.js *)
Module BackendService.
Import JS Supabase.

(** [BACKEND_CONFIG.PERFORMANCE] *)
Definition SEARCH_DEBOUNCE_MS : N := 300.
Definition CACHE_TTL_MS : N := 5 * 60 * 1000.
Definition MAX_SEARCH_RESULTS : N := 10.

(** What the one [Map] of the service holds: the result of a search (an
    array of rows) or of a statistics call (one row). *)
Inductive payload `{Client} :=
| Rows (rows : list row)
| OneRow (r : row).

(** [this.cache], the deletions [setTimeout] has scheduled (due time and
    key), and the clock. *)
Record service `{Client} := {
  cache : gmap jsstring (api_result payload);
  pending : list (N * jsstring);
  clock : N
}.

(** [constructor()] *)
Definition new_service `{Client} : service :=
  {| cache := ∅; pending := []; clock := 0 |}.

(** A number inside a template literal. *)
Definition decimal (n : N) : jsstring :=
  lit (NilEmpty.string_of_uint (N.to_uint n)).

(** [`search:${query}:${limit}`] and [`stats:${diseaseId}`] *)
Definition search_key (query : jsstring) (limit : N) : jsstring :=
  lit "search:" ++ query ++ lit ":" ++ decimal limit.

Definition stats_key (diseaseId : jsstring) : jsstring :=
  lit "stats:" ++ diseaseId.

Definition searchFeatures `{Client} (query : jsstring) (limit : option N)
  (s : service) (w : world) : api_result payload * service * world :=
  let limit := match limit with Some l => l | None => MAX_SEARCH_RESULTS end in
  let cacheKey := search_key query limit in
  match cache s !! cacheKey with
  | Some cached => (cached, s, w)
  | None =>
      let '(out, w') := rpc_search_features_advanced query limit w in
      match out with
      | Response data None =>
          let result :=
            {| res_data := option_map Rows data; res_error := None |} in
          (result,
           {| cache := <[cacheKey := result]> (cache s);
              pending := pending s ++ [(clock s + CACHE_TTL_MS, cacheKey)];
              clock := clock s |},
           w')
      | Response _ (Some e) | Thrown e =>
          ({| res_data := None; res_error := Some e |}, s, w')
      end
  end.

Definition getDiseaseStats `{Client} (diseaseId : jsstring)
  (s : service) (w : world) : api_result payload * service * world :=
  let cacheKey := stats_key diseaseId in
  match cache s !! cacheKey with
  | Some cached => (cached, s, w)
  | None =>
      let '(out, w') := rpc_get_disease_stats diseaseId w in
      match out with
      | Response data None =>
          let result :=
            {| res_data := option_map OneRow (first_row data);
               res_error := None |} in
          (result,
           {| cache := <[cacheKey := result]> (cache s);
              pending := pending s;
              clock := clock s |},
           w')
      | Response _ (Some e) | Thrown e =>
          ({| res_data := None; res_error := Some e |}, s, w')
      end
  end.

Definition clearCache `{Client} (s : service) : service :=
  {| cache := ∅; pending := pending s; clock := clock s |}.

Definition clearCacheByPrefix `{Client} (prefix : jsstring) (s : service)
  : service :=
  {| cache := filter (fun kv => startsWithStr (fst kv) prefix = false)
                (cache s);
     pending := pending s;
     clock := clock s |}.

(** The callback [() => { this.cache.delete(cacheKey) }] of the [n]-th
    scheduled deletion runs, which it does not before it is due. *)
Definition run_timer `{Client} (n : nat) (s : service) : service :=
  match pending s !! n with
  | Some (due, key) =>
      if due <=? clock s then
        {| cache := delete key (cache s);
           pending := take n (pending s) ++ drop (S n) (pending s);
           clock := clock s |}
      else s
  | None => s
  end.

Definition elapse `{Client} (dt : N) (s : service) : service :=
  {| cache := cache s; pending := pending s; clock := clock s + dt |}.

Inductive op :=
| Search (query : jsstring) (limit : option N)
| Stats (diseaseId : jsstring)
| Elapse (dt : N)
| RunTimer (n : nat)
| ClearCache
| ClearCacheByPrefix (prefix : jsstring).

Definition op_step `{Client} (st : service * world) (o : op)
  : service * world :=
  let '(s, w) := st in
  match o with
  | Search query limit =>
      let '(_, s', w') := searchFeatures query limit s w in (s', w')
  | Stats diseaseId =>
      let '(_, s', w') := getDiseaseStats diseaseId s w in (s', w')
  | Elapse dt => (elapse dt s, w)
  | RunTimer n => (run_timer n s, w)
  | ClearCache => (clearCache s, w)
  | ClearCacheByPrefix prefix => (clearCacheByPrefix prefix s, w)
  end.

Definition op_run `{Client} (ops : list op) (st : service * world)
  : service * world :=
  fold_left op_step ops st.

Definition is_clear (o : op) : bool :=
  match o with
  | ClearCache | ClearCacheByPrefix _ => true
  | _ => false
  end.

(** Every scheduled deletion is that of a search key. *)
Definition search_keys_only (l : list (N * jsstring)) : Prop :=
  List.Forall (fun p => startsWithStr (snd p) (lit "search:") = true) l.

End BackendService.

(** ** [useTokenInputWorkflow] of src/hooks/useApi.js *)
Module Workflow.
Import JS Supabase.

(** An element of [processedTokens]: the token spread into the object, then
    [added] and either [addError] or [needsManualCreation]. *)
Record resolved := {
  rt_token : parsed_token;
  added : bool;
  addError : option jsstring;
  needsManualCreation : option bool
}.

(** One call of [addFeatureToDisease] as it left the workflow, and what came
    back.  The log is an observation of the run, not a variable of the
    program. *)
Record attach_call := {
  ac_disease : jsstring;
  ac_feature : jsstring;
  ac_details : feature_details;
  ac_error : option js_error
}.

(** The three [useState] cells of the hook, the world behind the client and
    the log of attach calls. *)
Record wf_state `{Client} := {
  processing : bool;
  results : list resolved;
  error : option js_error;
  wf_world : world;
  attach_log : list attach_call
}.

(** How a call of an [async] function ends. *)
Inductive completion (A : Type) :=
| Normal (a : A)
| Throw (e : js_error).
Arguments Normal {A} a.
Arguments Throw {A} e.

Definition setProcessing `{Client} (b : bool) (st : wf_state) : wf_state :=
  {| processing := b; results := results st; error := error st;
     wf_world := wf_world st; attach_log := attach_log st |}.

Definition setResults `{Client} (r : list resolved) (st : wf_state)
  : wf_state :=
  {| processing := processing st; results := r; error := error st;
     wf_world := wf_world st; attach_log := attach_log st |}.

Definition setError `{Client} (e : option js_error) (st : wf_state)
  : wf_state :=
  {| processing := processing st; results := results st; error := e;
     wf_world := wf_world st; attach_log := attach_log st |}.

(** Truthiness of an optional string: [null], [undefined] and [''] are
    falsy. *)
Definition truthy (v : option jsstring) : option jsstring :=
  match v with
  | Some (c :: s) => Some (c :: s)
  | _ => None
  end.

(** The object literal [featureDetails]; [token.value_modifier || null]. *)
Definition featureDetails (token : parsed_token) : feature_details :=
  {| value_text := truthy (value_modifier token);
     fd_is_present := is_present token;
     typicality := lit "common";
     weight := 1 |}.

(** [await addFeatureToDisease(...)] on the state of the workflow. *)
Definition call_addFeatureToDisease `{Client}
  (diseaseId featureId : jsstring) (details : feature_details)
  (st : wf_state) : api_result row * wf_state :=
  let '(r, w') := Api.addFeatureToDisease diseaseId featureId details
                    (wf_world st) in
  (r,
   {| processing := processing st; results := results st; error := error st;
      wf_world := w';
      attach_log := attach_log st
        ++ [{| ac_disease := diseaseId; ac_feature := featureId;
               ac_details := details; ac_error := res_error r |}] |}).

Definition call_parseMedicalTokens `{Client} (tokenString : jsstring)
  (st : wf_state) : api_result (list parsed_token) * wf_state :=
  let '(r, w') := Api.parseMedicalTokens tokenString (wf_world st) in
  (r,
   {| processing := processing st; results := results st; error := error st;
      wf_world := w'; attach_log := attach_log st |}).

(** The body of [for (const token of parsedTokens || [])]. *)
Definition process_token `{Client} (diseaseId : jsstring)
  (token : parsed_token) (st : wf_state) : resolved * wf_state :=
  match truthy (canonical_feature_id token) with
  | Some featureId =>
      let '(r, st') :=
        call_addFeatureToDisease diseaseId featureId (featureDetails token)
          st in
      ({| rt_token := token;
          added := match res_error r with Some _ => false | None => true end;
          addError := option_map message (res_error r);
          needsManualCreation := None |},
       st')
  | None =>
      ({| rt_token := token; added := false; addError := None;
          needsManualCreation := Some true |},
       st)
  end.

Fixpoint process_tokens `{Client} (diseaseId : jsstring)
  (tokens : list parsed_token) (st : wf_state)
  : list resolved * wf_state :=
  match tokens with
  | [] => ([], st)
  | token :: rest =>
      let '(r, st1) := process_token diseaseId token st in
      let '(rs, st2) := process_tokens diseaseId rest st1 in
      (r :: rs, st2)
  end.

(** The [try] block. *)
Definition try_block `{Client} (diseaseId tokenString : jsstring)
  (st : wf_state) : completion unit * wf_state :=
  let '(r, st1) := call_parseMedicalTokens tokenString st in
  match res_error r with
  | Some parseError => (Throw parseError, st1)
  | None =>
      let parsedTokens :=
        match res_data r with Some l => l | None => [] end in
      let '(processedTokens, st2) :=
        process_tokens diseaseId parsedTokens st1 in
      (Normal tt, setResults processedTokens st2)
  end.

(** [processTokenInput]: the guard, then [try]/[catch]/[finally]. *)
Definition processTokenInput `{Client} (diseaseId : option jsstring)
  (tokenString : jsstring) (st : wf_state) : completion unit * wf_state :=
  match is_empty (trim tokenString), truthy diseaseId with
  | false, Some d =>
      let st0 := setError None (setProcessing true st) in
      let '(c, st1) := try_block d tokenString st0 in
      let '(c', st2) :=
        match c with
        | Normal _ => (Normal tt, st1)
        | Throw err => (Normal tt, setResults [] (setError (Some err) st1))
        end in
      (c', setProcessing false st2)
  | _, _ => (Normal tt, st)
  end.

(** The state of a freshly mounted hook. *)
Definition initial `{Client} (w : world) : wf_state :=
  {| processing := false; results := []; error := None;
     wf_world := w; attach_log := [] |}.

(** The stored value text in the words of the specification, to be compared
    with the [value_text] of [featureDetails]: the directional glyph, or the
    comparison operator followed by the numeric value, rendered as text;
    nothing when the token has no modifier. *)
Definition spec_value_text (token : parsed_token) : option jsstring :=
  match truthy (value_modifier token) with
  | None => None
  | Some vm =>
      match numeric_value token with
      | JNull => Some vm
      | JString digits => Some (vm ++ digits)
      | JNumber n => Some (vm ++ lit (NilEmpty.string_of_int (Z.to_int n)))
      end
  end.

(** The tokens the loop sends to the database. *)
Definition resolvable (token : parsed_token) : bool :=
  match truthy (canonical_feature_id token) with
  | Some _ => true
  | None => false
  end.

(** What the attach call for [token] has to carry. *)
Definition carries (diseaseId : jsstring) (token : parsed_token)
  (call : attach_call) : Prop :=
  ac_disease call = diseaseId
  /\ truthy (canonical_feature_id token) = Some (ac_feature call)
  /\ fd_is_present (ac_details call) = is_present token
  /\ value_text (ac_details call) = truthy (value_modifier token)
  /\ typicality (ac_details call) = lit "common"
  /\ weight (ac_details call) = 1.

(** The world the database is in when the attach calls for the tokens of
    [tokens] that have a canonical feature id have been made one after the
    other, starting in [w]. *)
Definition world_after `{Client} (d : jsstring) (tokens : list parsed_token)
  (w : world) : world :=
  fold_left
    (fun w token =>
       match truthy (canonical_feature_id token) with
       | Some featureId =>
           snd (Api.addFeatureToDisease d featureId (featureDetails token) w)
       | None => w
       end)
    tokens w.

(** The element [r] of the results tells what became of [token] when its
    turn came in world [w]: with a canonical feature id, [added] and
    [addError] are read off the answer of [addFeatureToDisease] in [w];
    without one the token waits for manual creation. *)
Definition evaluated `{Client} (d : jsstring) (w : world)
  (token : parsed_token) (r : resolved) : Prop :=
  rt_token r = token
  /\ match truthy (canonical_feature_id token) with
     | Some featureId =>
         let answer :=
           fst (Api.addFeatureToDisease d featureId (featureDetails token) w)
         in
         added r = match res_error answer with
                   | Some _ => false | None => true end
         /\ addError r = option_map message (res_error answer)
         /\ needsManualCreation r = None
     | None =>
         added r = false /\ addError r = None
         /\ needsManualCreation r = Some true
     end.

(** The entry [c] of the log is the call behind the element [r]. *)
Definition logged (d : jsstring) (r : resolved) (c : attach_call) : Prop :=
  carries d (rt_token r) c
  /\ added r = match ac_error c with Some _ => false | None => true end
  /\ addError r = option_map message (ac_error c).

(** The state in which the [try] block starts. *)
Definition entered `{Client} (st : wf_state) : wf_state :=
  setError None (setProcessing true st).

End Workflow.

(** ** Concrete clients and inputs used by the examples *)
Module Fixtures.
Import JS Supabase.

Definition tok_ferritin : parsed_token :=
  {| original_token := lit "Ferritin" ++ [ch_down];
     canonical_feature_id := Some (lit "f-ferritin");
     canonical_name := Some (lit "Ferritin");
     is_present := true;
     value_modifier := Some [ch_down];
     numeric_value := JNull |}.

Definition tok_dyspnea : parsed_token :=
  {| original_token := lit "+Dyspnea";
     canonical_feature_id := Some (lit "f-dyspnea");
     canonical_name := Some (lit "Dyspnea");
     is_present := true;
     value_modifier := None;
     numeric_value := JNull |}.

Definition tok_mcv : parsed_token :=
  {| original_token := lit "MCV<80";
     canonical_feature_id := Some (lit "f-mcv");
     canonical_name := Some (lit "MCV");
     is_present := true;
     value_modifier := Some (lit "<");
     numeric_value := JNumber 80 |}.

Definition tok_unknown : parsed_token :=
  {| original_token := lit "-Zzz";
     canonical_feature_id := None;
     canonical_name := None;
     is_present := false;
     value_modifier := None;
     numeric_value := JNull |}.

Definition boom : js_error := {| message := lit "boom" |}.

(** A client whose world counts the calls made.  Parsing answers the four
    tokens above (or fails on the input [fail]); the upsert of [f-dyspnea]
    fails, any other succeeds; searches and statistics answer one row, the
    number of the call, except for the term or id [fail]. *)
#[local] Instance counting_client : Client := {|
  world := nat;
  row := nat;
  rpc_search_features_advanced := fun term _ w =>
    if bool_decide (term = lit "fail") then (Thrown boom, S w)
    else (Response (Some [w]) None, S w);
  rpc_get_disease_stats := fun id w =>
    if bool_decide (id = lit "fail") then (Response None (Some boom), S w)
    else (Response (Some [w]) None, S w);
  rpc_parse_medical_tokens := fun s w =>
    if bool_decide (s = lit "fail") then (Response None (Some boom), S w)
    else (Response (Some [tok_ferritin; tok_dyspnea; tok_mcv; tok_unknown])
            None,
          S w);
  upsert_disease_feature := fun _ fid _ w =>
    if bool_decide (fid = lit "f-dyspnea") then (Response None (Some boom), S w)
    else (Response (Some w) None, S w)
|}.

(** A search function for the debounced search: it answers the query
    itself and counts the calls. *)
Definition echo_search (q : jsstring) (w : nat)
  : Debounce.settled jsstring js_error * nat :=
  (Debounce.Resolved q, S w).

(** A freshly mounted hook and a fresh service over the counting client. *)
Definition fresh_hook : @Workflow.wf_state counting_client :=
  @Workflow.initial counting_client 0%nat.

Definition fresh_service
  : @BackendService.service counting_client * @world counting_client :=
  (@BackendService.new_service counting_client, 0%nat).

(** The quick-peek cache after the statistics of [d1] have been fetched at
    time 0, as call number 0. *)
Definition stored_peek : @Api.quick_peek counting_client :=
  {| Api.quickPeekCache :=
       {[ lit "d1" := {| res_data := Some (0%nat : @row counting_client);
                          res_error := None |} ]};
     Api.qp_clock := 0 |}.

End Fixtures.

(** ** Fragments and words of the tokenizer *)
Module Fragments.
Import JS Tokenizer.

(** The elements of a list of fragments on which the loop of
    [parseTokensClient] does not [continue]. *)
Definition nonempties (l : list jsstring) : list jsstring :=
  List.filter (fun f => negb (is_empty f)) l.

(** The fragments [parseTokensClient] turns into tokens. *)
Definition words (s : jsstring) : list jsstring :=
  nonempties (split_ws (trim s)).

(** [parts.join(' ')] *)
Fixpoint join_space (parts : list jsstring) : jsstring :=
  match parts with
  | [] => []
  | [p] => p
  | p :: rest => p ++ 32 :: join_space rest
  end.

(** The text of the modifier of a token as it stood in the fragment: the
    glyph, or the operator followed by the digits. *)
Definition modifier_text (t : token) : jsstring :=
  match valueModifier t, numericValue t with
  | JString m, JString ds => m ++ ds
  | JString m, _ => m
  | _, _ => []
  end.

(** The sign in front of a fragment: its first character, when that is [+]
    or [-]. *)
Definition sign_of (f : jsstring) : jsstring :=
  match f with
  | c :: _ => if (c =? ch_plus) || (c =? ch_minus) then [c] else []
  | [] => []
  end.

(** The directional glyph at the end of a fragment. *)
Definition glyph_of (f : jsstring) : jsstring :=
  if endsWith f ch_up then [ch_up]
  else if endsWith f ch_down then [ch_down]
  else [].

(** The glyph of the fragment that the token does not show: the one a
    comparison has overridden. *)
Definition overridden_glyph (t : token) : jsstring :=
  if comparison t then glyph_of (original t) else [].

End Fragments.

(** ** Bookkeeping of the debounced search *)
Module DebounceMore.
Import Debounce.

(** What the machine keeps about the calls that have run: a scheduled call
    has not run yet, a call runs once, and a promise is settled once, after
    its search has run and has left the searches in flight. *)
Definition orderly {A R E W} (s : state A R E W) : Prop :=
  (forall i, In i (timer_ids (timers s)) -> ~ In i (ids (reached s)))
  /\ List.NoDup (ids (reached s))
  /\ (forall i, In i (ids (inflight s)) -> In i (ids (reached s)))
  /\ (forall i, In i (ids (delivered s)) ->
                In i (ids (reached s)) /\ ~ In i (ids (inflight s)))
  /\ List.NoDup (ids (delivered s)).

(** The number of calls of the debounced function among the events. *)
Fixpoint calls {A} (evs : list (event A)) : nat :=
  match evs with
  | [] => O
  | Call _ :: r => S (calls r)
  | _ :: r => calls r
  end.

End DebounceMore.

(** ** More of [BackendService]: lookups, change notifications, keys *)
Module BackendServiceMore.
Import JS Supabase BackendService.

(** The operations that look something up or let time pass: no clearing, no
    scheduled deletion. *)
Definition is_lookup (o : op) : bool :=
  match o with
  | Search _ _ | Stats _ | Elapse _ => true
  | _ => false
  end.

(** What the handler that [subscribeToChanges(table, callback)] registers
    does to the cache before it calls [callback]:
    [this.clearCacheByPrefix(table)]. *)
Definition on_postgres_change `{Client} (table : jsstring) (s : service)
  : service :=
  clearCacheByPrefix table s.

(** The letter [s], with which both kinds of cache key begin. *)
Definition ch_s : code_unit := 115.

(** Every key of the cache is a search key or a statistics key. *)
Definition keys_tagged `{Client} (s : service) : Prop :=
  forall k, is_Some (cache s !! k) ->
            startsWithStr k (lit "search:") = true
            \/ startsWithStr k (lit "stats:") = true.

End BackendServiceMore.

(** ** [useTokenParser], [useQuickPeek] (src/hooks/useApi.js) and
       [handleSubmit] of src/components/TokenInput.jsx *)
Module Hooks.
Import JS Supabase Workflow.

(** The two [useState] cells of [useTokenParser]. *)
Record parser_state := {
  parsing : bool;
  parser_error : option js_error
}.

(** The [try] block of [parseTokens]: [data || []], or the error thrown. *)
Definition parse_try `{Client} (tokenString : jsstring) (w : world)
  : completion (list parsed_token) * world :=
  let '(r, w') := Api.parseMedicalTokens tokenString w in
  match res_error r with
  | Some e => (Throw e, w')
  | None =>
      (Normal match res_data r with Some l => l | None => [] end, w')
  end.

(** [parseTokens] of [useTokenParser]: what it returns is an array in every
    case. *)
Definition parseTokens `{Client} (tokenString : jsstring)
  (st : parser_state) (w : world)
  : list parsed_token * parser_state * world :=
  if is_empty (trim tokenString) then ([], st, w)
  else
    (* setParsing(true); setError(null) *)
    let '(c, w') := parse_try tokenString w in
    match c with
    | Normal tokens =>
        (* finally: setParsing(false) *)
        (tokens, {| parsing := false; parser_error := None |}, w')
    | Throw err =>
        (* catch: setError(err); return []; finally: setParsing(false) *)
        ([], {| parsing := false; parser_error := Some err |}, w')
    end.

(** Reading [data] and [error] off an array, as
    [const { data: tokens, error } = await parseTokens(...)] does: an array
    has neither property, so both names are bound to [undefined]. *)
Definition array_data (value : list parsed_token)
  : option (list parsed_token) := None.

Definition array_error (value : list parsed_token) : option js_error := None.

Inductive toast :=
| ToastError (text : jsstring)
| ToastSuccess (text : jsstring).

(** The cells of [TokenInput] that [handleSubmit] writes, the toasts shown
    and the token lists handed to [onTokensAdded]. *)
Record input_state := {
  input : jsstring;
  processedTokens : list parsed_token;
  isProcessing : bool;
  toasts : list toast;
  tokens_added : list (list parsed_token)
}.

(** [tokens?.filter(t => t.canonical_feature_id) || []] *)
Definition successful (tokens : option (list parsed_token))
  : list parsed_token :=
  match tokens with
  | Some l =>
      List.filter
        (fun t => match truthy (canonical_feature_id t) with
                  | Some _ => true
                  | None => false
                  end) l
  | None => []
  end.

Definition handleSubmit `{Client} (diseaseId : option jsstring)
  (onTokensAdded : bool) (ui : input_state) (ps : parser_state) (w : world)
  : input_state * parser_state * world :=
  match is_empty (trim (input ui)), truthy diseaseId with
  | false, Some _ =>
      (* setIsProcessing(true); then the try block *)
      let '(value, ps', w') := parseTokens (trim (input ui)) ps w in
      let tokens := array_data value in
      match array_error value with
      | Some e =>
          (* toast.error(...); return; finally: setIsProcessing(false) *)
          ({| input := input ui; processedTokens := processedTokens ui;
              isProcessing := false;
              toasts := toasts ui
                        ++ [ToastError (lit "Error parsing tokens: "
                                        ++ message e)];
              tokens_added := tokens_added ui |}, ps', w')
      | None =>
          let shown := match tokens with Some l => l | None => [] end in
          let successfulTokens := successful tokens in
          if negb (Nat.eqb (List.length successfulTokens) 0) && onTokensAdded
          then
            ({| input := []; processedTokens := []; isProcessing := false;
                toasts := toasts ui
                          ++ [ToastSuccess
                                (lit "Added "
                                 ++ BackendService.decimal
                                      (N.of_nat (List.length successfulTokens))
                                 ++ lit " features")];
                tokens_added := tokens_added ui ++ [successfulTokens] |},
             ps', w')
          else
            ({| input := input ui; processedTokens := shown;
                isProcessing := false; toasts := toasts ui;
                tokens_added := tokens_added ui |}, ps', w')
      end
  | _, _ => (ui, ps, w)
  end.

(** The four cells of [useQuickPeek]. *)
Record peek_state `{Client} := {
  peekData : option row;
  peek_loading : bool;
  peek_error : option js_error;
  visible : bool
}.

Definition showPeek `{Client} (diseaseId : option jsstring)
  (st : peek_state) (q : Api.quick_peek) (w : world)
  : peek_state * Api.quick_peek * world :=
  match truthy diseaseId with
  | None => (st, q, w)
  | Some d =>
      (* setLoading(true); setError(null); setVisible(true) *)
      let '(r, q', w') := Api.getCachedDiseaseStats d q w in
      match res_error r with
      | Some err =>
          (* throw error; catch: setError(err); setPeekData(null) *)
          ({| peekData := None; peek_loading := false;
              peek_error := Some err; visible := true |}, q', w')
      | None =>
          ({| peekData := res_data r; peek_loading := false;
              peek_error := None; visible := true |}, q', w')
      end
  end.

Definition hidePeek `{Client} (st : peek_state) : peek_state :=
  {| peekData := None; peek_loading := peek_loading st;
     peek_error := None; visible := false |}.

End Hooks.

(** ** [canonicalizeFeature] (src/Backend/api.js) and
       [useFeatureCanonicalization] (src/hooks/useApi.js) *)
Module Canonicalization.
Import JS Supabase Workflow.

(** The remote procedure [canonicalize_feature], beside those of [Client]. *)
Class CanonClient `{Client} := {
  rpc_canonicalize_feature :
    jsstring -> world -> rpc_outcome (list row) * world
}.

Definition canonicalizeFeature `{CanonClient} (inputText : jsstring)
  (w : world) : api_result row * world :=
  let '(out, w') := rpc_canonicalize_feature inputText w in
  (wrap first_row out, w').

(** The two [useState] cells of [useFeatureCanonicalization]. *)
Record canon_state := {
  canonicalizing : bool;
  canon_error : option js_error
}.

Definition canonicalize `{CanonClient} (inputText : jsstring)
  (st : canon_state) (w : world) : option row * canon_state * world :=
  if is_empty (trim inputText) then (None, st, w)
  else
    (* setCanonicalizing(true); setError(null) *)
    let '(r, w') := canonicalizeFeature inputText w in
    match res_error r with
    | Some err =>
        (* throw error; catch: setError(err); return null *)
        (None, {| canonicalizing := false; canon_error := Some err |}, w')
    | None =>
        (res_data r, {| canonicalizing := false; canon_error := None |}, w')
    end.

End Canonicalization.

(** ** [formatDataForSheets] of src/Backend/api.js *)
Module Sheets.
Import JS.

(** An element of [feature.disease_data]. *)
Record disease_datum := {
  dd_disease_id : jsstring;
  dd_is_present : bool;
  dd_value_text : option jsstring;
  dd_typicality : jsstring;
  dd_weight : N;
  dd_is_pathognomonic : bool
}.

(** A row of the comparison. *)
Record feature := {
  feature_name : jsstring;
  feature_type : jsstring;
  is_shared : bool;
  has_conflicts : bool;
  disease_data : list disease_datum
}.

Record disease := {
  disease_id : jsstring;
  disease_name : jsstring
}.

(** [const diseaseMap = new Map();
     feature.disease_data.forEach(dd => diseaseMap.set(dd.disease_id, dd))]:
    a later element replaces an earlier one with the same id. *)
Definition diseaseMap (data : list disease_datum)
  : gmap jsstring disease_datum :=
  fold_left (fun m dd => <[dd_disease_id dd := dd]> m) data ∅.

(** The text of a cell for a disease that has data. *)
Definition cell_text (dd : disease_datum) : jsstring :=
  (if dd_is_present dd then lit "+" else lit "-")
  ++ match dd_value_text dd with
     | Some (c :: v) => c :: v
     | _ => []
     end
  ++ lit " (" ++ dd_typicality dd ++ lit ", wt:"
  ++ BackendService.decimal (dd_weight dd) ++ lit ")"
  ++ (if dd_is_pathognomonic dd then lit " [PATHOGNOMONIC]" else []).

Definition cell (f : feature) (d : disease) : jsstring :=
  match diseaseMap (disease_data f) !! disease_id d with
  | Some dd => cell_text dd
  | None => lit "-"
  end.

Definition category (f : feature) : jsstring :=
  if is_shared f then lit "Shared"
  else if has_conflicts f then lit "Conflict"
  else lit "Difference".

Definition formatDataForSheets (comparisonData : list feature)
  (diseases : list disease) : list (list jsstring) :=
  let headers :=
    [lit "Feature"; lit "Type"; lit "Category"] ++ map disease_name diseases in
  headers
  :: map (fun f =>
            [feature_name f; feature_type f; category f]
            ++ map (cell f) diseases)
       comparisonData.

End Sheets.

(** ** [getCurrentWord] of src/components/TokenInput.jsx *)
Module CurrentWord.
Import JS.

Record current_word := {
  cw_word : jsstring;
  cw_index : nat;
  startPos : nat;
  endPos : nat
}.

(** [w.replace(/^[+-]/, '')] *)
Definition strip_one_sign (w : jsstring) : jsstring :=
  match w with
  | c :: r => if (c =? ch_plus) || (c =? ch_minus) then r else w
  | [] => []
  end.

(** The loop [for (let i = 0; i < words.length; i++)], from the word [i]
    that starts at [currentPos]. *)
Fixpoint word_from (words : list jsstring) (i currentPos cursorPos : nat)
  : option current_word :=
  match words with
  | [] => None
  | w :: rest =>
      let wordEnd := (currentPos + List.length w)%nat in
      if (cursorPos <=? wordEnd)%nat then
        Some {| cw_word := strip_one_sign w; cw_index := i;
                startPos := currentPos; endPos := wordEnd |}
      else word_from rest (S i) (wordEnd + 1)%nat cursorPos
  end.

(** [getCurrentWord], with the value of the input and the position of the
    cursor ([selectionStart || 0]) as arguments. *)
Definition getCurrentWord (input : jsstring) (cursorPos : nat)
  : current_word :=
  let words := split_ws input in
  match word_from words 0 0 cursorPos with
  | Some found => found
  | None =>
      {| cw_word := []; cw_index := List.length words;
         startPos := List.length input; endPos := List.length input |}
  end.

(** [input.slice(start, end)] for positions inside the input. *)
Definition slice (s : jsstring) (first last : nat) : jsstring :=
  firstn (last - first) (skipn first s).

(** A word as [split] yields it between two runs of white space. *)
Definition proper (f : jsstring) : Prop := f <> [] /\ ws_free f.

(** The position at which the word of index [j] begins when the words of
    [l] are separated by single characters: every earlier word and the
    character after it lie before. *)
Definition offset (l : list jsstring) (j : nat) : nat :=
  sum_list (map (fun w => S (List.length w)) (take j l)).

End CurrentWord.

(** ** More concrete clients and inputs *)
Module FixturesMore.
Import JS Supabase Fixtures.

(** A client whose statistics call succeeds without a row. *)
#[local] Instance rowless_client : Client := {|
  world := nat;
  row := nat;
  rpc_search_features_advanced := fun _ _ w => (Response (Some [w]) None, S w);
  rpc_get_disease_stats := fun _ w => (Response (Some []) None, S w);
  rpc_parse_medical_tokens := fun _ w => (Response None None, S w);
  upsert_disease_feature := fun _ _ _ w => (Response (Some w) None, S w)
|}.

(** Canonicalization over the counting client: [Dyspnea] is known, [fail]
    fails, anything else has no match. *)
Definition canon_client : @Canonicalization.CanonClient counting_client :=
  @Canonicalization.Build_CanonClient counting_client
    ((fun text w =>
        if bool_decide (text = lit "fail") then (Thrown boom, S w)
        else if bool_decide (text = lit "Dyspnea")
             then (Response (Some [w]) None, S w)
             else (Response (Some []) None, S w))
     : jsstring -> nat -> rpc_outcome (list nat) * nat).

(** The debounced search after a first call whose timer has run: its search
    is in flight. *)
Definition search_in_flight
  : Debounce.state jsstring jsstring js_error nat :=
  Debounce.run echo_search 300
    [Debounce.Call (lit "a"); Debounce.Wait 300; Debounce.Fire 0]
    (Debounce.createDebouncedSearch 0%nat).

(** The service after a search whose entry was cleared and whose deletion
    is due. *)
Definition cleared_service
  : @BackendService.service counting_client * @world counting_client :=
  BackendService.op_run
    [BackendService.Search (lit "dys") None; BackendService.ClearCache;
     BackendService.Elapse BackendService.CACHE_TTL_MS]
    fresh_service.

Definition datum (id : string) (present : bool) : Sheets.disease_datum :=
  {| Sheets.dd_disease_id := lit id; Sheets.dd_is_present := present;
     Sheets.dd_value_text := None; Sheets.dd_typicality := lit "common";
     Sheets.dd_weight := 1; Sheets.dd_is_pathognomonic := false |}.

(** A feature with two data for the disease [d1] and one for [d2]. *)
Definition fever : Sheets.feature :=
  {| Sheets.feature_name := lit "Fever"; Sheets.feature_type := lit "sign";
     Sheets.is_shared := false; Sheets.has_conflicts := true;
     Sheets.disease_data := [datum "d1" true; datum "d2" true;
                             datum "d1" false] |}.

Definition a_token_input : Hooks.input_state :=
  {| Hooks.input := lit " +Dyspnea MCV<80 "; Hooks.processedTokens := [];
     Hooks.isProcessing := false; Hooks.toasts := [];
     Hooks.tokens_added := [] |}.

Definition idle_parser : Hooks.parser_state :=
  {| Hooks.parsing := false; Hooks.parser_error := None |}.

Definition hidden_peek : @Hooks.peek_state counting_client :=
  {| Hooks.peekData := None; Hooks.peek_loading := false;
     Hooks.peek_error := None; Hooks.visible := false |}.

Definition idle_canon : Canonicalization.canon_state :=
  {| Canonicalization.canonicalizing := false;
     Canonicalization.canon_error := None |}.

End FixturesMore.

(** * Part II: theorems *)

(** ** The tokenizer *)
Section TokenizerFacts.
Import JS Tokenizer.

Lemma trimStart_ws_free s : ws_free s -> trimStart s = s.
Proof.
  destruct s as [|c r]; [reflexivity|].
  intros H. inversion H as [|? ? Hc _]; subst. simpl. now rewrite Hc.
Qed.

Lemma ws_free_rev s : ws_free s -> ws_free (rev s).
Proof.
  unfold ws_free. rewrite !List.Forall_forall. intros H c Hc. apply H.
  now apply in_rev.
Qed.

Lemma trim_ws_free s : ws_free s -> trim s = s.
Proof.
  intros H. unfold trim, trimEnd.
  rewrite (trimStart_ws_free s H).
  rewrite (trimStart_ws_free (rev s) (ws_free_rev s H)).
  apply rev_involutive.
Qed.

Lemma split_ws_ws_free s : ws_free s -> split_ws_from false s = [s].
Proof.
  induction s as [|c r IH]; intros H; [reflexivity|].
  inversion H as [|? ? Hc Hr]; subst. simpl. rewrite Hc, (IH Hr). reflexivity.
Qed.

Lemma split_ws_from_fragments b s :
  List.Forall ws_free (split_ws_from b s).
Proof.
  revert b. induction s as [|c r IH]; intros b; simpl.
  - repeat constructor.
  - destruct (is_space c) eqn:Hc.
    + destruct b; [apply IH|]. constructor; [constructor | apply IH].
    + specialize (IH false). destruct (split_ws_from false r) as [|f fs].
      * repeat constructor. exact Hc.
      * inversion IH; subst. constructor; [|assumption].
        constructor; assumption.
Qed.

Lemma parse_loop_In t l :
  In t (parse_loop l) <-> exists f, In f l /\ f <> [] /\ t = parse_fragment f.
Proof.
  induction l as [|f l IH]; simpl.
  - split; [tauto | intros (f & [] & _)].
  - destruct f as [|c f]; simpl.
    + rewrite IH. split.
      * intros (g & Hg & Hne & ->). exists g. auto.
      * intros (g & [<- | Hg] & Hne & ->); [congruence | eauto].
    + rewrite IH. split.
      * intros [<- | (g & Hg & Hne & ->)].
        -- exists (c :: f). repeat split; auto; discriminate.
        -- exists g. auto.
      * intros (g & [<- | Hg] & Hne & ->); [left; reflexivity | right; eauto].
Qed.

(** Every token comes from a fragment that is not empty and holds no white
    space. *)
Lemma parseTokensClient_In input t :
  In t (parseTokensClient input) ->
  exists f, f <> [] /\ ws_free f /\ t = parse_fragment f.
Proof.
  unfold parseTokensClient, split_ws. rewrite parse_loop_In.
  intros (f & Hin & Hne & ->). exists f. repeat split; auto.
  pose proof (split_ws_from_fragments false (trim input)) as H.
  rewrite List.Forall_forall in H. now apply H.
Qed.

Lemma parseTokensClient_fragment f :
  f <> [] -> ws_free f -> parseTokensClient f = [parse_fragment f].
Proof.
  intros Hne Hws. unfold parseTokensClient, split_ws.
  rewrite (trim_ws_free f Hws), (split_ws_ws_free f Hws).
  destruct f; [congruence | reflexivity].
Qed.

Lemma original_parse_fragment f : original (parse_fragment f) = f.
Proof.
  unfold parse_fragment.
  destruct (strip_sign f) as [p s1], (strip_arrow s1) as [vm s2].
  destruct (comparison_match s2) as [[[w op] ds]|]; reflexivity.
Qed.

Lemma match_op_digits_spec s op ds :
  match_op_digits s = Some (op, ds) ->
  s = op ++ ds /\ is_operator op = true /\ all_digits ds = true.
Proof.
  unfold match_op_digits.
  destruct s as [|c r]; [discriminate|].
  destruct ((c =? ch_lt) || (c =? ch_gt)) eqn:Hc; [|discriminate].
  assert (Hop : c = ch_lt \/ c = ch_gt).
  { apply orb_true_iff in Hc. destruct Hc as [H|H]; apply N.eqb_eq in H; auto. }
  destruct r as [|e r']; [discriminate|].
  destruct ((e =? ch_eq) && all_digits r') eqn:He.
  - intros [= <- <-]. apply andb_true_iff in He. destruct He as [He Hd].
    apply N.eqb_eq in He. subst e.
    repeat split; auto. destruct Hop; subst c; reflexivity.
  - destruct (all_digits (e :: r')) eqn:Hd; [|discriminate].
    intros [= <- <-]. repeat split; auto. destruct Hop; subst c; reflexivity.
Qed.

Lemma lazy_word_unfold s :
  lazy_word s =
  match match_op_digits s with
  | Some (op, ds) => Some ([], op, ds)
  | None =>
      match s with
      | c :: r =>
          if is_line_terminator c then None
          else match lazy_word r with
               | Some (w, op, ds) => Some (c :: w, op, ds)
               | None => None
               end
      | [] => None
      end
  end.
Proof. destruct s; reflexivity. Qed.

Lemma lazy_word_spec s w op ds :
  lazy_word s = Some (w, op, ds) ->
  s = w ++ op ++ ds /\ is_operator op = true /\ all_digits ds = true.
Proof.
  revert w. induction s as [|c r IH]; intros w; rewrite lazy_word_unfold.
  - discriminate.
  - destruct (match_op_digits (c :: r)) as [[op' ds']|] eqn:Hm.
    + intros [= <- <- <-]. simpl. now apply match_op_digits_spec.
    + destruct (is_line_terminator c); [discriminate|].
      destruct (lazy_word r) as [[[w' op'] ds']|]; [|discriminate].
      intros [= <- <- <-]. destruct (IH w' eq_refl) as (-> & Ho & Hd).
      repeat split; auto.
Qed.

Lemma comparison_match_spec s w op ds :
  comparison_match s = Some (w, op, ds) ->
  s = w ++ op ++ ds /\ w <> [] /\ is_operator op = true /\ all_digits ds = true.
Proof.
  unfold comparison_match. destruct s as [|c r]; [discriminate|].
  destruct (is_line_terminator c); [discriminate|].
  destruct (lazy_word r) as [[[w' op'] ds']|] eqn:Hl; [|discriminate].
  intros [= <- <- <-]. destruct (lazy_word_spec _ _ _ _ Hl) as (-> & Ho & Hd).
  repeat split; auto; discriminate.
Qed.

Lemma endsWith_snoc body g c : endsWith (body ++ [g]) c = (g =? c).
Proof. unfold endsWith. now rewrite rev_app_distr. Qed.

Lemma endsWith_inv s c : endsWith s c = true -> exists body, s = body ++ [c].
Proof.
  unfold endsWith. destruct (rev s) as [|x r] eqn:Hr; [discriminate|].
  intros H. apply N.eqb_eq in H. subst x. exists (rev r).
  rewrite <- (rev_involutive s), Hr. reflexivity.
Qed.

Lemma strip_arrow_snoc body g :
  g = ch_up \/ g = ch_down -> strip_arrow (body ++ [g]) = (JString [g], body).
Proof.
  intros Hg. unfold strip_arrow, slice_to_last.
  rewrite !endsWith_snoc, removelast_last.
  destruct Hg; subst g; reflexivity.
Qed.

Lemma strip_arrow_cases s :
  (exists g, (g = ch_up \/ g = ch_down) /\ s = snd (strip_arrow s) ++ [g]
             /\ fst (strip_arrow s) = JString [g])
  \/ (strip_arrow s = (JNull, s) /\ endsWith s ch_up = false
      /\ endsWith s ch_down = false).
Proof.
  unfold strip_arrow.
  destruct (endsWith s ch_up) eqn:Hu.
  - left. exists ch_up. destruct (endsWith_inv _ _ Hu) as [b ->].
    unfold slice_to_last. rewrite removelast_last. auto.
  - destruct (endsWith s ch_down) eqn:Hd.
    + left. exists ch_down. destruct (endsWith_inv _ _ Hd) as [b ->].
      unfold slice_to_last. rewrite removelast_last. auto.
    + right. auto.
Qed.

Lemma strip_sign_cases f :
  (exists c r, (c = ch_plus \/ c = ch_minus) /\ f = c :: r
               /\ snd (strip_sign f) = r)
  \/ (strip_sign f = (true, f) /\ startsWith f ch_plus = false
      /\ startsWith f ch_minus = false).
Proof.
  unfold strip_sign. destruct f as [|c r]; [right; auto|]. simpl.
  destruct (c =? ch_plus) eqn:Hp.
  - left. apply N.eqb_eq in Hp. exists c, r. auto.
  - destruct (c =? ch_minus) eqn:Hm.
    + left. apply N.eqb_eq in Hm. exists c, r. auto.
    + right. auto.
Qed.


Lemma cleanToken_empty_iff f :
  f <> [] -> (cleanToken (parse_fragment f) = [] <-> In f bare_markers).
Proof.
  intros Hne. split.
  - unfold parse_fragment.
    destruct (strip_sign f) as [p s1] eqn:Hs.
    destruct (strip_arrow s1) as [vm s2] eqn:Ha.
    destruct (comparison_match s2) as [[[w op] ds]|] eqn:Hc; simpl.
    + intros ->. apply comparison_match_spec in Hc. tauto.
    + intros ->.
      assert (Hs1 : s1 = [] \/ s1 = [ch_up] \/ s1 = [ch_down]).
      { destruct (strip_arrow_cases s1) as [(g & Hg & Hs1 & _) | (Hn & _)];
          rewrite Ha in *; simpl in *.
        - subst s1. destruct Hg; subst g; auto.
        - injection Hn as _ <-. auto. }
      destruct (strip_sign_cases f) as [(c & r & Hcs & -> & Hr) | (Hn & _)];
        rewrite Hs in *; simpl in *.
      * subst r. unfold bare_markers.
        destruct Hcs; subst c; destruct Hs1 as [-> | [-> | ->]];
          simpl; auto 10.
      * injection Hn as _ <-. unfold bare_markers.
        destruct Hs1 as [-> | [-> | ->]]; simpl; auto 10; congruence.
  - unfold bare_markers. simpl.
    intros [<- | [<- | [<- | [<- | [<- | [<- | [<- | [<- | []]]]]]]]];
      reflexivity.
Qed.

Lemma ws_free_app_l (a b : jsstring) : ws_free (a ++ b) -> ws_free a.
Proof. unfold ws_free. rewrite List.Forall_app. tauto. Qed.

Lemma cleanToken_ws_free f :
  ws_free f -> ws_free (cleanToken (parse_fragment f)).
Proof.
  intros Hf. unfold parse_fragment.
  destruct (strip_sign f) as [p s1] eqn:Hs.
  destruct (strip_arrow s1) as [vm s2] eqn:Ha.
  assert (H1 : ws_free s1).
  { destruct (strip_sign_cases f) as [(c & r & _ & -> & Hr) | (Hn & _)];
      rewrite Hs in *; simpl in *.
    - subst r. now inversion Hf.
    - now injection Hn as _ <-. }
  assert (H2 : ws_free s2).
  { destruct (strip_arrow_cases s1) as [(g & _ & Hs1 & _) | (Hn & _)];
      rewrite Ha in *; simpl in *.
    - rewrite Hs1 in H1. now apply ws_free_app_l in H1.
    - now injection Hn as _ <-. }
  destruct (comparison_match s2) as [[[w op] ds]|] eqn:Hc; simpl; [|exact H2].
  apply comparison_match_spec in Hc. destruct Hc as (-> & _).
  now apply ws_free_app_l in H2.
Qed.

Lemma stable_parse_fragment c :
  stable c = true ->
  parse_fragment c =
  {| original := c; cleanToken := c; isPresent := true;
     valueModifier := JNull; numericValue := JNull |}.
Proof.
  unfold stable. rewrite !andb_true_iff, !negb_true_iff.
  intros (((((_ & Hp) & Hm) & Hu) & Hd) & Hc).
  unfold parse_fragment, strip_sign, strip_arrow.
  rewrite Hp, Hm, Hu, Hd.
  destruct (comparison_match c); [discriminate | reflexivity].
Qed.

Lemma parse_fragment_fixed c :
  c <> [] ->
  cleanToken (parse_fragment c) = c ->
  valueModifier (parse_fragment c) = JNull ->
  stable c = true.
Proof.
  intros Hne Hclean Hvm. unfold parse_fragment in *.
  destruct (strip_sign c) as [p s1] eqn:Hs.
  destruct (strip_arrow s1) as [vm s2] eqn:Ha.
  destruct (comparison_match s2) as [[[w op] ds]|] eqn:Hc; simpl in *;
    [discriminate|].
  subst vm s2.
  destruct (strip_arrow_cases s1) as [(g & _ & _ & Hg) | (_ & Hu & Hd)];
    [rewrite Ha in Hg; discriminate|].
  assert (s1 = c) as ->.
  { destruct (strip_arrow_cases s1) as [(g & _ & _ & Hg) | (Hn & _)];
      [rewrite Ha in Hg; discriminate|].
    rewrite Ha in Hn. now injection Hn. }
  destruct (strip_sign_cases c) as [(x & r & _ & Hx & Hr) | (_ & Hp & Hm)].
  - rewrite Hs in Hr. simpl in Hr. subst r.
    apply (f_equal (@List.length _)) in Hx. simpl in Hx. lia.
  - unfold stable. rewrite Hp, Hm, Hu, Hd, Hc.
    destruct c; [congruence | reflexivity].
Qed.

(** Claim C2, in the form that holds of the code.  For a token of any
    input, tokenizing its clean text alone gives exactly one token with the
    same clean text, no modifier and no numeric value if and only if the
    clean text is stable: not empty, no sign in front, no directional glyph
    at the end, and not of the form word, operator, digits. *)
Theorem C2_retokenize_stable_clean_text input t :
  In t (parseTokensClient input) ->
  (retokenizes_to_itself (cleanToken t) <-> stable (cleanToken t) = true).
Proof.
  intros Hin.
  destruct (parseTokensClient_In _ _ Hin) as (f & Hne & Hws & ->).
  pose proof (cleanToken_ws_free f Hws) as Hc.
  set (c := cleanToken (parse_fragment f)) in *.
  split.
  - intros (t' & Hp & Hclean & Hvm & _).
    assert (Hcne : c <> []).
    { intros E. rewrite E in Hp. discriminate Hp. }
    rewrite (parseTokensClient_fragment c Hcne Hc) in Hp.
    injection Hp as <-. now apply parse_fragment_fixed.
  - intros Hst. exists (parse_fragment c).
    assert (Hcne : c <> []).
    { intros E. rewrite E in Hst. discriminate Hst. }
    rewrite (parseTokensClient_fragment c Hcne Hc).
    rewrite (stable_parse_fragment c Hst). auto.
Qed.

Lemma C2_witness :
  In (parse_fragment (lit "+Dyspnea"))
     (parseTokensClient (lit "+Dyspnea -Murmur"))
  /\ (retokenizes_to_itself (lit "Dyspnea") <-> stable (lit "Dyspnea") = true).
Proof.
  split.
  - left. reflexivity.
  - apply (C2_retokenize_stable_clean_text (lit "+Dyspnea -Murmur")
             (parse_fragment (lit "+Dyspnea"))).
    left. reflexivity.
Defined.

Lemma C2_counterexample :
  exists t, In t (parseTokensClient (lit "++a"))
            /\ ~ retokenizes_to_itself (cleanToken t).
Proof.
  exists (parse_fragment (lit "++a")). split; [left; reflexivity|].
  intros (t' & Hp & Hclean & _).
  vm_compute in Hp. injection Hp as <-. vm_compute in Hclean. discriminate.
Qed.

(** Claim C8, in the form that holds of the code.  Every token comes from
    a fragment that is not empty, and its clean text is empty exactly when
    the fragment is a sign, a directional glyph, or a sign followed by a
    directional glyph. *)
Theorem C8_clean_text_empty_only_for_bare_markers input t :
  In t (parseTokensClient input) ->
  original t <> []
  /\ (cleanToken t = [] <-> In (original t) bare_markers).
Proof.
  intros Hin.
  destruct (parseTokensClient_In _ _ Hin) as (f & Hne & _ & ->).
  rewrite original_parse_fragment. split; [exact Hne|].
  now apply cleanToken_empty_iff.
Qed.

Lemma C8_witness :
  In (parse_fragment (lit "-Murmur")) (parseTokensClient (lit "+ -Murmur"))
  /\ original (parse_fragment (lit "-Murmur")) <> []
  /\ (cleanToken (parse_fragment (lit "-Murmur")) = []
      <-> In (original (parse_fragment (lit "-Murmur"))) bare_markers).
Proof.
  split.
  - right. left. reflexivity.
  - apply (C8_clean_text_empty_only_for_bare_markers (lit "+ -Murmur")).
    right. left. reflexivity.
Defined.

Lemma C8_counterexample :
  exists t, In t (parseTokensClient (lit "+"))
            /\ original t = lit "+" /\ cleanToken t = [].
Proof.
  exists (parse_fragment (lit "+")). split; [left; reflexivity|].
  split; reflexivity.
Qed.

(** Claim C3, in the form that holds of the code.  Every token has exactly
    one of the three shapes: no modifier, a directional glyph alone, a
    comparison operator with a digit run.  When the remainder after the sign
    ends in a directional glyph, one glyph is stripped and the comparison
    match is still attempted on what is left: if it fails, the modifier is
    the glyph and the clean text is the remainder without it; if it
    succeeds, the clean text is the word, the modifier the operator and the
    numeric value the digit run. *)
Theorem C3_comparison_overrides_directional_suffix input t :
  In t (parseTokensClient input) ->
  exactly_one [no_modifier t; directional t; comparison t] = true
  /\ forall body g,
       snd (strip_sign (original t)) = body ++ [g] ->
       g = ch_up \/ g = ch_down ->
       match comparison_match body with
       | Some (w, op, ds) =>
           cleanToken t = w /\ valueModifier t = JString op
           /\ numericValue t = JString ds
       | None =>
           cleanToken t = body /\ valueModifier t = JString [g]
           /\ numericValue t = JNull
       end.
Proof.
  intros Hin.
  destruct (parseTokensClient_In _ _ Hin) as (f & _ & _ & ->).
  rewrite original_parse_fragment. split.
  - unfold parse_fragment.
    destruct (strip_sign f) as [p s1].
    destruct (strip_arrow s1) as [vm s2] eqn:Ha.
    destruct (comparison_match s2) as [[[w op] ds]|] eqn:Hc.
    + apply comparison_match_spec in Hc. destruct Hc as (_ & _ & Ho & Hd).
      unfold no_modifier, directional, comparison. simpl.
      rewrite Ho, Hd. reflexivity.
    + destruct (strip_arrow_cases s1) as [(g & Hg & _ & Hv) | (Hn & _)];
        rewrite Ha in *; simpl in *.
      * subst vm. destruct Hg; subst g; reflexivity.
      * injection Hn as -> _. reflexivity.
  - intros body g Hs Hg. unfold parse_fragment.
    destruct (strip_sign f) as [p s1]. simpl in Hs. subst s1.
    rewrite (strip_arrow_snoc body g Hg).
    destruct (comparison_match body) as [[[w op] ds]|]; simpl; auto.
Qed.

Lemma C3_witness :
  In (parse_fragment (lit "-TIBC" ++ [ch_up]))
     (parseTokensClient (lit "-TIBC" ++ [ch_up]))
  /\ snd (strip_sign (lit "-TIBC" ++ [ch_up])) = lit "TIBC" ++ [ch_up]
  /\ cleanToken (parse_fragment (lit "-TIBC" ++ [ch_up])) = lit "TIBC"
  /\ valueModifier (parse_fragment (lit "-TIBC" ++ [ch_up])) = JString [ch_up].
Proof.
  assert (Hin : In (parse_fragment (lit "-TIBC" ++ [ch_up]))
                   (parseTokensClient (lit "-TIBC" ++ [ch_up])))
    by (left; reflexivity).
  split; [exact Hin|]. split; [reflexivity|].
  destruct (C3_comparison_overrides_directional_suffix _ _ Hin) as [_ H].
  specialize (H (lit "TIBC") ch_up eq_refl (or_introl eq_refl)).
  simpl in H. tauto.
Defined.

(** At ["a<5↑"] the remainder ends in the up glyph, and yet the modifier is
    the operator and the clean text is cut at the operator. *)
Lemma C3_counterexample :
  snd (strip_sign (lit "a<5" ++ [ch_up])) = lit "a<5" ++ [ch_up]
  /\ parseTokensClient (lit "a<5" ++ [ch_up]) =
     [{| original := lit "a<5" ++ [ch_up]; cleanToken := lit "a";
         isPresent := true; valueModifier := JString (lit "<");
         numericValue := JString (lit "5") |}]
  /\ JString (lit "<") <> JString [ch_up]
  /\ lit "a" <> lit "a<5".
Proof. split; [reflexivity|]. split; [reflexivity|]. split; discriminate. Qed.

(** Claim C7, in the form that holds of the code.  ["MCV<80"] yields
    exactly one token, with clean text ["MCV"], modifier ["<"], and as
    numeric value the digit run ["80"], a string. *)
Theorem C7_mcv_lt_80_keeps_digit_string :
  parseTokensClient (lit "MCV<80") =
  [{| original := lit "MCV<80"; cleanToken := lit "MCV"; isPresent := true;
      valueModifier := JString (lit "<");
      numericValue := JString (lit "80") |}].
Proof. reflexivity. Qed.

Lemma C7_counterexample :
  ~ exists t, parseTokensClient (lit "MCV<80") = [t]
              /\ cleanToken t = lit "MCV"
              /\ valueModifier t = JString (lit "<")
              /\ numericValue t = JNumber 80.
Proof.
  intros (t & Hp & _ & _ & Hn). vm_compute in Hp. injection Hp as <-.
  discriminate Hn.
Qed.

End TokenizerFacts.

(** ** The debounced search *)
Section DebounceFacts.
Import Debounce.
Context {A R E W : Type}.
Variable searchFunction : A -> W -> settled R E * W.
Variable delay : N.

Abbreviation state := (Debounce.state A R E W).
Abbreviation step := (Debounce.step searchFunction delay).
Abbreviation run := (Debounce.run searchFunction delay).

Lemma run_app evs1 evs2 (s : state) :
  run (evs1 ++ evs2) s = run evs2 (run evs1 s).
Proof. apply fold_left_app. Qed.

Lemma find_due_Some id n (ts : list (timer A)) t :
  find_due id n ts = Some t -> In t ts /\ tid t = id /\ due t <= n.
Proof.
  unfold find_due. intros H. apply List.find_some in H. destruct H as [Hin H].
  apply andb_true_iff in H. destruct H as [H1 H2].
  apply Nat.eqb_eq in H1. apply N.leb_le in H2. auto.
Qed.

Lemma find_call_Some {X} id (l : list (nat * X)) p :
  find_call id l = Some p -> In p l /\ fst p = id.
Proof.
  unfold find_call. intros H. apply List.find_some in H. destruct H as [Hin H].
  apply Nat.eqb_eq in H. auto.
Qed.

Lemma filter_none {X} (f : X -> bool) (l : list X) :
  (forall x, In x l -> f x = false) -> List.filter f l = [].
Proof.
  induction l as [|x l IH]; intros H; [reflexivity|]. simpl.
  rewrite (H x (or_introl eq_refl)). apply IH. intros y Hy. apply H. now right.
Qed.

Lemma in_ids_app {X} i (l1 l2 : list (nat * X)) :
  In i (ids (l1 ++ l2)) <-> In i (ids l1) \/ In i (ids l2).
Proof. unfold ids. rewrite map_app. apply in_app_iff. Qed.

Lemma in_ids {X} (p : nat * X) l : In p l -> In (fst p) (ids l).
Proof. apply in_map. Qed.

Lemma in_timer_ids (t : timer A) ts : In t ts -> In (tid t) (timer_ids ts).
Proof. apply in_map. Qed.

Lemma in_ids_filter {X} i (f : nat * X -> bool) l :
  In i (ids (List.filter f l)) -> In i (ids l).
Proof.
  unfold ids. rewrite !in_map_iff. intros (p & Hp & Hin).
  apply List.filter_In in Hin. exists p. tauto.
Qed.

Lemma in_timer_ids_filter i (f : timer A -> bool) ts :
  In i (timer_ids (List.filter f ts)) -> In i (timer_ids ts).
Proof.
  unfold timer_ids. rewrite !in_map_iff. intros (p & Hp & Hin).
  apply List.filter_In in Hin. exists p. tauto.
Qed.

Lemma clearTimeout_subset i h (ts : list (timer A)) :
  In i (timer_ids (clearTimeout h ts)) -> In i (timer_ids ts).
Proof. destruct h; simpl; [apply in_timer_ids_filter | auto]. Qed.

Lemma clearTimeout_inv (s : state) :
  inv s -> clearTimeout (timeoutId s) (timers s) = [].
Proof.
  intros [Ht _]. unfold clearTimeout.
  destruct (timeoutId s) as [id|] eqn:Hid.
  - apply filter_none. intros t Hin. destruct (Ht t Hin) as [Heq _].
    injection Heq as ->. now rewrite Nat.eqb_refl.
  - destruct (timers s) as [|t ts]; [reflexivity|].
    destruct (Ht t (or_introl eq_refl)) as [Heq _]. discriminate.
Qed.

Lemma inv_init (w : W) : inv (createDebouncedSearch w : state).
Proof. split; [intros ? [] | intros ? []]. Qed.

Lemma inv_step s ev : inv s -> inv (step s ev).
Proof.
  intros Hinv. pose proof Hinv as [Ht Hf]. destruct ev as [a|dt|id|id]; simpl.
  - split; simpl.
    + rewrite (clearTimeout_inv s Hinv). intros t [<- | []]. simpl.
      split; [reflexivity | lia].
    + intros i Hi. specialize (Hf i Hi). lia.
  - exact Hinv.
  - destruct (find_due id (now s) (timers s)) as [t|] eqn:Hfd; [|exact Hinv].
    destruct (searchFunction (targs t) (lookup_world s)) as [r w'].
    apply find_due_Some in Hfd. destruct Hfd as (Hin & Hid & _).
    assert (Hlt : (id < next_id s)%nat) by (subst id; now apply Ht).
    split; simpl.
    + intros t' Ht'. apply List.filter_In in Ht'. now apply Ht.
    + intros i. rewrite !in_app_iff, !in_ids_app. simpl.
      intros [[H | [<- | []]] | [[H | [<- | []]] | H]]; auto;
        apply Hf; rewrite !in_app_iff; auto.
  - destruct (find_call id (inflight s)) as [p|] eqn:Hfc; [|exact Hinv].
    apply find_call_Some in Hfc. destruct Hfc as (Hin & Hid).
    split; simpl; [exact Ht|].
    intros i. rewrite !in_app_iff, !in_ids_app. simpl.
    intros [H | [H | [H | [<- | []]]]]; apply Hf; rewrite !in_app_iff; auto.
    + apply in_ids_filter in H. auto.
    + right. left. now apply in_ids.
Qed.

Lemma inv_run evs s : inv s -> inv (run evs s).
Proof.
  revert s. induction evs as [|ev evs IH]; intros s H; [exact H|].
  simpl. apply IH. now apply inv_step.
Qed.

Lemma dead_step i s ev : dead i s -> dead i (step s ev).
Proof.
  intros (Ht & Hr & Hf & Hd & Hlt). destruct ev as [a|dt|id|id]; simpl.
  - unfold dead; simpl. refine (conj _ (conj Hr (conj Hf (conj Hd _)))); [|lia].
    unfold timer_ids. rewrite map_app, in_app_iff. intros [H | [H | []]].
    + now apply Ht, clearTimeout_subset with (h := timeoutId s).
    + simpl in H. lia.
  - unfold dead; simpl. auto.
  - destruct (find_due id (now s) (timers s)) as [t|] eqn:Hfd;
      [|unfold dead; auto].
    destruct (searchFunction (targs t) (lookup_world s)) as [r w'].
    apply find_due_Some in Hfd. destruct Hfd as (Hin & Hid & _).
    assert (Hne : id <> i).
    { intros ->. apply Ht. rewrite <- Hid. now apply in_timer_ids. }
    unfold dead; simpl. repeat split; auto.
    + intros H. apply in_timer_ids_filter in H. now apply Ht.
    + rewrite in_ids_app. simpl. intros [H | [H | []]]; auto.
    + rewrite in_ids_app. simpl. intros [H | [H | []]]; auto.
  - destruct (find_call id (inflight s)) as [p|] eqn:Hfc;
      [|unfold dead; auto].
    apply find_call_Some in Hfc. destruct Hfc as (Hin & Hid).
    unfold dead; simpl. repeat split; auto.
    + intros H. apply in_ids_filter in H. now apply Hf.
    + rewrite in_ids_app. simpl. intros [H | [H | []]]; auto.
      apply Hf. rewrite <- H. now apply in_ids.
Qed.

Lemma dead_run i evs s : dead i s -> dead i (run evs s).
Proof.
  revert s. induction evs as [|ev evs IH]; intros s H; [exact H|].
  simpl. apply IH. now apply dead_step.
Qed.

Lemma waiting_step i deadline s ev :
  waiting i deadline s -> now (step s ev) < deadline ->
  waiting i deadline (step s ev).
Proof.
  intros (Ht & Hr & Hf & Hd & Hlt) Hnow.
  destruct ev as [a|dt|id|id]; simpl in *.
  - unfold waiting; simpl.
    refine (conj _ (conj Hr (conj Hf (conj Hd _)))); [|lia].
    intros t Hin Hid. apply in_app_or in Hin. destruct Hin as [Hin | [<- | []]].
    + apply Ht; [|exact Hid].
      destruct (timeoutId s); simpl in Hin; [|exact Hin].
      now apply List.filter_In in Hin.
    + simpl in Hid. lia.
  - unfold waiting; simpl. auto.
  - destruct (find_due id (now s) (timers s)) as [t|] eqn:Hfd;
      [|unfold waiting; auto].
    destruct (searchFunction (targs t) (lookup_world s)) as [r w'].
    simpl in Hnow.
    apply find_due_Some in Hfd. destruct Hfd as (Hin & Hid & Hdue).
    assert (Hne : id <> i).
    { intros ->. specialize (Ht t Hin Hid). lia. }
    unfold waiting; simpl. repeat split; auto.
    + intros t' Hin' Hid'. apply List.filter_In in Hin'. now apply Ht.
    + rewrite in_ids_app. simpl. intros [H | [H | []]]; auto.
    + rewrite in_ids_app. simpl. intros [H | [H | []]]; auto.
  - destruct (find_call id (inflight s)) as [p|] eqn:Hfc;
      [|unfold waiting; auto].
    apply find_call_Some in Hfc. destruct Hfc as (Hin & Hid).
    unfold waiting; simpl. repeat split; auto.
    + intros H. apply in_ids_filter in H. now apply Hf.
    + rewrite in_ids_app. simpl. intros [H | [H | []]]; auto.
      apply Hf. rewrite <- H. now apply in_ids.
Qed.

Lemma now_step s ev : now s <= now (step s ev).
Proof.
  destruct ev as [a|dt|id|id]; simpl; try lia.
  - destruct (find_due id (now s) (timers s)); [|lia].
    destruct (searchFunction _ _). simpl. lia.
  - destruct (find_call id (inflight s)); simpl; lia.
Qed.

Lemma now_run evs s : now (run evs s) = now s + elapsed evs.
Proof.
  revert s. induction evs as [|ev evs IH]; intros s; [simpl; lia|].
  change (run (ev :: evs) s) with (run evs (step s ev)). rewrite IH.
  destruct ev as [a|dt|id|id]; simpl; try lia.
  - destruct (find_due id (now s) (timers s)); [|lia].
    destruct (searchFunction _ _). simpl. lia.
  - destruct (find_call id (inflight s)); simpl; lia.
Qed.

Lemma waiting_run i deadline evs s :
  waiting i deadline s -> now s + elapsed evs < deadline ->
  waiting i deadline (run evs s).
Proof.
  revert s. induction evs as [|ev evs IH]; intros s H Hlt; [exact H|].
  simpl. apply IH.
  - apply waiting_step; [exact H|].
    pose proof (now_run [ev] s) as Hn. simpl in Hn. rewrite Hn.
    destruct ev; simpl in *; lia.
  - pose proof (now_run [ev] s) as Hn. simpl in Hn. rewrite Hn.
    destruct ev; simpl in *; lia.
Qed.

Lemma find_call_fresh {X} id (l : list (nat * X)) x :
  ~ In id (ids l) -> find_call id (l ++ [(id, x)]) = Some (id, x).
Proof.
  induction l as [|p l IH]; intros H; unfold find_call in *; simpl.
  - now rewrite Nat.eqb_refl.
  - destruct (Nat.eqb_spec (fst p) id) as [Heq|Hne].
    + exfalso. apply H. left. exact Heq.
    + apply IH. intros Hi. apply H. now right.
Qed.

(** A call that no other call follows is served once its delay has passed. *)
Lemma call_served s a :
  inv s ->
  let served := run [Wait delay; Fire (next_id s); Settle (next_id s)]
                  (step s (Call a)) in
  reached served = reached s ++ [(next_id s, a)]
  /\ delivered served =
     delivered s ++ [(next_id s, fst (searchFunction a (lookup_world s)))].
Proof.
  intros Hinv.
  assert (Hfire :
    step (step (step s (Call a)) (Wait delay)) (Fire (next_id s)) =
    {| now := now s + delay; timeoutId := Some (next_id s); timers := [];
       next_id := S (next_id s);
       lookup_world := snd (searchFunction a (lookup_world s));
       reached := reached s ++ [(next_id s, a)];
       inflight := inflight s
                   ++ [(next_id s, fst (searchFunction a (lookup_world s)))];
       delivered := delivered s |}).
  { cbn [Debounce.step now timers timeoutId next_id lookup_world reached
         inflight delivered].
    rewrite (clearTimeout_inv s Hinv).
    unfold find_due. simpl. rewrite Nat.eqb_refl, N.leb_refl. simpl.
    destruct (searchFunction a (lookup_world s)) as [r w']. simpl.
    reflexivity. }
  unfold Debounce.run. cbn [fold_left]. rewrite Hfire.
  cbn [Debounce.step inflight].
  rewrite find_call_fresh.
  - simpl. auto.
  - intros Hi. destruct Hinv as [_ Hf].
    assert (next_id s < next_id s)%nat; [|lia].
    apply Hf. rewrite !in_app_iff. auto.
Qed.

(** Claim C5.  When a second call follows a first one before the delay has
    passed, the first call never reaches the search function and its promise
    is never settled, whatever happens later; the second call, once its own
    delay has passed and its timer and its search have run, reaches the
    search function and gets its result. *)
Theorem C5_superseded_call_is_never_delivered evs1 a1 evs2 a2 (w : W) :
  elapsed evs2 < delay ->
  let s1 := run evs1 (createDebouncedSearch w) in
  let s2 := run evs2 (step s1 (Call a1)) in
  let s3 := step s2 (Call a2) in
  (forall evs3,
     ~ In (next_id s1) (ids (reached (run evs3 s3)))
     /\ ~ In (next_id s1) (ids (inflight (run evs3 s3)))
     /\ ~ In (next_id s1) (ids (delivered (run evs3 s3))))
  /\ (let served :=
        run [Wait delay; Fire (next_id s2); Settle (next_id s2)] s3 in
      In (next_id s2, a2) (reached served)
      /\ In (next_id s2, fst (searchFunction a2 (lookup_world s2)))
            (delivered served)).
Proof.
  intros Hlt s1 s2 s3.
  assert (Hinv1 : inv s1) by apply inv_run, inv_init.
  assert (Hinv2 : inv s2) by apply inv_run, inv_step, Hinv1.
  assert (Hw : waiting (next_id s1) (now s1 + delay) s2).
  { apply waiting_run; [|simpl; lia].
    destruct Hinv1 as [_ Hf].
    assert (Hfresh : forall l, (forall i, In i l -> (i < next_id s1)%nat) ->
                               ~ In (next_id s1) l).
    { intros l Hl Hi. specialize (Hl _ Hi). lia. }
    unfold waiting; simpl. repeat split.
    - rewrite (clearTimeout_inv s1) by (apply inv_run, inv_init).
      intros t [<- | []] _. reflexivity.
    - apply Hfresh. intros i Hi. apply Hf. rewrite !in_app_iff. auto.
    - apply Hfresh. intros i Hi. apply Hf. rewrite !in_app_iff. auto.
    - apply Hfresh. intros i Hi. apply Hf. rewrite !in_app_iff. auto.
    - lia. }
  split.
  - intros evs3.
    assert (Hd : dead (next_id s1) s3).
    { destruct Hw as (_ & Hr & Hf & Hd & Hi).
      unfold dead, s3; simpl. repeat split; auto.
      rewrite (clearTimeout_inv s2 Hinv2). simpl. lia. }
    apply (dead_run _ evs3) in Hd. unfold dead in Hd. tauto.
  - destruct (call_served s2 a2 Hinv2) as [Hr Hd]. fold s3 in Hr, Hd.
    cbv zeta. rewrite Hr, Hd, !in_app_iff. simpl. auto.
Qed.

End DebounceFacts.

(** ** The caches *)
Section CacheFacts.
Import JS Supabase BackendService.
Context `{Client}.

Lemma error_free_insert {D} (m : gmap jsstring (api_result D)) k r :
  error_free m -> res_error r = None -> error_free (<[k := r]> m).
Proof.
  intros Hm Hr k' r'. destruct (decide (k = k')) as [<-|Hne].
  - rewrite lookup_insert_eq. now intros [= <-].
  - rewrite lookup_insert_ne by exact Hne. apply Hm.
Qed.

Lemma error_free_empty {D} : error_free (∅ : gmap jsstring (api_result D)).
Proof. intros k r. rewrite lookup_empty. discriminate. Qed.

(** *** [BackendService] *)

Lemma searchFeatures_miss_ok query limit (s : service) w data w' :
  let lim := match limit with Some l => l | None => MAX_SEARCH_RESULTS end in
  cache s !! search_key query lim = None ->
  rpc_search_features_advanced query lim w = (Response data None, w') ->
  searchFeatures query limit s w =
  (let result := {| res_data := option_map Rows data; res_error := None |} in
   (result,
    {| cache := <[search_key query lim := result]> (cache s);
       pending := pending s ++ [(clock s + CACHE_TTL_MS, search_key query lim)];
       clock := clock s |},
    w')).
Proof.
  intros lim Hmiss Hrpc. unfold searchFeatures. fold lim.
  rewrite Hmiss, Hrpc. reflexivity.
Qed.

Lemma searchFeatures_cases query limit (s : service) w :
  let lim := match limit with Some l => l | None => MAX_SEARCH_RESULTS end in
  let key := search_key query lim in
  let out := searchFeatures query limit s w in
  (exists cached, cache s !! key = Some cached /\ out = (cached, s, w))
  \/ (cache s !! key = None
      /\ rpc_failed (fst (rpc_search_features_advanced query lim w)) = true
      /\ is_Some (res_error (fst (fst out)))
      /\ snd (fst out) = s
      /\ snd out = snd (rpc_search_features_advanced query lim w))
  \/ (cache s !! key = None
      /\ rpc_failed (fst (rpc_search_features_advanced query lim w)) = false
      /\ res_error (fst (fst out)) = None
      /\ snd (fst out) =
         {| cache := <[key := fst (fst out)]> (cache s);
            pending := pending s ++ [(clock s + CACHE_TTL_MS, key)];
            clock := clock s |}
      /\ snd out = snd (rpc_search_features_advanced query lim w)).
Proof.
  intros lim key out. unfold out, searchFeatures. fold lim. fold key.
  destruct (cache s !! key) as [cached|] eqn:Hc.
  - left. eauto.
  - right.
    destruct (rpc_search_features_advanced query lim w) as [[data [e|]|e] w'];
      simpl; [left | right | left]; repeat split; eauto.
Qed.

Lemma getDiseaseStats_cases diseaseId (s : service) w :
  let key := stats_key diseaseId in
  let out := BackendService.getDiseaseStats diseaseId s w in
  (exists cached, cache s !! key = Some cached /\ out = (cached, s, w))
  \/ (cache s !! key = None
      /\ rpc_failed (fst (rpc_get_disease_stats diseaseId w)) = true
      /\ is_Some (res_error (fst (fst out)))
      /\ snd (fst out) = s
      /\ snd out = snd (rpc_get_disease_stats diseaseId w))
  \/ (cache s !! key = None
      /\ rpc_failed (fst (rpc_get_disease_stats diseaseId w)) = false
      /\ res_error (fst (fst out)) = None
      /\ snd (fst out) =
         {| cache := <[key := fst (fst out)]> (cache s);
            pending := pending s;
            clock := clock s |}
      /\ snd out = snd (rpc_get_disease_stats diseaseId w)).
Proof.
  intros key out. unfold out, BackendService.getDiseaseStats. fold key.
  destruct (cache s !! key) as [cached|] eqn:Hc.
  - left. eauto.
  - right. destruct (rpc_get_disease_stats diseaseId w) as [[data [e|]|e] w'];
      simpl; [left | right | left]; repeat split; eauto.
Qed.

Lemma getCachedDiseaseStats_cases diseaseId (q : Api.quick_peek) w :
  let out := Api.getCachedDiseaseStats diseaseId q w in
  (exists cached,
     Api.quickPeekCache q !! diseaseId = Some cached /\ out = (cached, q, w))
  \/ (Api.quickPeekCache q !! diseaseId = None
      /\ rpc_failed (fst (rpc_get_disease_stats diseaseId w)) = true
      /\ is_Some (res_error (fst (fst out)))
      /\ snd (fst out) = q
      /\ snd out = snd (rpc_get_disease_stats diseaseId w))
  \/ (Api.quickPeekCache q !! diseaseId = None
      /\ rpc_failed (fst (rpc_get_disease_stats diseaseId w)) = false
      /\ res_error (fst (fst out)) = None
      /\ (snd (fst out) = q
          \/ snd (fst out) =
             {| Api.quickPeekCache :=
                  <[diseaseId := fst (fst out)]> (Api.quickPeekCache q);
                Api.qp_clock := Api.qp_clock q |})
      /\ snd out = snd (rpc_get_disease_stats diseaseId w)).
Proof.
  intros out. unfold out, Api.getCachedDiseaseStats, Api.getDiseaseStats.
  destruct (Api.quickPeekCache q !! diseaseId) as [cached|] eqn:Hc.
  - left. eauto.
  - right.
    destruct (rpc_get_disease_stats diseaseId w) as [[data [e|]|e] w'];
      simpl; [left | right | left]; try (repeat split; eauto; fail).
    destruct (first_row data); simpl; repeat split; auto.
Qed.

(** The three ways a cached lookup ends: a hit, a failed call, a stored
    answer. *)
Ltac outcome Hc Hmiss Hok :=
  destruct Hc as [(? & _ & [= _ <- _])
                 | [(_ & _ & _ & -> & _) | (Hmiss & _ & Hok & -> & _)]].

Ltac peek_outcome Hc Hmiss Hok :=
  destruct Hc as [(? & _ & [= _ <- _])
                 | [(_ & _ & _ & -> & _)
                   | (Hmiss & _ & Hok & [-> | ->] & _)]].

Lemma error_free_step (st : service * world) o :
  error_free (cache (fst st)) ->
  error_free (cache (fst (op_step st o))).
Proof.
  destruct st as [s w]. simpl. intros Hs.
  destruct o as [query limit|diseaseId|dt|n| |prefix]; simpl.
  - pose proof (searchFeatures_cases query limit s w) as Hc. simpl in Hc.
    destruct (searchFeatures query limit s w) as [[r s'] w'].
    simpl in *.
    outcome Hc Hmiss Hok;
      auto.
    simpl. now apply error_free_insert.
  - pose proof (getDiseaseStats_cases diseaseId s w) as Hc. simpl in Hc.
    destruct (BackendService.getDiseaseStats diseaseId s w) as [[r s'] w'].
    simpl in *.
    outcome Hc Hmiss Hok;
      auto.
    simpl. now apply error_free_insert.
  - exact Hs.
  - unfold run_timer.
    destruct (pending s !! n) as [[due key]|]; [|exact Hs].
    destruct (due <=? clock s); [|exact Hs]. simpl.
    intros k r Hk. apply lookup_delete_Some in Hk. destruct Hk as [_ Hk].
    now apply Hs in Hk.
  - apply error_free_empty.
  - intros k r Hk. apply map_lookup_filter_Some in Hk. destruct Hk as [Hk _].
    now apply Hs in Hk.
Qed.

Lemma error_free_run ops (st : service * world) :
  error_free (cache (fst st)) ->
  error_free (cache (fst (op_run ops st))).
Proof.
  revert st. induction ops as [|o ops IH]; intros st Hs; [exact Hs|].
  simpl. apply IH. now apply error_free_step.
Qed.

Lemma qp_error_free_step (st : Api.quick_peek * world) o :
  error_free (Api.quickPeekCache (fst st)) ->
  error_free (Api.quickPeekCache (fst (Api.qp_step st o))).
Proof.
  destruct st as [q w]. simpl. intros Hq.
  destruct o as [diseaseId|dt| ]; simpl.
  - pose proof (getCachedDiseaseStats_cases diseaseId q w) as Hc. simpl in Hc.
    destruct (Api.getCachedDiseaseStats diseaseId q w) as [[r q'] w'].
    simpl in *.
    peek_outcome Hc Hmiss Hok;
      auto.
    simpl. now apply error_free_insert.
  - exact Hq.
  - apply error_free_empty.
Qed.

Lemma qp_error_free_run ops (st : Api.quick_peek * world) :
  error_free (Api.quickPeekCache (fst st)) ->
  error_free (Api.quickPeekCache (fst (Api.qp_run ops st))).
Proof.
  revert st. induction ops as [|o ops IH]; intros st Hs; [exact Hs|].
  simpl. apply IH. now apply qp_error_free_step.
Qed.

(** Claim C10.  A failed lookup leaves the cache as it was, in
    [searchFeatures], [BackendService.getDiseaseStats] and
    [getCachedDiseaseStats]; and no run of the service or of the quick-peek
    cache ever holds an entry with an error, so none is served. *)
Theorem C10_failed_lookup_is_not_cached :
  (forall query limit (s : service) w,
     let lim := match limit with
                | Some l => l
                | None => MAX_SEARCH_RESULTS
                end in
     cache s !! search_key query lim = None ->
     rpc_failed (fst (rpc_search_features_advanced query lim w)) = true ->
     is_Some (res_error (fst (fst (searchFeatures query limit s w))))
     /\ snd (fst (searchFeatures query limit s w)) = s)
  /\ (forall diseaseId (s : service) w,
        cache s !! stats_key diseaseId = None ->
        rpc_failed (fst (rpc_get_disease_stats diseaseId w)) = true ->
        is_Some (res_error
                   (fst (fst (BackendService.getDiseaseStats diseaseId s w))))
        /\ snd (fst (BackendService.getDiseaseStats diseaseId s w)) = s)
  /\ (forall diseaseId (q : Api.quick_peek) w,
        Api.quickPeekCache q !! diseaseId = None ->
        rpc_failed (fst (rpc_get_disease_stats diseaseId w)) = true ->
        is_Some (res_error
                   (fst (fst (Api.getCachedDiseaseStats diseaseId q w))))
        /\ snd (fst (Api.getCachedDiseaseStats diseaseId q w)) = q)
  /\ (forall ops w,
        error_free (cache
                      (fst (op_run ops
                              (new_service, w)))))
  /\ (forall ops w,
        error_free (Api.quickPeekCache
                      (fst (Api.qp_run ops (Api.quick_peek_init, w))))).
Proof.
  repeat apply conj.
  - intros query limit s w lim Hmiss Hfail.
    pose proof (searchFeatures_cases query limit s w) as Hc. simpl in Hc.
    fold lim in Hc.
    destruct Hc as [(c & Hhit & _) | [(_ & _ & He & Hs & _) | (_ & Hok & _)]];
      [congruence | auto | congruence].
  - intros diseaseId s w Hmiss Hfail.
    pose proof (getDiseaseStats_cases diseaseId s w) as Hc. simpl in Hc.
    destruct Hc as [(c & Hhit & _) | [(_ & _ & He & Hs & _) | (_ & Hok & _)]];
      [congruence | auto | congruence].
  - intros diseaseId q w Hmiss Hfail.
    pose proof (getCachedDiseaseStats_cases diseaseId q w) as Hc. simpl in Hc.
    destruct Hc as [(c & Hhit & _) | [(_ & _ & He & Hs & _) | (_ & Hok & _)]];
      [congruence | auto | congruence].
  - intros ops w. apply error_free_run. apply error_free_empty.
  - intros ops w. apply qp_error_free_run. apply error_free_empty.
Qed.

(** *** Expiry *)

Lemma startsWithStr_app p x : startsWithStr (p ++ x) p = true.
Proof.
  induction p as [|c p IH]; simpl; [now destruct x|].
  now rewrite N.eqb_refl.
Qed.

Lemma search_key_prefix query lim :
  startsWithStr (search_key query lim) (lit "search:") = true.
Proof. apply startsWithStr_app. Qed.

Lemma stats_key_prefix diseaseId :
  startsWithStr (stats_key diseaseId) (lit "search:") = false.
Proof. vm_compute. reflexivity. Qed.

Lemma stats_key_inj a b :
  stats_key a = stats_key b -> a = b.
Proof. unfold stats_key. apply app_inv_head. Qed.

Lemma search_keys_only_step (st : service * world) o :
  search_keys_only (pending (fst st)) ->
  search_keys_only (pending (fst (op_step st o))).
Proof.
  destruct st as [s w]. simpl. intros Hs.
  destruct o as [query limit|diseaseId|dt|n| |prefix]; simpl; auto.
  - pose proof (searchFeatures_cases query limit s w) as Hc. simpl in Hc.
    destruct (searchFeatures query limit s w) as [[r s'] w'].
    simpl in *.
    outcome Hc Hmiss Hok;
      auto.
    simpl. apply List.Forall_app. split; [exact Hs|].
    constructor; [apply search_key_prefix | constructor].
  - pose proof (getDiseaseStats_cases diseaseId s w) as Hc. simpl in Hc.
    destruct (BackendService.getDiseaseStats diseaseId s w) as [[r s'] w'].
    simpl in *.
    outcome Hc Hmiss Hok;
      auto.
  - unfold run_timer.
    destruct (pending s !! n) as [[due key]|]; [|exact Hs].
    destruct (due <=? clock s); [|exact Hs]. simpl.
    unfold search_keys_only in *. apply List.Forall_app.
    split; [now apply Forall_take | now apply Forall_drop].
Qed.

Lemma search_keys_only_run ops (st : service * world) :
  search_keys_only (pending (fst st)) ->
  search_keys_only (pending (fst (op_run ops st))).
Proof.
  revert st. induction ops as [|o ops IH]; intros st Hs; [exact Hs|].
  simpl. apply IH. now apply search_keys_only_step.
Qed.

Lemma stats_entry_stays_step (st : service * world) o diseaseId r :
  is_clear o = false ->
  search_keys_only (pending (fst st)) ->
  cache (fst st) !! stats_key diseaseId = Some r ->
  cache (fst (op_step st o))
    !! stats_key diseaseId = Some r.
Proof.
  destruct st as [s w]. simpl. intros Ho Hp Hr.
  destruct o as [query limit|id|dt|n| |prefix]; simpl; try discriminate; auto.
  - pose proof (searchFeatures_cases query limit s w) as Hc. simpl in Hc.
    destruct (searchFeatures query limit s w) as [[r' s'] w'].
    simpl in *.
    outcome Hc Hmiss Hok;
      auto.
    simpl. rewrite lookup_insert_ne; [exact Hr|].
    intros E. pose proof (stats_key_prefix diseaseId) as Hs.
    rewrite <- E, search_key_prefix in Hs. discriminate.
  - pose proof (getDiseaseStats_cases id s w) as Hc. simpl in Hc.
    destruct (BackendService.getDiseaseStats id s w) as [[r' s'] w'].
    simpl in *.
    outcome Hc Hmiss Hok;
      auto.
    simpl. rewrite lookup_insert_ne; [exact Hr|].
    intros E. apply stats_key_inj in E. subst id. congruence.
  - unfold run_timer.
    destruct (pending s !! n) as [[due key]|] eqn:Hn; [|exact Hr].
    destruct (due <=? clock s); [|exact Hr]. simpl.
    rewrite lookup_delete_ne; [exact Hr|].
    intros E. unfold search_keys_only in Hp. rewrite List.Forall_forall in Hp.
    assert (Hin : In (due, key) (pending s)).
    { apply list_elem_of_In. eapply list_elem_of_lookup_2. exact Hn. }
    apply Hp in Hin. simpl in Hin.
    rewrite E, stats_key_prefix in Hin. discriminate.
Qed.

Lemma stats_entry_stays_run ops (st : service * world) diseaseId r :
  forallb (fun o => negb (is_clear o)) ops = true ->
  search_keys_only (pending (fst st)) ->
  cache (fst st) !! stats_key diseaseId = Some r ->
  cache (fst (op_run ops st))
    !! stats_key diseaseId = Some r.
Proof.
  revert st. induction ops as [|o ops IH]; intros st Hops Hp Hr; [exact Hr|].
  simpl in Hops. apply andb_true_iff in Hops. destruct Hops as [Ho Hops].
  apply negb_true_iff in Ho.
  simpl. apply IH; [exact Hops | |].
  - now apply search_keys_only_step.
  - now apply stats_entry_stays_step.
Qed.

(** A statistics entry of the service is out of the reach of the scheduled
    deletions, which are those of search keys: it stays through any
    operations other than the two clearing ones. *)
Lemma service_stats_entry_stays ops1 ops2 w diseaseId r :
  forallb (fun o => negb (is_clear o)) ops2 = true ->
  cache
    (fst (op_run ops1 (new_service, w)))
    !! stats_key diseaseId = Some r ->
  cache
    (fst (op_run (ops1 ++ ops2)
            (new_service, w)))
    !! stats_key diseaseId = Some r.
Proof.
  intros Hops Hr. unfold op_run. rewrite fold_left_app.
  apply stats_entry_stays_run; [exact Hops | | exact Hr].
  apply search_keys_only_run. constructor.
Qed.

Lemma qp_entry_stays_run ops (st : Api.quick_peek * world) diseaseId r :
  forallb (fun o => negb (Api.is_qp_clear o)) ops = true ->
  Api.quickPeekCache (fst st) !! diseaseId = Some r ->
  Api.quickPeekCache (fst (Api.qp_run ops st)) !! diseaseId = Some r.
Proof.
  revert st. induction ops as [|o ops IH]; intros st Hops Hr; [exact Hr|].
  simpl in Hops. apply andb_true_iff in Hops. destruct Hops as [Ho Hops].
  apply negb_true_iff in Ho.
  simpl. apply IH; [exact Hops|].
  destruct st as [q w]. simpl in *.
  destruct o as [id|dt| ]; simpl; try discriminate; auto.
  pose proof (getCachedDiseaseStats_cases id q w) as Hc. simpl in Hc.
  destruct (Api.getCachedDiseaseStats id q w) as [[r' q'] w'].
  simpl in *.
  peek_outcome Hc Hmiss Hok;
    auto.
  simpl. rewrite lookup_insert_ne; [exact Hr|]. intros ->. congruence.
Qed.

(** Claim C6, in the form that holds of the code.  A search result that
    [searchFeatures] stores is scheduled for deletion [CACHE_TTL_MS] later;
    the deletion does nothing before it is due, and once it has run the key
    is a miss.  An entry of the quick-peek cache has no lifetime: it stays
    until [clearQuickPeekCache], however much time passes, and
    [getCachedDiseaseStats] answers it without a call to the database. *)
Theorem C6_search_entries_expire_quick_peek_entries_do_not :
  (forall query limit (s : service) w data w',
     let lim := match limit with
                | Some l => l
                | None => MAX_SEARCH_RESULTS
                end in
     let key := search_key query lim in
     cache s !! key = None ->
     rpc_search_features_advanced query lim w = (Response data None, w') ->
     let s' := snd (fst (searchFeatures query limit s w)) in
     cache s' !! key =
       Some {| res_data := option_map Rows data;
               res_error := None |}
     /\ pending s' =
        pending s
        ++ [(clock s + CACHE_TTL_MS, key)])
  /\ (forall n (s : service) due key,
        pending s !! n = Some (due, key) ->
        (clock s < due -> run_timer n s = s)
        /\ (due <= clock s ->
            cache (run_timer n s) !! key = None))
  /\ (forall ops (q : Api.quick_peek) w diseaseId r,
        forallb (fun o => negb (Api.is_qp_clear o)) ops = true ->
        Api.quickPeekCache q !! diseaseId = Some r ->
        let st := Api.qp_run ops (q, w) in
        Api.getCachedDiseaseStats diseaseId (fst st) (snd st)
        = (r, fst st, snd st)).
Proof.
  repeat apply conj.
  - intros query limit s w data w' lim key Hmiss Hrpc s'. unfold s'.
    rewrite (searchFeatures_miss_ok query limit s w data w' Hmiss Hrpc).
    simpl. fold lim. fold key. rewrite lookup_insert_eq. auto.
  - intros n s due key Hn. unfold run_timer. rewrite Hn. split.
    + intros Hlt. apply N.leb_gt in Hlt. now rewrite Hlt.
    + intros Hle. apply N.leb_le in Hle. rewrite Hle. simpl.
      apply lookup_delete_eq.
  - intros ops q w diseaseId r Hops Hr st.
    assert (Hst : Api.quickPeekCache (fst st) !! diseaseId = Some r).
    { unfold st. now apply qp_entry_stays_run. }
    unfold Api.getCachedDiseaseStats. now rewrite Hst.
Qed.

End CacheFacts.

(** ** The token input workflow *)
Section WorkflowFacts.
Import JS Supabase Workflow.
Context `{Client}.

(** The loop touches the world and the log, not the cells of the hook. *)
Lemma process_token_cells d tok (st : wf_state) :
  let st' := snd (process_token d tok st) in
  processing st' = processing st /\ results st' = results st
  /\ error st' = error st.
Proof.
  unfold process_token, call_addFeatureToDisease.
  destruct (truthy (canonical_feature_id tok)); [|simpl; auto].
  destruct (Api.addFeatureToDisease _ _ _ _). simpl. auto.
Qed.

Lemma process_tokens_cons d tok l (st : wf_state) :
  process_tokens d (tok :: l) st =
  (fst (process_token d tok st)
     :: fst (process_tokens d l (snd (process_token d tok st))),
   snd (process_tokens d l (snd (process_token d tok st)))).
Proof.
  simpl. destruct (process_token d tok st) as [r st1]. simpl.
  destruct (process_tokens d l st1). reflexivity.
Qed.

Lemma process_tokens_app d l1 l2 (st : wf_state) :
  process_tokens d (l1 ++ l2) st =
  (fst (process_tokens d l1 st)
     ++ fst (process_tokens d l2 (snd (process_tokens d l1 st))),
   snd (process_tokens d l2 (snd (process_tokens d l1 st)))).
Proof.
  revert st. induction l1 as [|tok l1 IH]; intros st.
  - simpl. now destruct (process_tokens d l2 st).
  - rewrite <- app_comm_cons, !process_tokens_cons, IH. reflexivity.
Qed.

Lemma process_tokens_cells d l (st : wf_state) :
  let st' := snd (process_tokens d l st) in
  processing st' = processing st /\ results st' = results st
  /\ error st' = error st.
Proof.
  revert st. induction l as [|tok l IH]; intros st; [simpl; auto|].
  rewrite process_tokens_cons. simpl.
  destruct (IH (snd (process_token d tok st))) as (-> & -> & ->).
  apply process_token_cells.
Qed.

Lemma process_token_token d tok (st : wf_state) :
  rt_token (fst (process_token d tok st)) = tok.
Proof.
  unfold process_token.
  destruct (truthy (canonical_feature_id tok)); [|reflexivity].
  now destruct (call_addFeatureToDisease _ _ _ _).
Qed.

(** One element per token, in the order of the tokens. *)
Lemma process_tokens_tokens d l (st : wf_state) :
  map rt_token (fst (process_tokens d l st)) = l.
Proof.
  revert st. induction l as [|tok l IH]; intros st; [reflexivity|].
  rewrite process_tokens_cons. simpl. now rewrite process_token_token, IH.
Qed.

(** The calls the loop makes: one for each resolvable token, in order. *)
Lemma process_tokens_log d l (st : wf_state) :
  exists calls,
    attach_log (snd (process_tokens d l st)) = attach_log st ++ calls
    /\ List.Forall2 (carries d) (List.filter resolvable l) calls.
Proof.
  revert st. induction l as [|tok l IH]; intros st.
  - exists []. simpl. rewrite app_nil_r. split; [reflexivity | constructor].
  - rewrite process_tokens_cons. simpl.
    destruct (IH (snd (process_token d tok st))) as (calls & -> & Hc).
    unfold process_token, resolvable at 1, call_addFeatureToDisease.
    destruct (truthy (canonical_feature_id tok)) as [fid|] eqn:Hfid.
    + destruct (Api.addFeatureToDisease _ _ _ _) as [r w']. simpl.
      eexists. rewrite <- app_assoc. split; [reflexivity|]. simpl.
      constructor; [|exact Hc]. unfold carries. simpl. repeat split; auto.
    + simpl. exists calls. auto.
Qed.

Lemma processTokenInput_guard diseaseId tokenString (st : wf_state) :
  is_empty (trim tokenString) = true \/ truthy diseaseId = None ->
  processTokenInput diseaseId tokenString st = (Normal tt, st).
Proof.
  unfold processTokenInput. intros [-> | ->]; [reflexivity|].
  now destruct (is_empty (trim tokenString)).
Qed.

Lemma processTokenInput_parse_failed d tokenString (st : wf_state) diseaseId e :
  is_empty (trim tokenString) = false -> truthy diseaseId = Some d ->
  res_error (fst (call_parseMedicalTokens tokenString (entered st))) = Some e ->
  processTokenInput diseaseId tokenString st =
  (Normal tt,
   setProcessing false
     (setResults []
        (setError (Some e)
           (snd (call_parseMedicalTokens tokenString (entered st)))))).
Proof.
  intros Hne Hd He. unfold processTokenInput, try_block. rewrite Hne, Hd.
  fold (entered st).
  destruct (call_parseMedicalTokens tokenString (entered st)) as [r st1].
  simpl in He. rewrite He. reflexivity.
Qed.

Lemma processTokenInput_parsed d tokenString (st : wf_state) diseaseId :
  is_empty (trim tokenString) = false -> truthy diseaseId = Some d ->
  res_error (fst (call_parseMedicalTokens tokenString (entered st))) = None ->
  let parsed := call_parseMedicalTokens tokenString (entered st) in
  let tokens := match res_data (fst parsed) with Some l => l | None => [] end in
  processTokenInput diseaseId tokenString st =
  (Normal tt,
   setProcessing false
     (setResults (fst (process_tokens d tokens (snd parsed)))
        (snd (process_tokens d tokens (snd parsed))))).
Proof.
  intros Hne Hd He. unfold processTokenInput, try_block. rewrite Hne, Hd.
  fold (entered st).
  destruct (call_parseMedicalTokens tokenString (entered st)) as [r st1].
  simpl in *. rewrite He.
  destruct (process_tokens d _ st1). reflexivity.
Qed.

Lemma parse_log tokenString (st : wf_state) :
  attach_log (snd (call_parseMedicalTokens tokenString st)) = attach_log st.
Proof.
  unfold call_parseMedicalTokens.
  now destruct (Api.parseMedicalTokens tokenString (wf_world st)).
Qed.

Lemma parse_cells tokenString (st : wf_state) :
  let st' := snd (call_parseMedicalTokens tokenString st) in
  processing st' = processing st /\ results st' = results st
  /\ error st' = error st.
Proof.
  unfold call_parseMedicalTokens.
  destruct (Api.parseMedicalTokens tokenString (wf_world st)). simpl. auto.
Qed.

Lemma process_token_evaluated d tok (st : wf_state) :
  evaluated d (wf_world st) tok (fst (process_token d tok st))
  /\ wf_world (snd (process_token d tok st))
     = world_after d [tok] (wf_world st).
Proof.
  unfold process_token, evaluated, world_after, call_addFeatureToDisease.
  simpl.
  destruct (truthy (canonical_feature_id tok)) as [fid|]; [|simpl; auto].
  destruct (Api.addFeatureToDisease d fid (featureDetails tok) (wf_world st))
    as [r w']. simpl. auto.
Qed.

(** Every token is evaluated in the world the calls before it have left. *)
Lemma process_tokens_evaluated d l : forall (st : wf_state),
  wf_world (snd (process_tokens d l st)) = world_after d l (wf_world st)
  /\ forall (i : nat) t, l !! i = Some t ->
       exists r, fst (process_tokens d l st) !! i = Some r
                 /\ evaluated d (world_after d (take i l) (wf_world st)) t r.
Proof.
  induction l as [|tok l IH]; intros st.
  - split; [reflexivity|]. intros i t Hi. destruct i; discriminate.
  - rewrite process_tokens_cons. simpl fst. simpl snd.
    destruct (process_token_evaluated d tok st) as [Hev Hw].
    destruct (IH (snd (process_token d tok st))) as [IHw IHi].
    split.
    + rewrite IHw, Hw. reflexivity.
    + intros [|i] t Hi.
      * injection Hi as <-. eexists. split; [reflexivity|]. exact Hev.
      * destruct (IHi i t Hi) as (r & Hr & He). exists r.
        split; [exact Hr|]. rewrite Hw in He. exact He.
Qed.

Lemma process_token_logged d tok (st : wf_state) :
  if resolvable tok then
    exists c,
      attach_log (snd (process_token d tok st)) = attach_log st ++ [c]
      /\ logged d (fst (process_token d tok st)) c
  else attach_log (snd (process_token d tok st)) = attach_log st.
Proof.
  unfold resolvable, process_token, call_addFeatureToDisease.
  destruct (truthy (canonical_feature_id tok)) as [fid|] eqn:Hfid;
    [|reflexivity].
  destruct (Api.addFeatureToDisease _ _ _ _) as [r w']. simpl.
  eexists. split; [reflexivity|].
  unfold logged, carries. simpl. repeat split; auto.
Qed.

(** The log grows by one call for each element that stands for a token with
    a canonical feature id, and the element tells how that call ended. *)
Lemma process_tokens_logged d l : forall (st : wf_state),
  exists calls,
    attach_log (snd (process_tokens d l st)) = attach_log st ++ calls
    /\ List.Forall2 (logged d)
         (List.filter (fun r => resolvable (rt_token r))
            (fst (process_tokens d l st)))
         calls.
Proof.
  induction l as [|tok l IH]; intros st.
  - exists []. simpl. rewrite app_nil_r. split; [reflexivity | constructor].
  - rewrite process_tokens_cons. simpl fst. simpl snd.
    destruct (IH (snd (process_token d tok st))) as (calls & -> & Hc).
    simpl List.filter. rewrite process_token_token.
    pose proof (process_token_logged d tok st) as Ht.
    destruct (resolvable tok).
    + destruct Ht as (c & -> & Hl). exists (c :: calls).
      rewrite <- app_assoc. split; [reflexivity|]. now constructor.
    + rewrite Ht. exists calls. auto.
Qed.

(** Claim C1.  If the attach call of one token fails, the failure is
    recorded on the element of that token ([added] is false, [addError] is
    the message of the error), and the loop goes on.  The call returns
    normally and the hook holds no error; there is one element per parsed
    token, in the order of the tokens; every token, those after the failing
    one included, is evaluated in the world the attach calls before it have
    left: with a canonical feature id its attach call is made there and
    [added] and [addError] tell how that call ended, without one the token
    is marked for manual creation.  The database ends in the world after all
    these calls, and the log holds one call for each element with a
    canonical feature id, in order, with the outcome the element shows. *)
Theorem C1_attach_failure_is_recorded_and_the_loop_goes_on
  d diseaseId tokenString (st : wf_state) pre tok post fid e :
  is_empty (trim tokenString) = false ->
  truthy diseaseId = Some d ->
  let parsed := call_parseMedicalTokens tokenString (entered st) in
  res_error (fst parsed) = None ->
  res_data (fst parsed) = Some (pre ++ tok :: post) ->
  truthy (canonical_feature_id tok) = Some fid ->
  let tokens := pre ++ tok :: post in
  let w0 := wf_world (snd parsed) in
  res_error (fst (Api.addFeatureToDisease d fid (featureDetails tok)
                    (world_after d pre w0))) = Some e ->
  let out := processTokenInput diseaseId tokenString st in
  fst out = Normal tt
  /\ error (snd out) = None
  /\ map rt_token (results (snd out)) = tokens
  /\ results (snd out) !! List.length pre
     = Some {| rt_token := tok; added := false;
               addError := Some (message e);
               needsManualCreation := None |}
  /\ (forall (i : nat) t, tokens !! i = Some t ->
        exists r, results (snd out) !! i = Some r
                  /\ evaluated d (world_after d (take i tokens) w0) t r)
  /\ wf_world (snd out) = world_after d tokens w0
  /\ exists calls,
       attach_log (snd out) = attach_log st ++ calls
       /\ List.Forall2 (logged d)
            (List.filter (fun r => resolvable (rt_token r))
               (results (snd out)))
            calls.
Proof.
  intros Hne Hd parsed Hp Hdata Hfid tokens w0 He out.
  unfold out. rewrite (processTokenInput_parsed d) by assumption.
  fold parsed. rewrite Hdata. fold tokens. simpl.
  destruct (process_tokens_evaluated d tokens (snd parsed)) as [Hw Hall].
  fold w0 in Hw, Hall.
  split; [reflexivity|]. split.
  { destruct (process_tokens_cells d tokens (snd parsed)) as (_ & _ & ->).
    destruct (parse_cells tokenString (entered st)) as (_ & _ & Herr).
    fold parsed in Herr. now rewrite Herr. }
  split; [apply process_tokens_tokens|].
  split.
  { destruct (Hall (List.length pre) tok) as (r & Hr & Hrt & Hev).
    - unfold tokens. now rewrite list_lookup_middle.
    - rewrite Hr. f_equal. unfold tokens in Hev.
      rewrite take_app_length in Hev. rewrite Hfid in Hev. simpl in Hev.
      rewrite He in Hev. destruct Hev as (Ha & Hm & Hn).
      destruct r; simpl in *; congruence. }
  split; [exact Hall|]. split; [exact Hw|].
  destruct (process_tokens_logged d tokens (snd parsed))
    as (calls & Hlog & Hc).
  exists calls. split; [|exact Hc].
  rewrite Hlog. unfold parsed. now rewrite parse_log.
Qed.

(** Claim C4, in the form that holds of the code.  When parsing succeeds,
    the workflow makes one attach call for each token with a canonical
    feature id, in order, to the given disease and that feature; the call
    carries the presence flag of the token and, as value text, the value
    modifier of the token as it is (the glyph, or the operator alone), or
    [null] when the modifier is missing or empty; typicality and weight are
    the defaults. *)
Theorem C4_attach_call_carries_presence_and_modifier
  d diseaseId tokenString (st : wf_state) tokens :
  is_empty (trim tokenString) = false ->
  truthy diseaseId = Some d ->
  let parsed := call_parseMedicalTokens tokenString (entered st) in
  res_error (fst parsed) = None ->
  res_data (fst parsed) = Some tokens ->
  exists calls,
    attach_log (snd (processTokenInput diseaseId tokenString st))
    = attach_log st ++ calls
    /\ List.Forall2 (carries d) (List.filter resolvable tokens) calls.
Proof.
  intros Hne Hd parsed Hp Hdata.
  rewrite (processTokenInput_parsed d) by assumption.
  fold parsed. rewrite Hdata. simpl.
  destruct (process_tokens_log d tokens (snd parsed)) as (calls & -> & Hc).
  exists calls. split; [|exact Hc].
  unfold parsed. now rewrite parse_log.
Qed.

(** Claim C9, in the form that holds of the code.  For every string
    [tokenString], [processTokenInput] never throws.  Without a disease id
    (or on blank input) it returns at once and the state is as before.  When
    parsing fails the error becomes the error of the hook, the results are
    empty and no attach call is made.  When parsing succeeds the hook holds
    no error and there is one element per token, in order; a token with a
    canonical feature id has its attach call made in the world the calls
    before it have left, and its element carries the outcome of that call
    ([added] is false and [addError] is the message exactly when the call
    failed); a token without one is not attached and is marked
    [needsManualCreation].  The database ends in the world after these
    calls, and the log holds exactly these calls, in order. *)
Theorem C9_failures_are_state_never_exceptions
  diseaseId tokenString (st : wf_state) :
  let out := processTokenInput diseaseId tokenString st in
  let parsed := call_parseMedicalTokens tokenString (entered st) in
  fst out = Normal tt
  /\ (is_empty (trim tokenString) = true \/ truthy diseaseId = None ->
      snd out = st)
  /\ (forall e,
        is_empty (trim tokenString) = false -> truthy diseaseId <> None ->
        res_error (fst parsed) = Some e ->
        error (snd out) = Some e /\ results (snd out) = []
        /\ attach_log (snd out) = attach_log st)
  /\ (forall d,
        is_empty (trim tokenString) = false -> truthy diseaseId = Some d ->
        res_error (fst parsed) = None ->
        let tokens :=
          match res_data (fst parsed) with Some l => l | None => [] end in
        let w0 := wf_world (snd parsed) in
        error (snd out) = None
        /\ map rt_token (results (snd out)) = tokens
        /\ (forall (i : nat) t, tokens !! i = Some t ->
              exists r, results (snd out) !! i = Some r
                        /\ evaluated d (world_after d (take i tokens) w0) t r)
        /\ wf_world (snd out) = world_after d tokens w0
        /\ exists calls,
             attach_log (snd out) = attach_log st ++ calls
             /\ List.Forall2 (logged d)
                  (List.filter (fun r => resolvable (rt_token r))
                     (results (snd out)))
                  calls).
Proof.
  intros out parsed. unfold out.
  destruct (is_empty (trim tokenString)) eqn:Hne.
  { rewrite processTokenInput_guard by auto.
    repeat split; auto; intros; discriminate. }
  destruct (truthy diseaseId) as [d|] eqn:Hd.
  2:{ rewrite processTokenInput_guard by auto.
      repeat split; auto; intros; congruence. }
  destruct (res_error (fst parsed)) as [e|] eqn:He.
  - rewrite (processTokenInput_parse_failed d _ _ _ e) by assumption.
    simpl. split; [reflexivity|]. split; [intros [|]; discriminate|].
    split; [|intros; discriminate].
    intros e' _ _ [= <-]. repeat split. now rewrite parse_log.
  - rewrite (processTokenInput_parsed d) by assumption. fold parsed. simpl.
    split; [reflexivity|]. split; [intros [|]; discriminate|].
    split; [intros; discriminate|].
    intros d' _ [= <-] _.
    set (tokens := match res_data (fst parsed) with
                   | Some l => l | None => [] end).
    destruct (process_tokens_evaluated d tokens (snd parsed)) as [Hw Hall].
    split; [|split; [|split; [|split]]].
    + destruct (process_tokens_cells d tokens (snd parsed)) as (_ & _ & ->).
      destruct (parse_cells tokenString (entered st)) as (_ & _ & Herr).
      fold parsed in Herr. now rewrite Herr.
    + apply process_tokens_tokens.
    + exact Hall.
    + exact Hw.
    + destruct (process_tokens_logged d tokens (snd parsed))
        as (calls & Hlog & Hc).
      exists calls. split; [|exact Hc].
      rewrite Hlog. unfold parsed. now rewrite parse_log.
Qed.

End WorkflowFacts.

(** ** The properties at concrete inputs *)
Section Examples.
Import JS Supabase Fixtures.

#[local] Existing Instance counting_client.

(** *** Workflow *)

Lemma C1_witness :
  (is_empty (trim (lit "x")) = false
   /\ Workflow.truthy (Some (lit "d1")) = Some (lit "d1")
   /\ res_data (fst (Workflow.call_parseMedicalTokens (lit "x")
                       (Workflow.entered fresh_hook)))
      = Some ([tok_ferritin] ++ tok_dyspnea :: [tok_mcv; tok_unknown])
   /\ res_error (fst (Api.addFeatureToDisease (lit "d1") (lit "f-dyspnea")
                        (Workflow.featureDetails tok_dyspnea)
                        (Workflow.world_after (lit "d1") [tok_ferritin]
                           (1%nat : @world counting_client))))
      = Some boom)
  /\ (fst (Workflow.processTokenInput (Some (lit "d1")) (lit "x")
             fresh_hook) = Workflow.Normal tt
      /\ Workflow.results
           (snd (Workflow.processTokenInput (Some (lit "d1")) (lit "x")
                   fresh_hook)) !! 1%nat
         = Some {| Workflow.rt_token := tok_dyspnea;
                   Workflow.added := false;
                   Workflow.addError := Some (lit "boom");
                   Workflow.needsManualCreation := None |}
      /\ map Workflow.added
           (Workflow.results
              (snd (Workflow.processTokenInput (Some (lit "d1")) (lit "x")
                      fresh_hook)))
         = [true; false; true; false]
      /\ Workflow.wf_world
           (snd (Workflow.processTokenInput (Some (lit "d1")) (lit "x")
                   fresh_hook)) = 4%nat).
Proof.
  split; [repeat split; reflexivity|].
  pose proof (C1_attach_failure_is_recorded_and_the_loop_goes_on
                (lit "d1") (Some (lit "d1")) (lit "x") fresh_hook
                [tok_ferritin] tok_dyspnea [tok_mcv; tok_unknown]
                (lit "f-dyspnea") boom
                eq_refl eq_refl eq_refl eq_refl eq_refl eq_refl)
    as (Hn & _ & _ & Hfail & _ & Hw & _).
  split; [exact Hn|]. split; [exact Hfail|].
  split; [reflexivity | exact Hw].
Defined.

Lemma C4_witness :
  exists calls,
    Workflow.attach_log
      (snd (Workflow.processTokenInput (Some (lit "d1")) (lit "x")
              fresh_hook))
    = [] ++ calls
    /\ List.Forall2 (Workflow.carries (lit "d1"))
         [tok_ferritin; tok_dyspnea; tok_mcv] calls.
Proof.
  exact (C4_attach_call_carries_presence_and_modifier
           (lit "d1") (Some (lit "d1")) (lit "x") fresh_hook
           [tok_ferritin; tok_dyspnea; tok_mcv; tok_unknown]
           eq_refl eq_refl eq_refl eq_refl).
Defined.

(** The token [MCV<80] resolves, and the value text sent with it is the
    operator alone. *)
Lemma C4_counterexample :
  map (fun c => (Workflow.ac_feature c, value_text (Workflow.ac_details c)))
      (Workflow.attach_log
         (snd (Workflow.processTokenInput (Some (lit "d1")) (lit "x")
                 fresh_hook)))
  = [(lit "f-ferritin", Some [ch_down]); (lit "f-dyspnea", None);
     (lit "f-mcv", Some (lit "<"))]
  /\ Workflow.spec_value_text tok_mcv = Some (lit "<80")
  /\ Some (lit "<") <> Workflow.spec_value_text tok_mcv.
Proof. split; [reflexivity|]. split; [reflexivity | discriminate]. Qed.

Lemma C9_witness :
  Workflow.truthy (None : option jsstring) = None
  /\ snd (Workflow.processTokenInput None (lit "x") fresh_hook) = fresh_hook
  /\ res_error (fst (Workflow.call_parseMedicalTokens (lit "fail")
                       (Workflow.entered fresh_hook))) = Some boom
  /\ Workflow.error
       (snd (Workflow.processTokenInput (Some (lit "d1")) (lit "fail")
               fresh_hook)) = Some boom
  /\ Workflow.results
       (snd (Workflow.processTokenInput (Some (lit "d1")) (lit "fail")
               fresh_hook)) = []
  /\ map Workflow.rt_token
       (Workflow.results
          (snd (Workflow.processTokenInput (Some (lit "d1")) (lit "x")
                  fresh_hook)))
     = [tok_ferritin; tok_dyspnea; tok_mcv; tok_unknown]
  /\ Workflow.wf_world
       (snd (Workflow.processTokenInput (Some (lit "d1")) (lit "x")
               fresh_hook)) = 4%nat.
Proof.
  pose proof (C9_failures_are_state_never_exceptions None (lit "x") fresh_hook)
    as (_ & Hguard & _).
  pose proof (C9_failures_are_state_never_exceptions
                (Some (lit "d1")) (lit "fail") fresh_hook)
    as (_ & _ & Hparse & _).
  pose proof (C9_failures_are_state_never_exceptions
                (Some (lit "d1")) (lit "x") fresh_hook)
    as (_ & _ & _ & Hrun).
  split; [reflexivity|]. split; [apply Hguard; right; reflexivity|].
  split; [reflexivity|].
  assert (Hd : Workflow.truthy (Some (lit "d1")) <> None) by discriminate.
  destruct (Hparse boom eq_refl Hd eq_refl) as (He & Hr & _).
  split; [exact He|]. split; [exact Hr|].
  destruct (Hrun (lit "d1") eq_refl eq_refl eq_refl)
    as (_ & Htok & _ & Hw & _).
  split; [exact Htok | exact Hw].
Defined.

(** Without a disease id the call returns and nothing has happened; with a
    failing parse the call returns as well, the error is the error of the
    hook and no token is reported. *)
Lemma C9_counterexample :
  Workflow.processTokenInput None (lit "x") fresh_hook
  = (Workflow.Normal tt, fresh_hook)
  /\ Workflow.processTokenInput (Some (lit "d1")) (lit "fail") fresh_hook
     = (Workflow.Normal tt,
        {| Workflow.processing := false; Workflow.results := [];
           Workflow.error := Some boom; Workflow.wf_world := 1%nat;
           Workflow.attach_log := [] |}).
Proof. split; reflexivity. Qed.

(** *** Debounced search *)

Lemma C5_witness :
  Debounce.elapsed [Debounce.Wait 100 : Debounce.event jsstring] < 300
  /\ (forall evs3,
        ~ In 0%nat
            (Debounce.ids
               (Debounce.delivered
                  (Debounce.run echo_search 300 evs3
                     (Debounce.run echo_search 300
                        [Debounce.Call (lit "a"); Debounce.Wait 100;
                         Debounce.Call (lit "ab")]
                        (Debounce.createDebouncedSearch 0%nat))))))
  /\ Debounce.delivered
       (Debounce.run echo_search 300
          [Debounce.Call (lit "a"); Debounce.Wait 100;
           Debounce.Call (lit "ab"); Debounce.Wait 300;
           Debounce.Fire 1; Debounce.Settle 1]
          (Debounce.createDebouncedSearch 0%nat))
     = [(1%nat, Debounce.Resolved (lit "ab"))].
Proof.
  pose proof (C5_superseded_call_is_never_delivered echo_search 300
                [] (lit "a") [Debounce.Wait 100] (lit "ab") 0%nat eq_refl)
    as [Hdrop _].
  split; [reflexivity|]. split; [|reflexivity].
  intros evs3. exact (proj2 (proj2 (Hdrop evs3))).
Defined.

(** *** Caches *)

Lemma C10_witness :
  (BackendService.cache (@BackendService.new_service counting_client)
     !! BackendService.search_key (lit "fail") 10 = None
   /\ rpc_failed (fst (rpc_search_features_advanced (lit "fail") 10 0%nat))
      = true)
  /\ snd (fst (BackendService.searchFeatures (lit "fail") None
                 (@BackendService.new_service counting_client) 0%nat))
     = BackendService.new_service
  /\ error_free
       (BackendService.cache
          (fst (BackendService.op_run
                  [BackendService.Search (lit "fail") None;
                   BackendService.Stats (lit "fail");
                   BackendService.Stats (lit "d1")]
                  fresh_service))).
Proof.
  pose proof (@C10_failed_lookup_is_not_cached counting_client)
    as (Hsearch & _ & _ & Hrun & _).
  split; [split; reflexivity|]. split.
  - apply (Hsearch (lit "fail") None BackendService.new_service 0%nat);
      reflexivity.
  - apply Hrun.
Defined.

Lemma C6_witness :
  forallb (fun o => negb (Api.is_qp_clear o))
    [Api.QpElapse (10 * BackendService.CACHE_TTL_MS); Api.QpGet (lit "d2")]
  = true
  /\ fst (fst (Api.getCachedDiseaseStats (lit "d1")
                 (fst (Api.qp_run
                         [Api.QpElapse (10 * BackendService.CACHE_TTL_MS);
                          Api.QpGet (lit "d2")]
                         (stored_peek, 1%nat)))
                 (snd (Api.qp_run
                         [Api.QpElapse (10 * BackendService.CACHE_TTL_MS);
                          Api.QpGet (lit "d2")]
                         (stored_peek, 1%nat)))))
     = {| res_data := Some 0%nat; res_error := None |}
  /\ BackendService.cache
       (BackendService.run_timer 0
          (fst (BackendService.op_run
                  [BackendService.Search (lit "dys") None;
                   BackendService.Elapse BackendService.CACHE_TTL_MS]
                  fresh_service)))
     !! BackendService.search_key (lit "dys") 10 = None.
Proof.
  pose proof (@C6_search_entries_expire_quick_peek_entries_do_not
                counting_client)
    as (_ & Htimer & Hpeek).
  split; [reflexivity|]. split.
  - exact (f_equal (fun x => fst (fst x))
             (Hpeek
                [Api.QpElapse (10 * BackendService.CACHE_TTL_MS);
                 Api.QpGet (lit "d2")]
                stored_peek 1%nat (lit "d1")
                {| res_data := Some (0%nat : @row counting_client);
                   res_error := None |} eq_refl eq_refl)).
  - apply (Htimer 0%nat
             (fst (BackendService.op_run
                     [BackendService.Search (lit "dys") None;
                      BackendService.Elapse BackendService.CACHE_TTL_MS]
                     fresh_service))
             BackendService.CACHE_TTL_MS
             (BackendService.search_key (lit "dys") 10)).
    + reflexivity.
    + vm_compute. discriminate.
Defined.

(** A statistics result stored at time 0 is served a thousand lifetimes
    later, and the database is not asked again: the world still counts one
    call. *)
Lemma C6_counterexample :
  Api.qp_run [Api.QpGet (lit "d1");
              Api.QpElapse (1000 * BackendService.CACHE_TTL_MS)]
    (@Api.quick_peek_init counting_client, 0%nat)
  = ({| Api.quickPeekCache :=
          {[ lit "d1" := {| res_data := Some 0%nat; res_error := None |} ]};
        Api.qp_clock := 300000000 |}, 1%nat)
  /\ fst (fst (Api.getCachedDiseaseStats (lit "d1")
                 {| Api.quickPeekCache :=
                      {[ lit "d1" :=
                           {| res_data := Some 0%nat; res_error := None |} ]};
                    Api.qp_clock := 300000000 |} 1%nat))
     = {| res_data := Some 0%nat; res_error := None |}
  /\ snd (Api.getCachedDiseaseStats (lit "d1")
            {| Api.quickPeekCache :=
                 {[ lit "d1" :=
                      {| res_data := Some 0%nat; res_error := None |} ]};
               Api.qp_clock := 300000000 |} 1%nat)
     = 1%nat.
Proof. split; [reflexivity|]. split; reflexivity. Qed.

End Examples.

(** ** Fragments of the tokenizer *)
Section FragmentFacts.
Import JS Tokenizer Fragments.

Lemma parse_loop_nonempties l :
  parse_loop l = map parse_fragment (nonempties l).
Proof.
  induction l as [|f l IH]; [reflexivity|].
  simpl. destruct f; simpl; now rewrite IH.
Qed.

Lemma parseTokensClient_words s :
  parseTokensClient s = map parse_fragment (words s).
Proof. apply parse_loop_nonempties. Qed.

Lemma split_ws_from_cons b s :
  split_ws_from b s = hd [] (split_ws_from b s) :: tl (split_ws_from b s).
Proof.
  revert b. induction s as [|c r IH]; intros b; [reflexivity|]. simpl.
  destruct (is_space c).
  - destruct b; [apply IH | reflexivity].
  - rewrite (IH false). reflexivity.
Qed.

Lemma split_ws_from_nonspace b c r :
  is_space c = false ->
  split_ws_from b (c :: r) =
  (c :: hd [] (split_ws_from false r)) :: tl (split_ws_from false r).
Proof.
  intros Hc. simpl. rewrite Hc, (split_ws_from_cons false r). reflexivity.
Qed.

(** Whether a run of white space is open makes no difference to the
    fragments that are not empty. *)
Lemma nonempties_split_run s :
  nonempties (split_ws_from true s) = nonempties (split_ws_from false s).
Proof.
  destruct s as [|c r]; [reflexivity|]. simpl.
  destruct (is_space c); reflexivity.
Qed.

Lemma nonempties_split_space b c r :
  is_space c = true ->
  nonempties (split_ws_from b (c :: r)) = nonempties (split_ws_from false r).
Proof.
  intros Hc. simpl. rewrite Hc. destruct b; simpl; apply nonempties_split_run.
Qed.

Lemma nonempties_split_spaces b sep r :
  forallb is_space sep = true ->
  nonempties (split_ws_from b (sep ++ r)) = nonempties (split_ws_from b r).
Proof.
  revert b. induction sep as [|c sep IH]; intros b Hs; [reflexivity|].
  simpl in Hs. apply andb_true_iff in Hs. destruct Hs as [Hc Hs].
  rewrite <- app_comm_cons, (nonempties_split_space b c _ Hc), (IH false Hs).
  destruct b; [symmetry; apply nonempties_split_run | reflexivity].
Qed.

Lemma split_append a sp sep b :
  is_space sp = true -> forallb is_space sep = true ->
  hd [] (split_ws_from false (a ++ sp :: sep ++ b))
  = hd [] (split_ws_from false a)
  /\ nonempties (tl (split_ws_from false (a ++ sp :: sep ++ b)))
     = nonempties (tl (split_ws_from false a))
       ++ nonempties (split_ws_from false b).
Proof.
  intros Hsp Hsep. induction a as [|c a IH].
  - simpl. rewrite Hsp. simpl. split; [reflexivity|].
    rewrite (nonempties_split_spaces true sep b Hsep).
    apply nonempties_split_run.
  - destruct IH as [IHh IHt]. rewrite <- app_comm_cons.
    destruct (is_space c) eqn:Hc.
    + simpl. rewrite Hc. simpl. split; [reflexivity|].
      rewrite !nonempties_split_run.
      rewrite (split_ws_from_cons false (a ++ sp :: sep ++ b)).
      rewrite (split_ws_from_cons false a) at 1.
      unfold nonempties in *. simpl. rewrite IHh, IHt.
      destruct (negb (is_empty (hd [] (split_ws_from false a)))); reflexivity.
    + rewrite !(split_ws_from_nonspace false c _ Hc). simpl.
      rewrite IHh. split; [reflexivity | exact IHt].
Qed.

Lemma nonempties_split_append a sep b :
  sep <> [] -> forallb is_space sep = true ->
  nonempties (split_ws (a ++ sep ++ b))
  = nonempties (split_ws a) ++ nonempties (split_ws b).
Proof.
  intros Hne Hsep. destruct sep as [|sp sep]; [congruence|].
  simpl in Hsep. apply andb_true_iff in Hsep. destruct Hsep as [Hsp Hsep].
  destruct (split_append a sp sep b Hsp Hsep) as [Hh Ht].
  unfold split_ws. rewrite <- app_comm_cons.
  rewrite (split_ws_from_cons false (a ++ sp :: sep ++ b)).
  rewrite (split_ws_from_cons false a) at 1.
  unfold nonempties in *. simpl. rewrite Hh, Ht.
  destruct (negb (is_empty (hd [] (split_ws_from false a)))); reflexivity.
Qed.

Lemma trimStart_spaces s :
  exists sp, forallb is_space sp = true /\ s = sp ++ trimStart s.
Proof.
  induction s as [|c r IH]; [exists []; auto|]. simpl.
  destruct (is_space c) eqn:Hc.
  - destruct IH as (sp & Hsp & Hr). exists (c :: sp). simpl.
    rewrite Hc, Hsp. split; [reflexivity|]. now rewrite <- Hr.
  - exists []. auto.
Qed.

Lemma trimEnd_spaces s :
  exists sp, forallb is_space sp = true /\ s = trimEnd s ++ sp.
Proof.
  destruct (trimStart_spaces (rev s)) as (sp & Hsp & Hr).
  exists (rev sp). split.
  - rewrite forallb_forall in *. intros x Hx. apply Hsp. now apply in_rev.
  - unfold trimEnd. rewrite <- rev_app_distr, <- Hr. symmetry.
    apply rev_involutive.
Qed.

(** [trim] changes nothing for the fragments that are not empty. *)
Lemma words_split s : words s = nonempties (split_ws s).
Proof.
  unfold words, trim.
  destruct (trimStart_spaces s) as (sp1 & Hsp1 & Hs1).
  destruct (trimEnd_spaces (trimStart s)) as (sp2 & Hsp2 & Hs2).
  rewrite Hs1 at 2. unfold split_ws.
  rewrite (nonempties_split_spaces false sp1 _ Hsp1).
  rewrite Hs2 at 2.
  destruct sp2 as [|c sp2]; [now rewrite app_nil_r|].
  rewrite <- (app_nil_r (c :: sp2)).
  pose proof (nonempties_split_append (trimEnd (trimStart s)) (c :: sp2) [])
    as H.
  unfold split_ws in H. rewrite H by (auto; discriminate).
  simpl. now rewrite app_nil_r.
Qed.

Lemma words_append a sep b :
  sep <> [] -> forallb is_space sep = true ->
  words (a ++ sep ++ b) = words a ++ words b.
Proof. intros. rewrite !words_split. now apply nonempties_split_append. Qed.

(** X1.  [parseTokensClient] distributes over white space: the tokens of
    two inputs joined by a non-empty run of white space are the tokens of
    the first followed by the tokens of the second. *)
Theorem X1_tokenize_distributes_over_white_space a sep b :
  sep <> [] -> forallb is_space sep = true ->
  parseTokensClient (a ++ sep ++ b)
  = parseTokensClient a ++ parseTokensClient b.
Proof.
  intros Hne Hsep. rewrite !parseTokensClient_words.
  rewrite (words_append a sep b Hne Hsep). apply map_app.
Qed.

Lemma nonempties_split_blank s :
  nonempties (split_ws s) = [] <-> forallb is_space s = true.
Proof.
  unfold split_ws. split.
  - induction s as [|c r IH]; [reflexivity|]. simpl.
    destruct (is_space c) eqn:Hc.
    + intros H. apply IH. rewrite <- nonempties_split_run. exact H.
    + rewrite (split_ws_from_cons false r). discriminate.
  - intros H. rewrite <- (app_nil_r s).
    now rewrite (nonempties_split_spaces false s [] H).
Qed.

(** X2.  [parseTokensClient] returns no token exactly for the inputs that
    consist of white space only, the empty input among them. *)
Theorem X2_no_token_iff_blank s :
  parseTokensClient s = [] <-> forallb is_space s = true.
Proof.
  rewrite parseTokensClient_words, words_split, <- nonempties_split_blank.
  destruct (nonempties (split_ws s)); simpl; split; congruence.
Qed.

Lemma words_fragments s :
  List.Forall (fun f => f <> [] /\ ws_free f) (words s).
Proof.
  rewrite words_split. unfold nonempties, split_ws.
  apply List.Forall_forall. intros f Hf. apply List.filter_In in Hf.
  destruct Hf as [Hin Hne]. split.
  - destruct f; [discriminate | discriminate].
  - pose proof (split_ws_from_fragments false s) as H.
    rewrite List.Forall_forall in H. now apply H.
Qed.

Lemma words_join l :
  List.Forall (fun f => f <> [] /\ ws_free f) l ->
  words (join_space l) = l.
Proof.
  induction l as [|f l IH]; intros H; [reflexivity|].
  inversion H as [|? ? [Hne Hws] Hl]; subst.
  assert (Hf : words f = [f]).
  { rewrite words_split. unfold split_ws.
    rewrite (split_ws_ws_free f Hws). destruct f; [congruence | reflexivity]. }
  destruct l as [|g l]; [exact Hf|].
  change (join_space (f :: g :: l)) with (f ++ [32] ++ join_space (g :: l)).
  rewrite words_append by (auto; discriminate).
  now rewrite Hf, (IH Hl).
Qed.

(** X3.  The [original] fields are the non-empty fragments of the input,
    in order, and joining them with single spaces gives an input with the
    same tokens: the amount and kind of white space does not matter. *)
Theorem X3_rejoined_originals_tokenize_alike s :
  map original (parseTokensClient s) = words s
  /\ parseTokensClient (join_space (map original (parseTokensClient s)))
     = parseTokensClient s.
Proof.
  assert (Ho : map original (parseTokensClient s) = words s).
  { rewrite parseTokensClient_words, map_map.
    erewrite map_ext; [apply map_id|]. apply original_parse_fragment. }
  split; [exact Ho|].
  rewrite Ho, (parseTokensClient_words (join_space _)).
  rewrite (words_join _ (words_fragments s)).
  symmetry. apply parseTokensClient_words.
Qed.

Lemma strip_sign_sign_of f :
  f = sign_of f ++ snd (strip_sign f)
  /\ fst (strip_sign f) = negb (startsWith f ch_minus).
Proof.
  unfold strip_sign, sign_of. destruct f as [|c r]; [split; reflexivity|].
  simpl. destruct (c =? ch_plus) eqn:Hp; simpl.
  - apply N.eqb_eq in Hp. subst c. split; reflexivity.
  - destruct (c =? ch_minus); split; reflexivity.
Qed.

Lemma endsWith_app_snoc a body g c :
  endsWith (a ++ body ++ [g]) c = (g =? c).
Proof. rewrite app_assoc. apply endsWith_snoc. Qed.

Lemma all_digits_last ds :
  all_digits ds = true ->
  exists body x, ds = body ++ [x] /\ is_digit x = true.
Proof.
  unfold all_digits. intros Hd. apply andb_true_iff in Hd.
  destruct Hd as [Hne Hall].
  destruct (exists_last (l := ds)) as (body & x & ->).
  { intros ->. discriminate. }
  exists body, x. split; [reflexivity|].
  rewrite forallb_app in Hall. apply andb_true_iff in Hall.
  destruct Hall as [_ Hx]. simpl in Hx. now rewrite andb_true_r in Hx.
Qed.

Lemma digit_not_glyph x :
  is_digit x = true -> (x =? ch_up) = false /\ (x =? ch_down) = false.
Proof.
  unfold is_digit, ch_up, ch_down. intros Hx. apply andb_true_iff in Hx.
  destruct Hx as [_ Hx]. apply N.leb_le in Hx.
  split; apply N.eqb_neq; lia.
Qed.

Lemma glyph_of_digits a ds :
  all_digits ds = true -> glyph_of (a ++ ds) = [].
Proof.
  intros Hd. destruct (all_digits_last ds Hd) as (body & x & -> & Hx).
  destruct (digit_not_glyph x Hx) as [Hu Hdn].
  unfold glyph_of. now rewrite !endsWith_app_snoc, Hu, Hdn.
Qed.

Lemma glyph_of_snoc a body g :
  g = ch_up \/ g = ch_down -> glyph_of (a ++ body ++ [g]) = [g].
Proof.
  unfold glyph_of. rewrite !endsWith_app_snoc.
  intros [-> | ->]; reflexivity.
Qed.

(** X4.  A token accounts for its fragment: [original] is the sign in front
    of the fragment (its first character, when that is [+] or [-]), then
    [cleanToken], then the text of the modifier (the glyph, or the operator
    and the digits), then nothing more, except for the directional glyph at
    the end of the fragment when a comparison has overridden it.  [isPresent]
    is false exactly when the fragment starts with [-]. *)
Theorem X4_original_decomposes input t :
  In t (parseTokensClient input) ->
  original t
  = sign_of (original t) ++ cleanToken t ++ modifier_text t
    ++ overridden_glyph t
  /\ isPresent t = negb (startsWith (original t) ch_minus).
Proof.
  intros Hin.
  destruct (parseTokensClient_In _ _ Hin) as (f & _ & _ & ->).
  unfold overridden_glyph. rewrite original_parse_fragment.
  destruct (strip_sign_sign_of f) as [Hf Hp].
  unfold parse_fragment.
  destruct (strip_sign f) as [p s1]. simpl in Hf, Hp. subst p.
  destruct (strip_arrow s1) as [vm s2] eqn:Ha.
  destruct (comparison_match s2) as [[[w op] ds]|] eqn:Hc.
  - apply comparison_match_spec in Hc. destruct Hc as (Hs2 & _ & Ho & Hd).
    unfold modifier_text, comparison. simpl. rewrite Ho, Hd. simpl.
    split; [|reflexivity].
    destruct (strip_arrow_cases s1) as [(g & Hg & Hs1 & _) | (Hn & _)];
      rewrite Ha in *; simpl in *.
    + rewrite Hf at 3. rewrite Hs1, glyph_of_snoc by exact Hg.
      rewrite Hf at 1. rewrite Hs1, Hs2. now rewrite <- !app_assoc.
    + injection Hn as _ ->. rewrite Hf at 3. rewrite Hs2.
      rewrite !app_assoc, glyph_of_digits by exact Hd.
      rewrite app_nil_r, <- !app_assoc. rewrite Hf at 1. now rewrite Hs2.
  - unfold modifier_text, comparison. simpl. split; [|reflexivity].
    destruct (strip_arrow_cases s1) as [(g & Hg & Hs1 & Hv) | (Hn & _)];
      rewrite Ha in *; simpl in *.
    + subst vm. simpl. rewrite ?app_nil_r. rewrite Hf at 1. now rewrite Hs1.
    + injection Hn as -> ->. simpl. now rewrite ?app_nil_r.
Qed.

End FragmentFacts.

(** ** The comparison pattern *)
Section ComparisonFacts.
Import JS Tokenizer.

Lemma all_digits_cons c r : all_digits (c :: r) = true ->
  is_digit c = true /\ forallb is_digit r = true.
Proof. unfold all_digits. simpl. intros H. now apply andb_true_iff in H. Qed.

Lemma operator_cases op :
  is_operator op = true ->
  op = [ch_lt] \/ op = [ch_lt; ch_eq] \/ op = [ch_gt] \/ op = [ch_gt; ch_eq].
Proof.
  unfold is_operator, operators. intros H. apply bool_decide_eq_true in H.
  rewrite !elem_of_cons in H. rewrite elem_of_nil in H. tauto.
Qed.

(** The operator and the digits are found where they begin. *)
Lemma match_op_digits_found op ds :
  is_operator op = true -> all_digits ds = true ->
  match_op_digits (op ++ ds) = Some (op, ds).
Proof.
  intros Ho Hd. destruct ds as [|d ds]; [discriminate|].
  destruct (all_digits_cons _ _ Hd) as [Hd1 _].
  assert (Hne : (d =? ch_eq) = false).
  { apply N.eqb_neq. intros ->. discriminate. }
  destruct (operator_cases op Ho) as [-> | [-> | [-> | ->]]]; simpl;
    rewrite ?Hne, ?Hd; reflexivity.
Qed.

Lemma all_digits_no_operator x op r :
  is_operator op = true -> all_digits (x ++ op ++ r) = false.
Proof.
  intros Ho. unfold all_digits. apply andb_false_iff. right.
  rewrite forallb_app. apply andb_false_iff. right.
  destruct (operator_cases op Ho) as [-> | [-> | [-> | ->]]]; reflexivity.
Qed.

(** Before the operator nothing matches. *)
Lemma match_op_digits_early c w op ds :
  is_operator op = true ->
  match_op_digits (c :: w ++ op ++ ds) = None.
Proof.
  intros Ho. unfold match_op_digits.
  destruct ((c =? ch_lt) || (c =? ch_gt)); [|reflexivity].
  destruct w as [|e w]; simpl.
  - destruct (operator_cases op Ho) as [-> | [-> | [-> | ->]]];
      reflexivity.
  - rewrite (all_digits_no_operator w op ds Ho), andb_false_r.
    pose proof (all_digits_no_operator (e :: w) op ds Ho) as H1.
    simpl in H1. rewrite H1. reflexivity.
Qed.

Lemma lazy_word_found w op ds :
  List.Forall (fun c => is_line_terminator c = false) w ->
  is_operator op = true -> all_digits ds = true ->
  lazy_word (w ++ op ++ ds) = Some (w, op, ds).
Proof.
  intros Hw Ho Hd. induction Hw as [|c w Hc Hw IH].
  - rewrite lazy_word_unfold. simpl.
    rewrite (match_op_digits_found op ds Ho Hd). reflexivity.
  - rewrite lazy_word_unfold. rewrite <- app_comm_cons.
    rewrite (match_op_digits_early c w op ds Ho), Hc, IH. reflexivity.
Qed.

Lemma comparison_match_found c w op ds :
  List.Forall (fun c => is_line_terminator c = false) (c :: w) ->
  is_operator op = true -> all_digits ds = true ->
  comparison_match ((c :: w) ++ op ++ ds) = Some (c :: w, op, ds).
Proof.
  intros Hw Ho Hd. inversion Hw as [|? ? Hc Hw']; subst.
  unfold comparison_match. rewrite <- app_comm_cons.
  rewrite Hc, (lazy_word_found w op ds Hw' Ho Hd). reflexivity.
Qed.

Lemma space_is_not_digit c : is_digit c = true -> is_space c = false.
Proof.
  unfold is_digit, is_space. intros H. apply andb_true_iff in H.
  destruct H as [H1 H2]. apply N.leb_le in H1, H2.
  repeat (apply orb_false_iff; split);
    try apply andb_false_iff; try (apply N.eqb_neq; lia);
    try (left; apply N.leb_gt; lia); try (right; apply N.leb_gt; lia).
Qed.

Lemma line_terminator_is_space c :
  is_space c = false -> is_line_terminator c = false.
Proof.
  unfold is_space, is_line_terminator. intros H.
  repeat (apply orb_false_iff in H; destruct H as [H ?]).
  apply andb_false_iff in H.
  repeat (apply orb_false_iff; split); try assumption;
    apply N.eqb_neq; intros ->; destruct H as [H|H]; discriminate.
Qed.

(** X5.  A sign, a non-empty word without white space, one of the four
    operators and a non-empty run of digits, written one after the other,
    parse back into exactly these parts, whatever characters the word
    holds. *)
Theorem X5_signed_comparison_parses_into_its_parts sign word op ds :
  sign = ch_plus \/ sign = ch_minus ->
  word <> [] -> ws_free word ->
  is_operator op = true -> all_digits ds = true ->
  parseTokensClient (sign :: word ++ op ++ ds)
  = [{| original := sign :: word ++ op ++ ds;
        cleanToken := word;
        isPresent := negb (sign =? ch_minus);
        valueModifier := JString op;
        numericValue := JString ds |}].
Proof.
  intros Hs Hne Hw Ho Hd.
  assert (Hds : List.Forall (fun c => is_digit c = true) ds).
  { unfold all_digits in Hd. apply andb_true_iff in Hd.
    destruct Hd as [_ Hd]. rewrite forallb_forall in Hd.
    now apply List.Forall_forall. }
  assert (Hfrag : ws_free (sign :: word ++ op ++ ds)).
  { unfold ws_free in *. constructor; [destruct Hs; subst; reflexivity|].
    apply List.Forall_app. split; [exact Hw|]. apply List.Forall_app. split.
    - destruct (operator_cases op Ho) as [-> | [-> | [-> | ->]]];
        repeat constructor.
    - eapply List.Forall_impl; [|exact Hds]. apply space_is_not_digit. }
  rewrite parseTokensClient_fragment by (auto; discriminate).
  f_equal. unfold parse_fragment.
  assert (Hsign : strip_sign (sign :: word ++ op ++ ds)
                  = (negb (sign =? ch_minus), word ++ op ++ ds)).
  { unfold strip_sign. simpl. destruct Hs; subst; reflexivity. }
  rewrite Hsign.
  assert (Harrow : strip_arrow (word ++ op ++ ds)
                   = (JNull, word ++ op ++ ds)).
  { destruct (exists_last (l := ds)) as (ds' & d & ->); [now destruct ds|].
    assert (Hdd : is_digit d = true).
    { rewrite List.Forall_forall in Hds. apply Hds.
      rewrite in_app_iff. simpl. auto. }
    unfold strip_arrow. rewrite !app_assoc, !endsWith_snoc.
    assert (d <> ch_up /\ d <> ch_down) as [H1 H2].
    { split; intros ->; discriminate. }
    apply N.eqb_neq in H1, H2. now rewrite H1, H2. }
  rewrite Harrow.
  destruct word as [|c w]; [congruence|].
  rewrite comparison_match_found; auto.
  eapply List.Forall_impl; [|exact Hw]. apply line_terminator_is_space.
Qed.

End ComparisonFacts.

(** ** Bookkeeping of the debounced search *)
Section DebounceMoreFacts.
Import Debounce DebounceMore.
Context {A R E W : Type}.
Variable searchFunction : A -> W -> settled R E * W.
Variable delay : N.

Abbreviation state := (Debounce.state A R E W).
Abbreviation step := (Debounce.step searchFunction delay).
Abbreviation run := (Debounce.run searchFunction delay).

Lemma orderly_init (w : W) : orderly (createDebouncedSearch w : state).
Proof.
  unfold orderly. simpl.
  split; [intros i []|]. split; [constructor|]. split; [intros i []|].
  split; [intros i [] | constructor].
Qed.

Lemma in_drop_call {X} i id (l : list (nat * X)) :
  In i (ids (drop_call id l)) <-> In i (ids l) /\ i <> id.
Proof.
  unfold ids, drop_call. rewrite !in_map_iff. split.
  - intros (p & <- & Hin). apply List.filter_In in Hin.
    destruct Hin as [Hin Hne].
    apply negb_true_iff, Nat.eqb_neq in Hne. split; [eauto | exact Hne].
  - intros ((p & <- & Hin) & Hne). exists p. split; [reflexivity|].
    apply List.filter_In. split; [exact Hin|].
    now apply negb_true_iff, Nat.eqb_neq.
Qed.

Lemma NoDup_snoc (l : list nat) x :
  List.NoDup l -> ~ In x l -> List.NoDup (l ++ [x]).
Proof.
  induction l as [|y l IH]; simpl; intros Hl Hx.
  - constructor; [intros [] | constructor].
  - inversion Hl as [|? ? Hy Hl']; subst. constructor.
    + rewrite in_app_iff. simpl. intros [H | [H | []]]; [auto|].
      apply Hx. left. now symmetry.
    + apply IH; [exact Hl'|]. intros H. apply Hx. now right.
Qed.

Lemma ids_snoc {X} (l : list (nat * X)) p : ids (l ++ [p]) = ids l ++ [fst p].
Proof. unfold ids. now rewrite map_app. Qed.

Lemma orderly_step s ev : inv s -> orderly s -> orderly (step s ev).
Proof.
  intros [Ht Hfresh] Ho. pose proof Ho as (Ha & Hb & Hc & Hd & He).
  destruct ev as [a|dt|id|id]; simpl.
  - unfold orderly; simpl. refine (conj _ (conj Hb (conj Hc (conj Hd He)))).
    intros i. unfold timer_ids. rewrite map_app, in_app_iff.
    intros [Hi | [<- | []]].
    + apply Ha. now apply clearTimeout_subset in Hi.
    + simpl. intros Hr.
      assert (next_id s < next_id s)%nat; [|lia].
      apply Hfresh. rewrite !in_app_iff. auto.
  - exact Ho.
  - destruct (find_due id (now s) (timers s)) as [t|] eqn:Hfd.
    2:{ exact Ho. }
    destruct (searchFunction (targs t) (lookup_world s)) as [r w'].
    apply find_due_Some in Hfd. destruct Hfd as (Hin & Hid & _).
    assert (Hnew : ~ In id (ids (reached s))).
    { apply Ha. rewrite <- Hid. now apply in_timer_ids. }
    unfold orderly; simpl. rewrite !ids_snoc. simpl. repeat split.
    + intros i Hi. rewrite in_app_iff. simpl. intros [Hr | [<- | []]].
      * apply in_timer_ids_filter in Hi. now apply (Ha i).
      * unfold timer_ids in Hi. rewrite in_map_iff in Hi.
        destruct Hi as (t' & Hid' & Hin'). apply List.filter_In in Hin'.
        destruct Hin' as [_ Hne]. rewrite Hid', Nat.eqb_refl in Hne.
        discriminate.
    + now apply NoDup_snoc.
    + intros i. rewrite !in_app_iff. simpl. intros [Hi | Hi]; auto.
    + rewrite in_app_iff. left. now apply Hd.
    + rewrite in_app_iff. simpl. intros [Hi | [<- | []]].
      * now apply (Hd i).
      * apply Hnew. now apply Hd.
    + exact He.
  - destruct (find_call id (inflight s)) as [p|] eqn:Hfc.
    2:{ exact Ho. }
    apply find_call_Some in Hfc. destruct Hfc as (Hin & Hid).
    assert (Hfl : In id (ids (inflight s))).
    { rewrite <- Hid. now apply in_ids. }
    unfold orderly; simpl. rewrite !ids_snoc. rewrite Hid. repeat split; auto.
    + intros i Hi. apply in_drop_call in Hi. apply Hc. tauto.
    + rewrite in_app_iff in H. destruct H as [Hi | [<- | []]]; auto.
      now apply Hd.
    + rewrite in_app_iff in H. rewrite in_drop_call.
      destruct H as [Hi | [<- | []]]; [|tauto].
      intros [Hi' _]. now apply (Hd i).
    + apply NoDup_snoc; [exact He|]. intros Hi. now apply (Hd id).
Qed.

Lemma orderly_run evs s : inv s -> orderly s -> orderly (run evs s).
Proof.
  revert s. induction evs as [|ev evs IH]; intros s Hi Ho; [exact Ho|].
  simpl. apply IH; [now apply inv_step | now apply orderly_step].
Qed.

Lemma next_id_run evs (s : state) :
  next_id (run evs s) = (next_id s + calls evs)%nat.
Proof.
  revert s. induction evs as [|ev evs IH]; intros s; [simpl; lia|].
  change (run (ev :: evs) s) with (run evs (step s ev)). rewrite IH.
  destruct ev as [a|dt|id|id]; simpl; try lia.
  - destruct (find_due id (now s) (timers s)); [|lia].
    destruct (searchFunction _ _). simpl. lia.
  - destruct (find_call id (inflight s)); simpl; lia.
Qed.

Lemma bounded_NoDup_length (l : list nat) n :
  List.NoDup l -> (forall x, In x l -> (x < n)%nat) -> (List.length l <= n)%nat.
Proof.
  intros Hl Hb.
  transitivity (List.length (seq O n)); [|now rewrite length_seq].
  apply NoDup_incl_length; [exact Hl|].
  intros x Hx. apply in_seq. specialize (Hb x Hx). lia.
Qed.

(** X6.  After any events the debounced search has at most one timer
    scheduled, and it is the one [timeoutId] holds. *)
Theorem X6_at_most_one_search_is_scheduled evs (w : W) :
  let s := run evs (createDebouncedSearch w) in
  (List.length (timers s) <= 1)%nat
  /\ (forall t, In t (timers s) -> timeoutId s = Some (tid t)).
Proof.
  intros s.
  assert (Hinv : inv s) by apply inv_run, inv_init.
  split; [|intros t Ht; now apply Hinv].
  unfold s. clear s Hinv.
  assert (Hgen : forall evs (s : state),
             inv s -> (List.length (timers s) <= 1)%nat ->
             (List.length (timers (run evs s)) <= 1)%nat).
  { clear evs. induction evs as [|ev evs IH]; intros s Hinv Hlen; [exact Hlen|].
    simpl. apply IH; [now apply inv_step|].
    destruct ev as [a|dt|id|id]; simpl; auto.
    - rewrite (clearTimeout_inv s Hinv). simpl. lia.
    - destruct (find_due id (now s) (timers s)); [|exact Hlen].
      destruct (searchFunction _ _). simpl.
      etransitivity; [apply List.filter_length_le | exact Hlen].
    - destruct (find_call id (inflight s)); simpl; auto. }
  apply Hgen; [apply inv_init | simpl; lia].
Qed.

(** X7.  After any events, no call has run its search twice, no promise
    has been settled twice, only calls whose search has run are settled, and
    the search function has been called at most as often as the debounced
    function. *)
Theorem X7_each_call_runs_and_settles_at_most_once evs (w : W) :
  let s := run evs (createDebouncedSearch w) in
  List.NoDup (ids (reached s))
  /\ List.NoDup (ids (delivered s))
  /\ (forall i, In i (ids (delivered s)) -> In i (ids (reached s)))
  /\ (List.length (reached s) <= calls evs)%nat.
Proof.
  intros s.
  assert (Hinv : inv s) by apply inv_run, inv_init.
  assert (Ho : orderly s)
    by (apply orderly_run; [apply inv_init | apply orderly_init]).
  destruct Ho as (_ & Hb & _ & Hd & He).
  repeat split; auto; [intros i Hi; now apply Hd|].
  replace (List.length (reached s)) with (List.length (ids (reached s)))
    by apply length_map.
  apply bounded_NoDup_length; [exact Hb|].
  intros x Hx. destruct Hinv as [_ Hf].
  replace (calls evs) with (next_id s)
    by (unfold s; now rewrite next_id_run).
  apply Hf. rewrite in_app_iff. auto.
Qed.

Lemma run_calls_untouched (args : list A) (s : state) :
  inflight (run (map Call args) s) = inflight s
  /\ delivered (run (map Call args) s) = delivered s
  /\ reached (run (map Call args) s) = reached s.
Proof.
  revert s. induction args as [|a args IH]; intros s; [auto|].
  change (run (map Call (a :: args)) s)
    with (run (map Call args) (step s (Call a))).
  destruct (IH (step s (Call a))) as (-> & -> & ->). auto.
Qed.

(** X8.  A search that is in flight is not cancelled by later calls of the
    debounced function: however many follow, its result is delivered when
    it settles. *)
Theorem X8_search_in_flight_is_not_cancelled (args : list A) (s : state) id p :
  find_call id (inflight s) = Some p ->
  delivered (step (run (map Call args) s) (Settle id)) = delivered s ++ [p].
Proof.
  intros Hp. destruct (run_calls_untouched args s) as (Hi & Hd & _).
  cbn [Debounce.step]. rewrite Hi, Hp. cbn [delivered]. now rewrite Hd.
Qed.

End DebounceMoreFacts.

(** ** More on the caches of the service *)
Section CacheMoreFacts.
Import JS Supabase BackendService BackendServiceMore.
Context `{Client}.

(** X9.  [clearCacheByPrefix] removes every entry whose key starts with
    the prefix and no other; the scheduled deletions and the clock are
    untouched. *)
Theorem X9_clearCacheByPrefix_removes_the_prefixed_keys_only
  prefix (s : service) k :
  cache (clearCacheByPrefix prefix s) !! k
  = (if startsWithStr k prefix then None else cache s !! k)
  /\ pending (clearCacheByPrefix prefix s) = pending s
  /\ clock (clearCacheByPrefix prefix s) = clock s.
Proof.
  split; [|split; reflexivity]. unfold clearCacheByPrefix. simpl.
  destruct (startsWithStr k prefix) eqn:Hk.
  - apply map_lookup_filter_None. right. intros x _. simpl. congruence.
  - destruct (cache s !! k) as [x|] eqn:Hx.
    + apply map_lookup_filter_Some. auto.
    + apply map_lookup_filter_None. auto.
Qed.

Lemma stats_key_tag diseaseId :
  startsWithStr (stats_key diseaseId) (lit "stats:") = true.
Proof. apply startsWithStr_app. Qed.

Lemma keys_tagged_step (st : service * world) o :
  keys_tagged (fst st) -> keys_tagged (fst (op_step st o)).
Proof.
  destruct st as [s w]. simpl. intros Hs.
  destruct o as [query limit|diseaseId|dt|n| |prefix]; simpl.
  - pose proof (searchFeatures_cases query limit s w) as Hc. simpl in Hc.
    destruct (searchFeatures query limit s w) as [[r s'] w']. simpl in *.
    destruct Hc as [(c & _ & [= _ <- _])
                   | [(_ & _ & _ & -> & _) | (_ & _ & _ & -> & _)]]; auto.
    intros k. simpl. destruct (decide (search_key query
      match limit with Some l => l | None => MAX_SEARCH_RESULTS end = k))
      as [<-|Hne].
    + intros _. left. apply search_key_prefix.
    + rewrite lookup_insert_ne by exact Hne. apply Hs.
  - pose proof (getDiseaseStats_cases diseaseId s w) as Hc. simpl in Hc.
    destruct (BackendService.getDiseaseStats diseaseId s w) as [[r s'] w'].
    simpl in *.
    destruct Hc as [(c & _ & [= _ <- _])
                   | [(_ & _ & _ & -> & _) | (_ & _ & _ & -> & _)]]; auto.
    intros k. simpl. destruct (decide (stats_key diseaseId = k)) as [<-|Hne].
    + intros _. right. apply stats_key_tag.
    + rewrite lookup_insert_ne by exact Hne. apply Hs.
  - exact Hs.
  - unfold run_timer.
    destruct (pending s !! n) as [[due key]|]; [|exact Hs].
    destruct (due <=? clock s); [|exact Hs]. simpl.
    intros k [x Hk]. simpl in Hk. apply lookup_delete_Some in Hk.
    apply Hs. exists x. tauto.
  - intros k [x Hk]. simpl in Hk. rewrite lookup_empty in Hk. discriminate.
  - intros k [x Hk]. simpl in Hk. apply map_lookup_filter_Some in Hk.
    apply Hs. exists x. tauto.
Qed.

Lemma keys_tagged_run ops (st : service * world) :
  keys_tagged (fst st) -> keys_tagged (fst (op_run ops st)).
Proof.
  revert st. induction ops as [|o ops IH]; intros st Hs; [exact Hs|].
  simpl. apply IH. now apply keys_tagged_step.
Qed.

Lemma tagged_starts_with_s k :
  startsWithStr k (lit "search:") = true
  \/ startsWithStr k (lit "stats:") = true ->
  startsWith k ch_s = true.
Proof.
  destruct k as [|c k]; simpl; [intros [|]; discriminate|].
  intros [Hk | Hk]; apply andb_true_iff in Hk; destruct Hk as [Hc _];
    exact Hc.
Qed.

(** X10.  Every key of the cache starts with [search:] or [stats:], so the
    handler of [subscribeToChanges], which clears by the name of the table,
    removes nothing for a table whose name does not start with the letter
    [s]. *)
Theorem X10_change_of_a_table_invalidates_nothing ops w table :
  table <> [] -> startsWith table ch_s = false ->
  let s := fst (op_run ops (new_service, w)) in
  on_postgres_change table s = s.
Proof.
  intros Hne Hs s.
  assert (Htag : keys_tagged s).
  { apply keys_tagged_run. intros k [x Hk]. simpl in Hk.
    rewrite lookup_empty in Hk. discriminate. }
  unfold on_postgres_change, clearCacheByPrefix.
  destruct s as [c p t] eqn:Es. simpl. f_equal.
  apply map_filter_id. intros k x Hk. simpl.
  assert (Hks : startsWith k ch_s = true).
  { apply tagged_starts_with_s, Htag. simpl. now exists x. }
  destruct table as [|c0 table]; [congruence|].
  destruct k as [|c1 k]; [discriminate|]. simpl in *.
  apply N.eqb_eq in Hks. subst c1.
  apply andb_false_iff. left. apply N.eqb_neq. intros E.
  apply N.eqb_neq in Hs. congruence.
Qed.

Lemma entry_stays_lookup (st : service * world) o k r :
  is_lookup o = true ->
  cache (fst st) !! k = Some r ->
  cache (fst (op_step st o)) !! k = Some r.
Proof.
  destruct st as [s w]. simpl. intros Ho Hr.
  destruct o as [query limit|id|dt|n| |prefix]; simpl; try discriminate; auto.
  - pose proof (searchFeatures_cases query limit s w) as Hc. simpl in Hc.
    destruct (searchFeatures query limit s w) as [[r' s'] w']. simpl in *.
    destruct Hc as [(c & _ & [= _ <- _])
                   | [(_ & _ & _ & -> & _) | (Hmiss & _ & _ & -> & _)]]; auto.
    simpl. rewrite lookup_insert_ne; [exact Hr|]. intros <-. congruence.
  - pose proof (getDiseaseStats_cases id s w) as Hc. simpl in Hc.
    destruct (BackendService.getDiseaseStats id s w) as [[r' s'] w'].
    simpl in *.
    destruct Hc as [(c & _ & [= _ <- _])
                   | [(_ & _ & _ & -> & _) | (Hmiss & _ & _ & -> & _)]]; auto.
    simpl. rewrite lookup_insert_ne; [exact Hr|]. intros <-. congruence.
Qed.

Lemma entry_stays_lookups ops (st : service * world) k r :
  forallb is_lookup ops = true ->
  cache (fst st) !! k = Some r ->
  cache (fst (op_run ops st)) !! k = Some r.
Proof.
  revert st. induction ops as [|o ops IH]; intros st Hops Hr; [exact Hr|].
  simpl in Hops. apply andb_true_iff in Hops. destruct Hops as [Ho Hops].
  simpl. apply IH; [exact Hops|]. now apply entry_stays_lookup.
Qed.

(** X11.  After a search that was answered, the same search is answered
    from the cache with the same result and without a call to the database,
    across any searches, statistics lookups and passing of time in between,
    as long as no deletion runs and the cache is not cleared. *)
Theorem X11_repeated_search_is_answered_from_the_cache
  query limit (s : service) w data w' ops :
  let lim := match limit with Some l => l | None => MAX_SEARCH_RESULTS end in
  cache s !! search_key query lim = None ->
  rpc_search_features_advanced query lim w = (Response data None, w') ->
  forallb is_lookup ops = true ->
  let first := searchFeatures query limit s w in
  let st := op_run ops (snd (fst first), snd first) in
  searchFeatures query limit (fst st) (snd st)
  = (fst (fst first), fst st, snd st).
Proof.
  intros lim Hmiss Hrpc Hops first st.
  assert (Hst : cache (fst st) !! search_key query lim
                = Some (fst (fst first))).
  { unfold st. apply entry_stays_lookups; [exact Hops|]. unfold first.
    rewrite (searchFeatures_miss_ok query limit s w data w' Hmiss Hrpc).
    simpl. apply lookup_insert_eq. }
  unfold searchFeatures at 1. fold lim. now rewrite Hst.
Qed.

(** X12.  [clearCache] does not cancel the scheduled deletions, and a
    deletion removes whatever its key holds when it runs: an entry stored
    after the deletion was scheduled can be removed at once, before its own
    [CACHE_TTL_MS] has passed. *)
Theorem X12_old_deletion_removes_a_fresh_entry
  n (s : service) due query limit w data w' :
  let lim := match limit with Some l => l | None => MAX_SEARCH_RESULTS end in
  let key := search_key query lim in
  pending s !! n = Some (due, key) ->
  due <= clock s ->
  cache s !! key = None ->
  rpc_search_features_advanced query lim w = (Response data None, w') ->
  pending (clearCache s) = pending s
  /\ (let s' := snd (fst (searchFeatures query limit s w)) in
      clock s' = clock s
      /\ is_Some (cache s' !! key)
      /\ cache (run_timer n s') !! key = None).
Proof.
  intros lim key Hn Hdue Hmiss Hrpc. split; [reflexivity|].
  rewrite (searchFeatures_miss_ok query limit s w data w' Hmiss Hrpc).
  cbn [fst snd]. fold lim. fold key. split; [reflexivity|]. split.
  - simpl. rewrite lookup_insert_eq. eauto.
  - unfold run_timer. cbn [pending clock cache].
    rewrite lookup_app_l by (eapply lookup_lt_Some; exact Hn).
    rewrite Hn. apply N.leb_le in Hdue. rewrite Hdue. simpl.
    apply lookup_delete_eq.
Qed.

(** X13.  When the statistics call succeeds without a row, the service
    caches the empty result and answers it from then on without a call,
    whereas [getCachedDiseaseStats] leaves its cache as it was, so that the
    next call asks the database again. *)
Theorem X13_empty_statistics_are_cached_by_the_service_only
  diseaseId data w w' :
  rpc_get_disease_stats diseaseId w = (Response data None, w') ->
  first_row data = None ->
  (forall s : service,
     cache s !! stats_key diseaseId = None ->
     let out := BackendService.getDiseaseStats diseaseId s w in
     fst (fst out) = {| res_data := None; res_error := None |}
     /\ forall w2,
          BackendService.getDiseaseStats diseaseId (snd (fst out)) w2
          = (fst (fst out), snd (fst out), w2))
  /\ (forall q : Api.quick_peek,
        Api.quickPeekCache q !! diseaseId = None ->
        Api.getCachedDiseaseStats diseaseId q w
        = ({| res_data := None; res_error := None |}, q, w')).
Proof.
  intros Hrpc Hrow. split.
  - intros s Hmiss out. unfold out, BackendService.getDiseaseStats.
    rewrite Hmiss, Hrpc, Hrow. simpl. split; [reflexivity|].
    intros w2. now rewrite lookup_insert_eq.
  - intros q Hmiss. unfold Api.getCachedDiseaseStats, Api.getDiseaseStats.
    rewrite Hmiss, Hrpc. simpl. now rewrite Hrow.
Qed.

(** *** Keys *)

Lemma lit_inj a b : lit a = lit b -> a = b.
Proof.
  unfold lit. intros Heq.
  rewrite <- (string_of_list_ascii_of_string a).
  rewrite <- (string_of_list_ascii_of_string b). f_equal.
  revert Heq.
  generalize (list_ascii_of_string a), (list_ascii_of_string b).
  induction l as [|x l IH]; intros [|y l']; simpl; try discriminate; auto.
  intros [= Hxy Hl]. f_equal; [|now apply IH].
  apply Nat2N.inj in Hxy.
  rewrite <- (ascii_nat_embedding x), <- (ascii_nat_embedding y).
  now rewrite Hxy.
Qed.

Lemma decimal_inj n m : decimal n = decimal m -> n = m.
Proof.
  unfold decimal. intros Heq. apply lit_inj in Heq.
  apply (f_equal NilEmpty.uint_of_string) in Heq.
  rewrite !NilEmpty.usu in Heq. injection Heq as Heq.
  rewrite <- (DecimalN.Unsigned.of_to n), <- (DecimalN.Unsigned.of_to m).
  now rewrite Heq.
Qed.

Lemma decimal_digits n : forallb is_digit (decimal n) = true.
Proof.
  unfold decimal. generalize (N.to_uint n). intros u.
  induction u; simpl; auto.
Qed.

Lemma no_colon_in_digits d : forallb is_digit d = true -> ~ In 58 d.
Proof.
  rewrite forallb_forall. intros Hd Hin. specialize (Hd _ Hin). discriminate.
Qed.

Lemma split_at_last_colon (x x' d d' : jsstring) :
  x ++ 58 :: d = x' ++ 58 :: d' -> ~ In 58 d -> ~ In 58 d' ->
  x = x' /\ d = d'.
Proof.
  revert x'. induction x as [|c x IH]; intros [|c' x'] Heq Hd Hd'; simpl in *.
  - injection Heq as ->. auto.
  - injection Heq as <- ->. exfalso. apply Hd. rewrite in_app_iff. simpl. auto.
  - injection Heq as -> <-. exfalso. apply Hd'. rewrite in_app_iff. simpl. auto.
  - injection Heq as -> Heq. destruct (IH x' Heq Hd Hd') as [-> ->]. auto.
Qed.

(** X14.  Two searches share a cache key only if they have the same query
    and the same limit, also when the query holds colons or digits; and a
    search key is never a statistics key. *)
Theorem X14_search_keys_do_not_collide query limit query' limit' diseaseId :
  (search_key query limit = search_key query' limit' ->
   query = query' /\ limit = limit')
  /\ search_key query limit <> stats_key diseaseId.
Proof.
  split.
  - unfold search_key. intros Heq. apply app_inv_head in Heq.
    change (lit ":") with [58] in Heq. simpl in Heq.
    apply split_at_last_colon in Heq;
      try (apply no_colon_in_digits, decimal_digits).
    destruct Heq as [-> Hd]. split; [reflexivity|]. now apply decimal_inj.
  - intros Heq. pose proof (stats_key_prefix diseaseId) as Hs.
    rewrite <- Heq, search_key_prefix in Hs. discriminate.
Qed.

End CacheMoreFacts.

(** ** The parser hook, the submit handler and the quick peek *)
Section HookFacts.
Import JS Supabase Workflow Hooks.
Context `{Client}.

(** X15.  [parseTokens] of [useTokenParser]: blank input gives the empty
    array without a call and without a change of state; otherwise one call
    is made and [parsing] ends false; a failed call gives the empty array
    and leaves the error in the hook, a successful one clears the error. *)
Theorem X15_parseTokens_returns_an_array_and_never_throws
  tokenString (st : parser_state) w :
  let out := parseTokens tokenString st w in
  (is_empty (trim tokenString) = true -> out = ([], st, w))
  /\ (is_empty (trim tokenString) = false ->
      parsing (snd (fst out)) = false
      /\ snd out = snd (rpc_parse_medical_tokens tokenString w)
      /\ (rpc_failed (fst (rpc_parse_medical_tokens tokenString w)) = true ->
          fst (fst out) = [] /\ is_Some (parser_error (snd (fst out))))
      /\ (rpc_failed (fst (rpc_parse_medical_tokens tokenString w)) = false ->
          parser_error (snd (fst out)) = None)).
Proof.
  intros out. unfold out, parseTokens, parse_try, Api.parseMedicalTokens.
  destruct (is_empty (trim tokenString)); (split; [|intros; try discriminate]).
  - reflexivity.
  - intros; discriminate.
  - destruct (rpc_parse_medical_tokens tokenString w) as [[d [e|]|e] w'];
      simpl; repeat split; eauto; discriminate.
Qed.

(** X16.  [handleSubmit] of [TokenInput] reads [data] and [error] off the
    array that [parseTokens] returns, so whatever the database answers it
    never hands a token to [onTokensAdded], never shows a toast and never
    clears the input, and the processed tokens it shows are empty. *)
Theorem X16_handleSubmit_never_adds_a_token
  diseaseId onTokensAdded (ui : input_state) (ps : parser_state) w :
  let out := handleSubmit diseaseId onTokensAdded ui ps w in
  tokens_added (fst (fst out)) = tokens_added ui
  /\ toasts (fst (fst out)) = toasts ui
  /\ input (fst (fst out)) = input ui
  /\ (is_empty (trim (input ui)) = false -> truthy diseaseId <> None ->
      processedTokens (fst (fst out)) = []
      /\ isProcessing (fst (fst out)) = false).
Proof.
  intros out. unfold out, handleSubmit.
  destruct (is_empty (trim (input ui))); [repeat split; auto; discriminate|].
  destruct (truthy diseaseId); [|repeat split; auto; congruence].
  destruct (parseTokens (trim (input ui)) ps w) as [[value ps'] w'].
  simpl. repeat split; auto.
Qed.

(** X17.  [showPeek] with a disease id ends visible and not loading, with
    an error or with data but not both; and when it ended with data,
    hiding the peek and showing the same disease again gives the same state
    without a call to the database. *)
Theorem X17_showPeek_ends_with_data_or_error_and_reuses_the_cache
  diseaseId d (st : peek_state) (q : Api.quick_peek) w :
  truthy diseaseId = Some d ->
  let first := showPeek diseaseId st q w in
  let st1 := fst (fst first) in
  peek_loading st1 = false /\ visible st1 = true
  /\ (peek_error st1 = None \/ peekData st1 = None)
  /\ (is_Some (peekData st1) ->
      showPeek diseaseId (hidePeek st1) (snd (fst first)) (snd first)
      = (st1, snd (fst first), snd first)).
Proof.
  intros Hd first st1. unfold st1, first, showPeek. rewrite Hd.
  destruct (Api.getCachedDiseaseStats d q w) as [[r q'] w'] eqn:Hg.
  destruct (res_error r) as [e|] eqn:He; simpl.
  - repeat split; auto. intros [x Hx]. discriminate.
  - repeat split; auto. intros [x Hx].
    assert (Hq' : Api.quickPeekCache q' !! d = Some r).
    { revert Hg. unfold Api.getCachedDiseaseStats.
      destruct (Api.quickPeekCache q !! d) as [c|] eqn:Hhit.
      - now intros [= <- <- _].
      - destruct (Api.getDiseaseStats d w) as [r0 w0].
        destruct (res_data r0) eqn:Hr0.
        + intros [= <- <- _]. simpl. apply lookup_insert_eq.
        + intros [= <- _]. congruence. }
    unfold Api.getCachedDiseaseStats. rewrite Hq', He. reflexivity.
Qed.

End HookFacts.

(** ** Canonicalization *)
Section CanonicalizationFacts.
Import JS Supabase Canonicalization.
Context `{CanonClient}.

(** X18.  [canonicalize] returns [null] for blank input (without a call),
    for a failed lookup and for a lookup without a match; only the error of
    the hook tells the last two apart.  It returns the first row when there
    is one. *)
Theorem X18_canonicalize_returns_null_for_failure_and_for_no_match
  inputText (st : canon_state) w :
  let out := canonicalize inputText st w in
  let answer := rpc_canonicalize_feature inputText w in
  (is_empty (trim inputText) = true -> out = (None, st, w))
  /\ (is_empty (trim inputText) = false ->
      canonicalizing (snd (fst out)) = false
      /\ snd out = snd answer
      /\ (rpc_failed (fst answer) = true ->
          fst (fst out) = None /\ is_Some (canon_error (snd (fst out))))
      /\ (forall data,
            fst answer = Response data None ->
            fst (fst out) = first_row data
            /\ canon_error (snd (fst out)) = None)).
Proof.
  intros out answer. unfold out, answer, canonicalize, canonicalizeFeature.
  destruct (is_empty (trim inputText)).
  - split; [reflexivity | discriminate].
  - split; [discriminate|]. intros _.
    destruct (rpc_canonicalize_feature inputText w) as [[d [e|]|e] w'];
      simpl.
    + split; [reflexivity|]. split; [reflexivity|]. split; [eauto|].
      intros data [=].
    + split; [reflexivity|]. split; [reflexivity|].
      split; [discriminate|]. intros data [= <-]. auto.
    + split; [reflexivity|]. split; [reflexivity|]. split; [eauto|].
      intros data [=].
Qed.

End CanonicalizationFacts.

(** ** The sheet of a comparison *)
Section SheetFacts.
Import JS Sheets.

(** X19.  [formatDataForSheets] gives one header row and one row per
    feature, and every row has three cells plus one per disease. *)
Theorem X19_sheet_is_rectangular comparisonData diseases :
  List.length (formatDataForSheets comparisonData diseases)
  = S (List.length comparisonData)
  /\ List.Forall
       (fun row => List.length row = (3 + List.length diseases)%nat)
       (formatDataForSheets comparisonData diseases).
Proof.
  unfold formatDataForSheets. split.
  - simpl. now rewrite length_map.
  - constructor.
    + simpl. now rewrite length_map.
    + apply List.Forall_forall. intros row Hrow.
      apply in_map_iff in Hrow. destruct Hrow as (f & <- & _).
      simpl. now rewrite length_map.
Qed.

Lemma find_append {X} (p : X -> bool) (l1 l2 : list X) :
  List.find p (l1 ++ l2)
  = match List.find p l1 with
    | Some x => Some x
    | None => List.find p l2
    end.
Proof.
  induction l1 as [|x l1 IH]; [reflexivity|]. simpl.
  destruct (p x); [reflexivity | exact IH].
Qed.

Lemma diseaseMap_fold (data : list disease_datum)
  (m : gmap jsstring disease_datum) (id : jsstring) :
  fold_left (fun m dd => <[dd_disease_id dd := dd]> m) data m !! id
  = match List.find (fun dd => bool_decide (dd_disease_id dd = id))
            (rev data) with
    | Some dd => Some dd
    | None => m !! id
    end.
Proof.
  revert m. induction data as [|dd data IH]; intros m; [reflexivity|].
  simpl. rewrite IH, find_append.
  destruct (List.find _ (rev data)) as [x|]; [reflexivity|]. simpl.
  destruct (bool_decide_reflect (dd_disease_id dd = id)) as [<-|Hne].
  - apply lookup_insert_eq.
  - now apply lookup_insert_ne.
Qed.

Lemma cell_text_not_dash dd : cell_text dd <> lit "-".
Proof.
  intros Heq. apply (f_equal (@List.length _)) in Heq.
  unfold cell_text in Heq. rewrite !length_app in Heq.
  destruct (dd_is_present dd); simpl in Heq; lia.
Qed.

(** X20.  In the sheet, the cell of a disease is the bare dash exactly when
    the feature has no data for that disease; when it has, the cell shows
    the last of them. *)
Theorem X20_dash_cell_means_no_data (f : feature) (d : disease) :
  (cell f d = lit "-" <->
   forall dd, In dd (disease_data f) -> dd_disease_id dd <> disease_id d)
  /\ (forall pre dd post,
        disease_data f = pre ++ dd :: post ->
        dd_disease_id dd = disease_id d ->
        (forall x, In x post -> dd_disease_id x <> disease_id d) ->
        cell f d = cell_text dd).
Proof.
  unfold cell, diseaseMap. rewrite diseaseMap_fold, lookup_empty. split.
  - destruct (List.find _ (rev (disease_data f))) as [x|] eqn:Hfind.
    + split; [intros Heq; now apply cell_text_not_dash in Heq|].
      intros Hall. apply List.find_some in Hfind. destruct Hfind as [Hin Hx].
      apply bool_decide_eq_true in Hx. apply in_rev in Hin.
      now apply Hall in Hin.
    + split; [|reflexivity]. intros _ dd Hin Hid.
      apply in_rev in Hin.
      apply (List.find_none _ _ Hfind) in Hin.
      apply bool_decide_eq_false in Hin. contradiction.
  - intros pre dd post -> Hid Hpost.
    rewrite rev_app_distr. simpl. rewrite <- app_assoc, find_append.
    destruct (List.find _ (rev post)) as [x|] eqn:Hfind.
    + apply List.find_some in Hfind. destruct Hfind as [Hin Hx].
      apply bool_decide_eq_true in Hx. apply in_rev in Hin.
      now apply Hpost in Hin.
    + simpl. now rewrite bool_decide_eq_true_2.
Qed.

End SheetFacts.

(** ** Further properties at concrete inputs *)
(** ** The word under the cursor *)
Section CurrentWordFacts.
Import JS Fragments CurrentWord.

Lemma split_word_then f sp rest :
  ws_free f -> is_space sp = true ->
  split_ws_from false (f ++ sp :: rest) = f :: split_ws_from true rest.
Proof.
  intros Hf Hsp. induction Hf as [|c f Hc Hf IH].
  - simpl. now rewrite Hsp.
  - rewrite <- app_comm_cons. simpl. rewrite Hc, IH. reflexivity.
Qed.

Lemma split_spaces_then sep rest :
  forallb is_space sep = true ->
  split_ws_from true (sep ++ rest) = split_ws_from true rest.
Proof.
  induction sep as [|c sep IH]; intros Hs; [reflexivity|].
  simpl in Hs. apply andb_true_iff in Hs. destruct Hs as [Hc Hs].
  simpl. rewrite Hc. now apply IH.
Qed.

Lemma split_run_proper b f r :
  proper f -> split_ws_from b (f ++ r) = split_ws_from false (f ++ r).
Proof.
  intros [Hne Hf]. destruct f as [|c f]; [congruence|].
  inversion Hf as [|? ? Hc Hf']; subst.
  rewrite <- app_comm_cons. simpl. now rewrite Hc.
Qed.

Lemma split_proper b f : proper f -> split_ws_from b f = [f].
Proof.
  intros Hf. rewrite <- (app_nil_r f), (split_run_proper b f [] Hf).
  rewrite app_nil_r. apply split_ws_ws_free, Hf.
Qed.

(** Words joined by single spaces split into these words. *)
Lemma split_join l b :
  l <> [] -> List.Forall proper l -> split_ws_from b (join_space l) = l.
Proof.
  intros Hne Hl. revert b. induction Hl as [|f l Hf Hl IH]; intros b;
    [congruence|].
  destruct l as [|g l]; [now apply split_proper|].
  change (join_space (f :: g :: l)) with (f ++ 32 :: join_space (g :: l)).
  rewrite (split_run_proper b f _ Hf).
  rewrite (split_word_then f 32 _ (proj2 Hf) eq_refl).
  f_equal. apply IH. discriminate.
Qed.

Lemma slice_middle (before w after : jsstring) :
  slice (before ++ w ++ after) (List.length before)
    (List.length before + List.length w) = w.
Proof.
  unfold slice.
  replace (List.length before + List.length w - List.length before)%nat
    with (List.length w) by lia.
  change (take (List.length w)
            (drop (List.length before) (before ++ w ++ after)) = w).
  now rewrite drop_app_length, take_app_length.
Qed.

Lemma join_space_cons f l :
  exists after, join_space (f :: l) = f ++ after.
Proof.
  destruct l as [|g l]; [exists []; simpl; now rewrite app_nil_r|].
  now exists (32 :: join_space (g :: l)).
Qed.

(** The loop on words joined by single spaces, entered at the position where
    they begin. *)
Lemma word_from_join l : forall i (before : jsstring) pos,
  l <> [] -> (List.length before <= pos)%nat ->
  (pos <= List.length before + List.length (join_space l))%nat ->
  exists found w j,
    word_from l i (List.length before) pos = Some found
    /\ l !! j = Some w
    /\ cw_index found = (i + j)%nat
    /\ cw_word found = strip_one_sign w
    /\ startPos found = (List.length before + offset l j)%nat
    /\ endPos found = (startPos found + List.length w)%nat
    /\ (startPos found <= pos)%nat /\ (pos <= endPos found)%nat
    /\ slice (before ++ join_space l) (startPos found) (endPos found) = w.
Proof.
  induction l as [|w l IH]; intros i before pos Hne Hlo Hhi; [congruence|].
  simpl word_from.
  destruct (pos <=? List.length before + List.length w)%nat eqn:Hpos.
  - apply Nat.leb_le in Hpos.
    destruct (join_space_cons w l) as [after ->].
    eexists _, w, O. split; [reflexivity|]. split; [reflexivity|].
    cbn [cw_index cw_word startPos endPos].
    split; [lia|]. split; [reflexivity|].
    split; [unfold offset; simpl; lia|]. split; [reflexivity|].
    split; [exact Hlo|]. split; [exact Hpos|]. apply slice_middle.
  - apply Nat.leb_gt in Hpos.
    destruct l as [|g l]; [simpl in Hhi; lia|].
    change (join_space (w :: g :: l))
      with (w ++ 32 :: join_space (g :: l)) in *.
    rewrite length_app in Hhi. simpl List.length in Hhi.
    destruct (IH (S i) (before ++ w ++ [32]) pos) as
      (found & w' & j & Hrun & Hj & Hi & Hw & Hst & Hen & Hs & He & Hsl).
    + discriminate.
    + rewrite !length_app. simpl. lia.
    + rewrite !length_app. simpl List.length. lia.
    + rewrite !length_app in Hrun, Hst. simpl List.length in Hrun, Hst.
      rewrite Nat.add_assoc in Hrun.
      exists found, w', (S j). repeat split; try assumption; try lia.
      * rewrite Hst. unfold offset. simpl. lia.
      * rewrite <- Hsl. f_equal. rewrite <- !app_assoc. reflexivity.
Qed.

(** X21.  In an input whose words are separated by single spaces,
    [getCurrentWord] reports the word the cursor is in or next to: its
    index among the words, the positions at which it begins and ends in the
    input, and its text without one leading sign. *)
Theorem X21_current_word_of_single_spaced_input
  (l : list jsstring) (pos : nat) :
  l <> [] -> List.Forall proper l ->
  (pos <= List.length (join_space l))%nat ->
  let input := join_space l in
  let found := getCurrentWord input pos in
  exists w,
    l !! cw_index found = Some w
    /\ cw_word found = strip_one_sign w
    /\ startPos found = offset l (cw_index found)
    /\ endPos found = (startPos found + List.length w)%nat
    /\ (startPos found <= pos)%nat /\ (pos <= endPos found)%nat
    /\ slice input (startPos found) (endPos found) = w.
Proof.
  intros Hne Hl Hpos input found. subst input found. unfold getCurrentWord.
  unfold split_ws. rewrite (split_join l false Hne Hl).
  destruct (word_from_join l O [] pos Hne) as
    (found & w & j & Hrun & Hj & Hi & Hw & Hst & Hen & Hs & He & Hsl);
    [simpl; lia | simpl; lia |].
  simpl List.length in Hrun, Hst. rewrite Hrun.
  exists w. simpl in Hi, Hst. rewrite Hi. repeat split; assumption.
Qed.

(** X22. After a run of two or more white-space characters the positions
    [getCurrentWord] computes fall short: with the cursor at the end of the
    input, behind the second of two words, no word is reported, though
    [split] yields both. *)
Theorem X22_wide_gap_hides_the_word_at_the_end
  (a sep b : jsstring) :
  proper a -> proper b -> forallb is_space sep = true ->
  (2 <= List.length sep)%nat ->
  let input := a ++ sep ++ b in
  split_ws input = [a; b]
  /\ getCurrentWord input (List.length input)
     = {| cw_word := []; cw_index := 2;
          startPos := List.length input; endPos := List.length input |}.
Proof.
  intros Ha Hb Hsep Hlen input.
  assert (Hsplit : split_ws input = [a; b]).
  { subst input. unfold split_ws.
    destruct sep as [|sp sep]; [simpl in Hlen; lia|].
    simpl in Hsep. apply andb_true_iff in Hsep. destruct Hsep as [Hsp Hsep].
    rewrite <- app_comm_cons, (split_word_then a sp _ (proj2 Ha) Hsp).
    rewrite (split_spaces_then sep b Hsep), (split_proper true b Hb).
    reflexivity. }
  split; [exact Hsplit|]. unfold getCurrentWord. rewrite Hsplit.
  assert (Hin : List.length input
                = (List.length a + List.length sep + List.length b)%nat).
  { subst input. rewrite !length_app. lia. }
  simpl word_from.
  destruct (List.length input <=? List.length a)%nat eqn:H1;
    [apply Nat.leb_le in H1; lia|].
  destruct (List.length input <=? List.length a + 1 + List.length b)%nat
    eqn:H2; [apply Nat.leb_le in H2; lia|].
  reflexivity.
Qed.

End CurrentWordFacts.

Section MoreExamples.
Import JS Supabase Tokenizer Fixtures FixturesMore.
#[local] Existing Instance counting_client.

Lemma X1_witness :
  (lit " " <> [] /\ forallb is_space (lit " ") = true)
  /\ parseTokensClient (lit "+a" ++ lit " " ++ lit "b<5")
     = parseTokensClient (lit "+a") ++ parseTokensClient (lit "b<5").
Proof.
  split; [split; [discriminate | reflexivity]|].
  apply X1_tokenize_distributes_over_white_space; [discriminate | reflexivity].
Defined.

Lemma X4_witness :
  In (parse_fragment (lit "-x<5" ++ [ch_up]))
     (parseTokensClient (lit "a -x<5" ++ [ch_up]))
  /\ lit "-x<5" ++ [ch_up]
     = lit "-" ++ lit "x" ++ lit "<5" ++ [ch_up]
  /\ original (parse_fragment (lit "-x<5" ++ [ch_up]))
     = Fragments.sign_of (original (parse_fragment (lit "-x<5" ++ [ch_up])))
       ++ cleanToken (parse_fragment (lit "-x<5" ++ [ch_up]))
       ++ Fragments.modifier_text (parse_fragment (lit "-x<5" ++ [ch_up]))
       ++ Fragments.overridden_glyph
            (parse_fragment (lit "-x<5" ++ [ch_up]))
  /\ isPresent (parse_fragment (lit "-x<5" ++ [ch_up])) = false.
Proof.
  assert (Hin : In (parse_fragment (lit "-x<5" ++ [ch_up]))
                   (parseTokensClient (lit "a -x<5" ++ [ch_up])))
    by (right; left; reflexivity).
  split; [exact Hin|]. split; [reflexivity|].
  destruct (X4_original_decomposes _ _ Hin) as (Heq & Hp).
  split; [exact Heq | exact Hp].
Defined.

Lemma X5_witness :
  (lit "MCV" <> [] /\ is_operator (lit "<") = true
   /\ all_digits (lit "80") = true)
  /\ parseTokensClient (lit "-MCV<80")
     = [{| original := lit "-MCV<80"; cleanToken := lit "MCV";
           isPresent := false; valueModifier := JString (lit "<");
           numericValue := JString (lit "80") |}].
Proof.
  split; [split; [discriminate | split; reflexivity]|].
  apply (X5_signed_comparison_parses_into_its_parts
           ch_minus (lit "MCV") (lit "<") (lit "80"));
    try reflexivity; [right; reflexivity | discriminate |].
  repeat constructor.
Defined.

Lemma X8_witness :
  Debounce.find_call 0 (Debounce.inflight search_in_flight)
  = Some (0%nat, Debounce.Resolved (lit "a"))
  /\ Debounce.delivered
       (Debounce.step echo_search 300
          (Debounce.run echo_search 300
             (map Debounce.Call [lit "ab"; lit "abc"]) search_in_flight)
          (Debounce.Settle 0))
     = [(0%nat, Debounce.Resolved (lit "a"))].
Proof.
  split; [reflexivity|].
  exact (X8_search_in_flight_is_not_cancelled echo_search 300
           [lit "ab"; lit "abc"] search_in_flight 0%nat
           (0%nat, Debounce.Resolved (lit "a")) eq_refl).
Defined.

Lemma X10_witness :
  (lit "diseases" <> []
   /\ startsWith (lit "diseases") BackendServiceMore.ch_s = false)
  /\ BackendServiceMore.on_postgres_change (lit "diseases")
       (fst (BackendService.op_run
               [BackendService.Search (lit "dys") None;
                BackendService.Stats (lit "d1")] fresh_service))
     = fst (BackendService.op_run
              [BackendService.Search (lit "dys") None;
               BackendService.Stats (lit "d1")] fresh_service).
Proof.
  split; [split; [discriminate | reflexivity]|].
  apply (@X10_change_of_a_table_invalidates_nothing counting_client
           [BackendService.Search (lit "dys") None;
            BackendService.Stats (lit "d1")] 0%nat (lit "diseases"));
    [discriminate | reflexivity].
Defined.

Lemma X11_witness :
  forallb BackendServiceMore.is_lookup
    [BackendService.Stats (lit "d1"); BackendService.Elapse 5;
     BackendService.Search (lit "abc") None] = true
  /\ snd (BackendService.searchFeatures (lit "dys") None
            (fst (BackendService.op_run
                    [BackendService.Search (lit "dys") None;
                     BackendService.Stats (lit "d1"); BackendService.Elapse 5;
                     BackendService.Search (lit "abc") None] fresh_service))
            3%nat)
     = 3%nat.
Proof.
  split; [reflexivity|].
  exact (f_equal snd
           (@X11_repeated_search_is_answered_from_the_cache counting_client
              (lit "dys") None BackendService.new_service 0%nat
              (Some [0%nat]) 1%nat
              [BackendService.Stats (lit "d1"); BackendService.Elapse 5;
               BackendService.Search (lit "abc") None]
              eq_refl eq_refl eq_refl)).
Defined.

Lemma X12_witness :
  BackendService.pending (fst cleared_service) !! 0%nat
  = Some (BackendService.CACHE_TTL_MS,
          BackendService.search_key (lit "dys") 10)
  /\ BackendService.cache
       (BackendService.run_timer 0
          (snd (fst (BackendService.searchFeatures (lit "dys") None
                       (fst cleared_service) (snd cleared_service)))))
     !! BackendService.search_key (lit "dys") 10 = None.
Proof.
  split; [reflexivity|].
  assert (Hdue : BackendService.CACHE_TTL_MS
                 <= BackendService.clock (fst cleared_service))
    by (vm_compute; discriminate).
  destruct (@X12_old_deletion_removes_a_fresh_entry counting_client
              0%nat (fst cleared_service) BackendService.CACHE_TTL_MS
              (lit "dys") None (snd cleared_service) (Some [1%nat]) 2%nat
              eq_refl Hdue eq_refl eq_refl) as (_ & _ & _ & Hgone).
  exact Hgone.
Defined.

Lemma X13_witness :
  first_row (Some ([] : list nat)) = None
  /\ @Api.getCachedDiseaseStats rowless_client (lit "d1")
       (@Api.quick_peek_init rowless_client) 0%nat
     = ({| res_data := None; res_error := None |},
        @Api.quick_peek_init rowless_client, 1%nat).
Proof.
  split; [reflexivity|].
  destruct (@X13_empty_statistics_are_cached_by_the_service_only
              rowless_client (lit "d1") (Some []) 0%nat 1%nat
              eq_refl eq_refl) as [_ Hpeek].
  apply Hpeek. reflexivity.
Defined.

Lemma X14_witness :
  BackendService.search_key (lit "a:1") 2
  <> BackendService.search_key (lit "a") 12.
Proof.
  intros Heq.
  destruct (X14_search_keys_do_not_collide (lit "a:1") 2 (lit "a") 12 [])
    as [Hinj _].
  destruct (Hinj Heq) as [Hq _]. discriminate Hq.
Defined.

Lemma X15_witness :
  is_empty (trim (lit "fail")) = false
  /\ rpc_failed (fst (rpc_parse_medical_tokens (lit "fail") 0%nat)) = true
  /\ fst (fst (Hooks.parseTokens (lit "fail") idle_parser 0%nat)) = []
  /\ Hooks.parseTokens (lit "   ") idle_parser 0%nat = ([], idle_parser, 0%nat).
Proof.
  destruct (@X15_parseTokens_returns_an_array_and_never_throws
              counting_client (lit "fail") idle_parser 0%nat) as [_ Hcall].
  destruct (Hcall eq_refl) as (_ & _ & Hfail & _).
  destruct (@X15_parseTokens_returns_an_array_and_never_throws
              counting_client (lit "   ") idle_parser 0%nat) as [Hblank _].
  split; [reflexivity|]. split; [reflexivity|].
  split; [exact (proj1 (Hfail eq_refl)) | exact (Hblank eq_refl)].
Defined.

Lemma X16_witness :
  (is_empty (trim (Hooks.input a_token_input)) = false
   /\ Workflow.truthy (Some (lit "d1")) <> None)
  /\ Hooks.tokens_added
       (fst (fst (Hooks.handleSubmit (Some (lit "d1")) true a_token_input
                    idle_parser 0%nat))) = []
  /\ Hooks.processedTokens
       (fst (fst (Hooks.handleSubmit (Some (lit "d1")) true a_token_input
                    idle_parser 0%nat))) = [].
Proof.
  assert (Hd : Workflow.truthy (Some (lit "d1")) <> None) by discriminate.
  split; [split; [reflexivity | exact Hd]|].
  destruct (@X16_handleSubmit_never_adds_a_token counting_client
              (Some (lit "d1")) true a_token_input idle_parser 0%nat)
    as (Hadd & _ & _ & Hshown).
  split; [exact Hadd | exact (proj1 (Hshown eq_refl Hd))].
Defined.

Lemma X17_witness :
  Workflow.truthy (Some (lit "d1")) = Some (lit "d1")
  /\ Hooks.peekData
       (fst (fst (Hooks.showPeek (Some (lit "d1")) hidden_peek
                    Api.quick_peek_init 0%nat))) = Some 0%nat
  /\ snd (Hooks.showPeek (Some (lit "d1"))
            (Hooks.hidePeek
               (fst (fst (Hooks.showPeek (Some (lit "d1")) hidden_peek
                            Api.quick_peek_init 0%nat))))
            (snd (fst (Hooks.showPeek (Some (lit "d1")) hidden_peek
                         Api.quick_peek_init 0%nat)))
            (snd (Hooks.showPeek (Some (lit "d1")) hidden_peek
                    Api.quick_peek_init 0%nat)))
     = 1%nat.
Proof.
  split; [reflexivity|]. split; [reflexivity|].
  destruct (@X17_showPeek_ends_with_data_or_error_and_reuses_the_cache
              counting_client (Some (lit "d1")) (lit "d1") hidden_peek
              Api.quick_peek_init 0%nat eq_refl) as (_ & _ & _ & Hagain).
  assert (Hdata : is_Some (Hooks.peekData
                    (fst (fst (Hooks.showPeek (Some (lit "d1")) hidden_peek
                                 Api.quick_peek_init 0%nat)))))
    by (exists 0%nat; reflexivity).
  exact (f_equal snd (Hagain Hdata)).
Defined.

Lemma X18_witness :
  is_empty (trim (lit "Zzz")) = false
  /\ fst (fst (@Canonicalization.canonicalize counting_client canon_client
                 (lit "Zzz") idle_canon 0%nat))
     = None
  /\ Canonicalization.canon_error
       (snd (fst (@Canonicalization.canonicalize counting_client canon_client
                 (lit "Zzz") idle_canon 0%nat)))
     = None
  /\ fst (fst (@Canonicalization.canonicalize counting_client canon_client
                 (lit "fail") idle_canon 0%nat))
     = None.
Proof.
  destruct (@X18_canonicalize_returns_null_for_failure_and_for_no_match
              counting_client canon_client (lit "Zzz") idle_canon 0%nat)
    as [_ Hcall].
  destruct (Hcall eq_refl) as (_ & _ & _ & Hok).
  destruct (Hok (Some []) eq_refl) as [Hnone Herr].
  destruct (@X18_canonicalize_returns_null_for_failure_and_for_no_match
              counting_client canon_client (lit "fail") idle_canon 0%nat)
    as [_ Hcall'].
  destruct (Hcall' eq_refl) as (_ & _ & Hfail & _).
  split; [reflexivity|]. split; [exact Hnone|]. split; [exact Herr|].
  exact (proj1 (Hfail eq_refl)).
Defined.

Lemma X20_witness :
  Sheets.disease_data fever
  = [datum "d1" true; datum "d2" true] ++ datum "d1" false :: []
  /\ Sheets.cell fever
       {| Sheets.disease_id := lit "d1"; Sheets.disease_name := lit "Flu" |}
     = lit "- (common, wt:1)".
Proof.
  split; [reflexivity|].
  destruct (X20_dash_cell_means_no_data fever
              {| Sheets.disease_id := lit "d1";
                 Sheets.disease_name := lit "Flu" |}) as [_ Hlast].
  rewrite (Hlast [datum "d1" true; datum "d2" true] (datum "d1" false) []
             eq_refl eq_refl); [reflexivity|].
  intros x [].
Defined.

End MoreExamples.

Section CurrentWordExamples.
Import JS Fragments CurrentWord.

Lemma X21_witness :
  exists w,
    [lit "+Dysp"; lit "-Murmur"]
      !! cw_index (getCurrentWord (lit "+Dysp -Murmur") 3) = Some w
    /\ cw_word (getCurrentWord (lit "+Dysp -Murmur") 3) = strip_one_sign w
    /\ startPos (getCurrentWord (lit "+Dysp -Murmur") 3)
       = offset [lit "+Dysp"; lit "-Murmur"]
           (cw_index (getCurrentWord (lit "+Dysp -Murmur") 3))
    /\ endPos (getCurrentWord (lit "+Dysp -Murmur") 3)
       = (startPos (getCurrentWord (lit "+Dysp -Murmur") 3)
          + List.length w)%nat
    /\ (startPos (getCurrentWord (lit "+Dysp -Murmur") 3) <= 3)%nat
    /\ (3 <= endPos (getCurrentWord (lit "+Dysp -Murmur") 3))%nat
    /\ slice (lit "+Dysp -Murmur")
         (startPos (getCurrentWord (lit "+Dysp -Murmur") 3))
         (endPos (getCurrentWord (lit "+Dysp -Murmur") 3)) = w.
Proof.
  apply (X21_current_word_of_single_spaced_input
           [lit "+Dysp"; lit "-Murmur"] 3).
  - discriminate.
  - repeat constructor; try discriminate.
  - vm_compute. lia.
Defined.

Lemma X22_witness :
  split_ws (lit "Fever  Cough") = [lit "Fever"; lit "Cough"]
  /\ getCurrentWord (lit "Fever  Cough") 12
     = {| cw_word := []; cw_index := 2; startPos := 12; endPos := 12 |}.
Proof.
  apply (X22_wide_gap_hides_the_word_at_the_end
           (lit "Fever") (lit "  ") (lit "Cough")).
  - split; [discriminate | repeat constructor].
  - split; [discriminate | repeat constructor].
  - reflexivity.
  - vm_compute. lia.
Defined.

End CurrentWordExamples.
